(** * Front-end analyzer of the mini-language (work1/lexer.cpp)

    A shallow embedding of class [Analyzer]: the tokenizer
    ([tokenize], [readIdentifierOrKeyword], [readNumber], [readOperator]),
    the declaration validator ([parseDefinitionBody]), the structural
    validator ([parseRealizationBody]) and the driver ([parse], [analyze]),
    followed by the properties established about them.

    Conventions of the embedding.
    - The tokenizer only ever reads [source[pos]] and [source[pos+1]] and
      only ever increases [pos]; its functions therefore take the remaining
      input [source[pos..]] and return the token together with the input
      that is left.
    - The parser keeps the members [tokens], [tokenPos], [symbolTable] and
      [errors] of the class in a record that is threaded through the
      phases; [tokens[tokenPos]] is the list lookup [tokens !! tokenPos].
    - A [while] loop is a [Fixpoint] on a fuel argument that yields [None]
      when the fuel runs out; for each loop it is proved that the fuel the
      caller passes is enough.
    - The character tests of <cctype> are those of the "C" locale; a byte
      above 127 is in no class. *)

From Stdlib Require Import ZArith NArith Ascii String Bool Lia.
From stdpp Require Import gmap strings list fin_maps.

Local Open Scope string_scope.

(** ** Tokens *)

Inductive TokenType : Set :=
  | KEYWORD_VAR | KEYWORD_INTEGER | KEYWORD_LONGINT | KEYWORD_BOOL
  | KEYWORD_IF | KEYWORD_THEN | KEYWORD_ELSE | KEYWORD_WHILE | KEYWORD_DO
  | KEYWORD_FOR | KEYWORD_BEGIN | KEYWORD_END | KEYWORD_AND | KEYWORD_OR
  | OPERATOR_PLUS | OPERATOR_MINUS | OPERATOR_MULTIPLY | OPERATOR_DIVIDE
  | OPERATOR_ASSIGN | OPERATOR_LT | OPERATOR_GT | OPERATOR_NE | OPERATOR_GE
  | OPERATOR_LE | OPERATOR_EQ
  | DELIMITER_SEMICOLON | DELIMITER_COLON | DELIMITER_LPAREN
  | DELIMITER_RPAREN | DELIMITER_COMMA
  | IDENTIFIER | NUMBER | ERROR.

#[global] Instance TokenType_eq_dec : EqDecision TokenType.
Proof. solve_decision. Defined.

Record Token : Set := mkToken { type : TokenType; value : string }.

#[global] Instance Token_eq_dec : EqDecision Token.
Proof. solve_decision. Defined.

(** ** Character classes (<cctype>, "C" locale) *)

Definition code (c : ascii) : N := N_of_ascii c.

Definition isspace (c : ascii) : bool :=
  ((9 <=? code c) && (code c <=? 13) || (code c =? 32))%N.

Definition isupper (c : ascii) : bool :=
  ((65 <=? code c) && (code c <=? 90))%N.

Definition islower (c : ascii) : bool :=
  ((97 <=? code c) && (code c <=? 122))%N.

Definition isalpha (c : ascii) : bool := isupper c || islower c.

Definition isdigit (c : ascii) : bool :=
  ((48 <=? code c) && (code c <=? 57))%N.

Definition isalnum (c : ascii) : bool := isalpha c || isdigit c.

Definition tolower (c : ascii) : ascii :=
  if isupper c then ascii_of_N (code c + 32) else c.

(** ** Helpers of the class *)

Fixpoint toLower (str : string) : string :=
  match str with
  | EmptyString => EmptyString
  | String c rest => String (tolower c) (toLower rest)
  end.

Definition keywords : list string :=
  ["var"; "integer"; "longint"; "bool"; "if"; "then"; "else";
   "while"; "do"; "for"; "begin"; "end"; "and"; "or"].

Definition types : list string := ["integer"; "longint"; "bool"].

(** [set.count(x)] of the two [unordered_set]s, as a membership test. *)
Definition count (set : list string) (x : string) : bool :=
  bool_decide (x ∈ set).

Definition getKeywordType (keyword : string) : TokenType :=
  if String.eqb keyword "var" then KEYWORD_VAR
  else if String.eqb keyword "integer" then KEYWORD_INTEGER
  else if String.eqb keyword "longint" then KEYWORD_LONGINT
  else if String.eqb keyword "bool" then KEYWORD_BOOL
  else if String.eqb keyword "if" then KEYWORD_IF
  else if String.eqb keyword "then" then KEYWORD_THEN
  else if String.eqb keyword "else" then KEYWORD_ELSE
  else if String.eqb keyword "while" then KEYWORD_WHILE
  else if String.eqb keyword "do" then KEYWORD_DO
  else if String.eqb keyword "for" then KEYWORD_FOR
  else if String.eqb keyword "begin" then KEYWORD_BEGIN
  else if String.eqb keyword "end" then KEYWORD_END
  else if String.eqb keyword "and" then KEYWORD_AND
  else if String.eqb keyword "or" then KEYWORD_OR
  else ERROR.

Definition isDelimiter (c : ascii) : bool :=
  (c =? ";")%char || (c =? ":")%char || (c =? ",")%char || (c =? "(")%char
  || (c =? ")")%char || (c =? "+")%char || (c =? "-")%char
  || (c =? "*")%char || (c =? "/")%char || (c =? "<")%char
  || (c =? ">")%char || (c =? "=")%char.

(** ** Tokenizer *)

(** The scanning loop of [readIdentifierOrKeyword]: the text collected in
    [tokenStr] and the input left at the first whitespace or delimiter. *)
Fixpoint scanWord (s : string) : string * string :=
  match s with
  | EmptyString => (EmptyString, EmptyString)
  | String c rest =>
      if negb (isspace c) && negb (isDelimiter c) then
        let '(tokenStr, s') := scanWord rest in (String c tokenStr, s')
      else (EmptyString, s)
  end.

(** [for (char c : tokenStr) if (!isalnum(c)) ...] *)
Fixpoint allAlnum (tokenStr : string) : bool :=
  match tokenStr with
  | EmptyString => true
  | String c rest => isalnum c && allAlnum rest
  end.

(** [tokenStr[0]]; on the empty string the terminating NUL. *)
Definition firstChar (tokenStr : string) : ascii :=
  match tokenStr with
  | EmptyString => zero
  | String c _ => c
  end.

Definition readIdentifierOrKeyword (s : string) : Token * string :=
  let '(tokenStr, s') := scanWord s in
  let lowerToken := toLower tokenStr in
  if count keywords lowerToken then
    (mkToken (getKeywordType lowerToken) tokenStr, s')
  else if negb (isalpha (firstChar tokenStr)) then
    (mkToken ERROR tokenStr, s')
  else if negb (allAlnum tokenStr) then
    (mkToken ERROR tokenStr, s')
  else (mkToken IDENTIFIER tokenStr, s').

(** The scanning loop of [readNumber]. *)
Fixpoint scanDigits (s : string) : string * string :=
  match s with
  | EmptyString => (EmptyString, EmptyString)
  | String c rest =>
      if isdigit c then
        let '(tokenStr, s') := scanDigits rest in (String c tokenStr, s')
      else (EmptyString, s)
  end.

Definition readNumber (s : string) : Token * string :=
  let '(tokenStr, s') := scanDigits s in (mkToken NUMBER tokenStr, s').

(** [pos + 1 < source.length() && source[pos + 1] == d], on the input
    [rest] that follows the current character. *)
Definition nextIs (rest : string) (d : ascii) : bool :=
  match rest with
  | EmptyString => false
  | String c1 _ => (c1 =? d)%char
  end.

(** [pos += 2] after a successful [nextIs]. *)
Definition skip1 (rest : string) : string :=
  match rest with
  | EmptyString => EmptyString
  | String _ rest' => rest'
  end.

(** [readOperator] at current character [c], [rest] being what follows. *)
Definition readOperator (c : ascii) (rest : string) : Token * string :=
  if (c =? "+")%char then (mkToken OPERATOR_PLUS "+", rest)
  else if (c =? "-")%char then (mkToken OPERATOR_MINUS "-", rest)
  else if (c =? "*")%char then (mkToken OPERATOR_MULTIPLY "*", rest)
  else if (c =? "/")%char then (mkToken OPERATOR_DIVIDE "/", rest)
  else if (c =? ";")%char then (mkToken DELIMITER_SEMICOLON ";", rest)
  else if (c =? "(")%char then (mkToken DELIMITER_LPAREN "(", rest)
  else if (c =? ")")%char then (mkToken DELIMITER_RPAREN ")", rest)
  else if (c =? ",")%char then (mkToken DELIMITER_COMMA ",", rest)
  else if (c =? ":")%char then
    if nextIs rest "=" then (mkToken OPERATOR_ASSIGN ":=", skip1 rest)
    else (mkToken DELIMITER_COLON ":", rest)
  else if (c =? "<")%char then
    if nextIs rest ">" then (mkToken OPERATOR_NE "<>", skip1 rest)
    else if nextIs rest "=" then (mkToken OPERATOR_LE "<=", skip1 rest)
    else (mkToken OPERATOR_LT "<", rest)
  else if (c =? ">")%char then
    if nextIs rest "=" then (mkToken OPERATOR_GE ">=", skip1 rest)
    else (mkToken OPERATOR_GT ">", rest)
  else if (c =? "=")%char then
    if nextIs rest "=" then (mkToken OPERATOR_EQ "==", skip1 rest)
    else (mkToken ERROR "=", rest)
  else (mkToken ERROR (String c EmptyString), rest).

(** One iteration of the loop of [tokenize] at a non-empty input: the
    token pushed, if any, and the input left. *)
Definition tokenizeStep (c : ascii) (rest : string) : option Token * string :=
  if isspace c then (None, rest)
  else if isalpha c then
    let '(t, s') := readIdentifierOrKeyword (String c rest) in (Some t, s')
  else if isdigit c then
    let '(t, s') := readNumber (String c rest) in (Some t, s')
  else
    let '(t, s') := readOperator c rest in (Some t, s').

(** [while (pos < source.length()) ...]; [None] when the fuel runs out. *)
Fixpoint tokenizeLoop (fuel : nat) (s : string) : option (list Token) :=
  match s with
  | EmptyString => Some []
  | String c rest =>
      match fuel with
      | O => None
      | S fuel' =>
          let '(ot, s') := tokenizeStep c rest in
          match tokenizeLoop fuel' s' with
          | None => None
          | Some toks =>
              Some (match ot with Some t => t :: toks | None => toks end)
          end
      end
  end.

(** [tokenize]: one unit of fuel per character of the source. *)
Definition tokenize (source : string) : option (list Token) :=
  tokenizeLoop (String.length source) source.

(** ** Diagnostics

    The message literals of the source, each with the name the
    specification gives it. *)

(** "empty program" *)
Definition msgEmpty : string := "程序为空".
(** "program must start with 'var'" *)
Definition msgNoVar : string := "程序起始缺少合法的 'var'".
(** "missing 'begin' after definition body" *)
Definition msgNoBegin : string := "定义部分后缺少 'begin'".
(** "missing 'end' at program termination" *)
Definition msgNoEnd : string := "程序结束处缺少 'end'".
(** "invalid identifier: <lexeme>", first token of a group *)
Definition msgInvalidKeyword : string := "无效的关键词: ".
(** "expected identifier, found: <lexeme>" *)
Definition msgExpectedIdentifier : string := "未定义有效标识符: ".
(** "expected identifier after comma" *)
Definition msgIdentifierAfterComma : string := "逗号后期望标识符".
(** "invalid identifier: <lexeme>", after a comma *)
Definition msgInvalidIdentifier : string := "无效的标识符: ".
(** "missing comma between identifiers" *)
Definition msgMissingComma : string := "标识符之间缺少逗号".
(** "missing ':' after variable(s)" *)
Definition msgMissingColon : string := "变量后缺少 ':'".
(** "expected type (integer, longint, bool), found: <lexeme or none>" *)
Definition msgExpectedType : string := "期望类型 (integer, longint, bool)，找到: ".
(** "none" *)
Definition msgNone : string := "无".
(** "repeated definition of variable: <name>" *)
Definition msgRepeated : string := "变量重复定义: ".
(** "missing ';' after variable declaration" *)
Definition msgDeclSemicolon : string := "变量声明后缺少 ';'".
(** "invalid token in realization: <lexeme>" *)
Definition msgInvalidToken : string := "实现部分中的无效令牌: ".
(** "undefined variable: <name>" *)
Definition msgUndefined : string := "未定义的变量: ".
(** "missing ':=' after identifier: <name>" *)
Definition msgMissingAssign : string := "标识符后缺少 ':=': ".
(** "expected number or identifier after ':=', found: <lexeme or none>" *)
Definition msgExpectedValue : string := "':=' 后期望数字或标识符，找到: ".
(** "undefined variable in assignment: <name>" *)
Definition msgUndefinedInAssign : string := "赋值中未定义的变量: ".
(** "missing ';' after assignment" *)
Definition msgAssignSemicolon : string := "赋值后缺少 ';'".
(** "missing '(' after while" *)
Definition msgWhileLParen : string := "while 后缺少 '('".
(** "unbalanced parentheses in while condition" *)
Definition msgWhileUnbalanced : string := "while 条件中括号未闭合".
(** "missing '(' after if" *)
Definition msgIfLParen : string := "if 后缺少 '('".
(** "unbalanced parentheses in if condition" *)
Definition msgIfUnbalanced : string := "if 条件中括号未闭合".
(** "missing 'do' after while condition" *)
Definition msgMissingDo : string := "while 条件后缺少 'do'".
(** "missing 'then' after if condition" *)
Definition msgMissingThen : string := "if 条件后缺少 'then'".
(** "unmatched end" *)
Definition msgUnmatchedEnd : string := "多余的 'end'".
(** "<marker> 's end missing ';'": the marker is put in front. *)
Definition msgEndSemicolon : string := " 的 'end' 后缺少 ';'".
(** "'else' not matched to 'if'" *)
Definition msgElse : string := "'else' 未匹配到 'if'".
(** "unexpected token: <lexeme>" *)
Definition msgUnexpected : string := "意外的token: ".
(** "missing 'end' to match <top marker>" *)
Definition msgMissingEndFor : string := "缺少 'end' 来匹配 ".

(** ** The state of the parser *)

Record Analyzer : Type := mkAnalyzer {
  tokens : list Token;
  tokenPos : nat;
  symbolTable : gmap string string;
  errors : list string
}.

(** The object as [analyze] hands it to [parse]. *)
Definition initial (toks : list Token) : Analyzer :=
  mkAnalyzer toks 0 ∅ [].

(** [tokens[tokenPos]], defined when [tokenPos < tokens.size()]. *)
Definition current (a : Analyzer) : option Token := tokens a !! tokenPos a.

(** [tokenPos++] *)
Definition advance (a : Analyzer) : Analyzer :=
  mkAnalyzer (tokens a) (S (tokenPos a)) (symbolTable a) (errors a).

(** [errors.push_back(msg)] *)
Definition push_error (msg : string) (a : Analyzer) : Analyzer :=
  mkAnalyzer (tokens a) (tokenPos a) (symbolTable a) (errors a ++ [msg]).

(** [symbolTable[var] = varType] *)
Definition define (var varType : string) (a : Analyzer) : Analyzer :=
  mkAnalyzer (tokens a) (tokenPos a) (<[var := varType]> (symbolTable a))
             (errors a).

(** [symbolTable.count(var)] *)
Definition defined (a : Analyzer) (var : string) : bool :=
  bool_decide (is_Some (symbolTable a !! var)).

(** [errors.empty()] *)
Definition noErrors (a : Analyzer) : bool :=
  match errors a with [] => true | _ :: _ => false end.

(** [tokenPos < tokens.size() && tokens[tokenPos].type == ty] *)
Definition typeIs (a : Analyzer) (ty : TokenType) : bool :=
  match current a with
  | Some t => bool_decide (type t = ty)
  | None => false
  end.

(** [tokenPos >= tokens.size() || tokens[tokenPos].type != ty] *)
Definition typeIsNot (a : Analyzer) (ty : TokenType) : bool :=
  negb (typeIs a ty).

(** How a loop body ends: it falls through to the next iteration with
    the data it carries, or the enclosing function returns. *)
Inductive Flow (A : Type) : Type :=
  | Continue (x : A)
  | Return (a : Analyzer).
Arguments Continue {A} x.
Arguments Return {A} a.

(** ** Declaration validator *)

(** The comma loop of [parseDefinitionBody] (source lines 247-260),
    collecting the names of one group in [vars]. *)
Fixpoint commaLoop (fuel : nat) (a : Analyzer) (vars : list string)
  : option (Flow (Analyzer * list string)) :=
  match fuel with
  | O => None
  | S fuel' =>
      if typeIs a DELIMITER_COMMA then
        let a := advance a in
        match current a with
        | None => Some (Return (push_error msgIdentifierAfterComma a))
        | Some t =>
            if negb (bool_decide (type t = IDENTIFIER)) then
              Some (Return (push_error msgIdentifierAfterComma a))
            else if bool_decide (type t = ERROR) then
              Some (Return
                      (advance (push_error (msgInvalidIdentifier ++ value t) a)))
            else commaLoop fuel' (advance a) (vars ++ [value t])
        end
      else Some (Continue (a, vars))
  end.

(** The loop that enters the collected names in the symbol table
    (source lines 283-289). *)
Fixpoint declareVars (vars : list string) (varType : string) (a : Analyzer)
  : Flow Analyzer :=
  match vars with
  | [] => Continue a
  | var :: vars' =>
      if defined a var then Return (push_error (msgRepeated ++ var) a)
      else declareVars vars' varType (define var varType a)
  end.

(** The body of the loop of [parseDefinitionBody], entered with the
    current token [t]. *)
Definition definitionStep (fuel : nat) (t : Token) (a : Analyzer)
  : option (Flow Analyzer) :=
  if bool_decide (type t = ERROR) then
    Some (Return (advance (push_error (msgInvalidKeyword ++ value t) a)))
  else if negb (bool_decide (type t = IDENTIFIER)) then
    Some (Return (advance (push_error (msgExpectedIdentifier ++ value t) a)))
  else
    let varName := value t in
    let a := advance a in
    match commaLoop fuel a [varName] with
    | None => None
    | Some (Return a) => Some (Return a)
    | Some (Continue (a, vars)) =>
        if typeIs a IDENTIFIER then
          Some (Return (push_error msgMissingComma a))
        else if typeIsNot a DELIMITER_COLON then
          Some (Return (push_error msgMissingColon a))
        else
          let a := advance a in
          match current a with
          | None => Some (Return (push_error (msgExpectedType ++ msgNone) a))
          | Some ty =>
              if negb (count types (toLower (value ty))) then
                Some (Return (push_error (msgExpectedType ++ value ty) a))
              else
                let varType := toLower (value ty) in
                let a := advance a in
                match declareVars vars varType a with
                | Return a => Some (Return a)
                | Continue a =>
                    if typeIsNot a DELIMITER_SEMICOLON then
                      Some (Return (push_error msgDeclSemicolon a))
                    else Some (Continue (advance a))
                end
          end
    end.

(** [while (tokenPos < tokens.size() &&
           tokens[tokenPos].type != KEYWORD_BEGIN)] *)
Fixpoint parseDefinitionBody (fuel : nat) (a : Analyzer) : option Analyzer :=
  match fuel with
  | O => None
  | S fuel' =>
      match current a with
      | None => Some a
      | Some t =>
          if bool_decide (type t = KEYWORD_BEGIN) then Some a
          else
            match definitionStep fuel' t a with
            | None => None
            | Some (Return a) => Some a
            | Some (Continue a) => parseDefinitionBody fuel' a
            end
      end
  end.

(** ** Structural validator *)

(** The condition loop (source lines 355-359 and 384-388):
    [while (tokenPos < tokens.size() && parenCount > 0)].  [parenCount]
    is an [int]; it stays far from the bounds of [int], as it moves by
    one per token. *)
Fixpoint scanCondition (fuel : nat) (a : Analyzer) (parenCount : Z)
  : option (Analyzer * Z) :=
  match fuel with
  | O => None
  | S fuel' =>
      match current a with
      | None => Some (a, parenCount)
      | Some t =>
          if (0 <? parenCount)%Z then
            let parenCount :=
              if bool_decide (type t = DELIMITER_LPAREN) then
                (parenCount + 1)%Z
              else if bool_decide (type t = DELIMITER_RPAREN) then
                (parenCount - 1)%Z
              else parenCount in
            scanCondition fuel' (advance a) parenCount
          else Some (a, parenCount)
      end
  end.

(** The assignment statement (source lines 311-341); [t] is the
    identifier under [tokenPos]. *)
Definition assignment (t : Token) (a : Analyzer) : Flow Analyzer :=
  let varName := value t in
  if negb (defined a varName) then
    Return (push_error (msgUndefined ++ varName) a)
  else
    let a := advance a in
    if typeIsNot a OPERATOR_ASSIGN then
      Return (push_error (msgMissingAssign ++ varName) a)
    else
      let a := advance a in
      match current a with
      | None => Return (push_error (msgExpectedValue ++ msgNone) a)
      | Some v =>
          if negb (bool_decide (type v = NUMBER))
             && negb (bool_decide (type v = IDENTIFIER)) then
            Return (push_error (msgExpectedValue ++ value v) a)
          else if bool_decide (type v = IDENTIFIER)
                  && negb (defined a (value v)) then
            Return (push_error (msgUndefinedInAssign ++ value v) a)
          else
            let a := advance a in
            if typeIsNot a DELIMITER_SEMICOLON then
              Return (push_error msgAssignSemicolon a)
            else Continue (advance a)
      end.

(** The [while] and [if] statements (source lines 343-370 and 372-399),
    which differ in the marker pushed, the keyword required after the
    condition and the messages.  The marker has been pushed by the
    caller. *)
Definition condition (fuel : nat) (closing : TokenType)
    (msgLParen msgUnbal msgClosing : string) (a : Analyzer)
  : option (Flow Analyzer) :=
  let a := advance a in
  if typeIsNot a DELIMITER_LPAREN then
    Some (Return (push_error msgLParen a))
  else
    let a := advance a in
    match scanCondition fuel a 1 with
    | None => None
    | Some (a, parenCount) =>
        if (0 <? parenCount)%Z then Some (Return (push_error msgUnbal a))
        else if typeIsNot a closing then
          Some (Return (push_error msgClosing a))
        else Some (Continue (advance a))
    end.

(** The [end] branch (source lines 406-423).  The top of [blockStack],
    [blockStack.back()], is the head of the list. *)
Definition closeBlock (a : Analyzer) (blockStack : list string)
  : Flow (Analyzer * list string) :=
  match blockStack with
  | [] => Return (push_error msgUnmatchedEnd a)
  | lastBlock :: blockStack =>
      let a := advance a in
      if negb (bool_decide (blockStack = []))
         && typeIsNot a DELIMITER_SEMICOLON then
        Return (push_error (lastBlock ++ msgEndSemicolon) a)
      else if typeIs a DELIMITER_SEMICOLON then
        Continue (advance a, blockStack)
      else Continue (a, blockStack)
  end.

(** [blockStack.empty() || blockStack.back() != "if"] *)
Definition topIsNotIf (blockStack : list string) : bool :=
  match blockStack with
  | [] => true
  | top :: _ => negb (String.eqb top "if")
  end.

(** Lifting of a statement that leaves [blockStack] alone. *)
Definition withStack {A B : Type} (blockStack : B) (r : Flow A)
  : Flow (A * B) :=
  match r with
  | Continue a => Continue (a, blockStack)
  | Return a => Return a
  end.

(** The body of the loop of [parseRealizationBody], entered with the
    current token [t]: the chain of [if]/[else if] on [t.type]. *)
Definition realizationStep (fuel : nat) (t : Token) (a : Analyzer)
    (blockStack : list string)
  : option (Flow (Analyzer * list string)) :=
  if bool_decide (type t = ERROR) then
    Some (Return (advance (push_error (msgInvalidToken ++ value t) a)))
  else if bool_decide (type t = IDENTIFIER) then
    Some (withStack blockStack (assignment t a))
  else if bool_decide (type t = KEYWORD_WHILE) then
    let blockStack := "while" :: blockStack in
    withStack blockStack <$>
      condition fuel KEYWORD_DO msgWhileLParen msgWhileUnbalanced
                msgMissingDo a
  else if bool_decide (type t = KEYWORD_IF) then
    let blockStack := "if" :: blockStack in
    withStack blockStack <$>
      condition fuel KEYWORD_THEN msgIfLParen msgIfUnbalanced
                msgMissingThen a
  else if bool_decide (type t = KEYWORD_BEGIN) then
    Some (Continue (advance a, "begin" :: blockStack))
  else if bool_decide (type t = KEYWORD_END) then
    Some (closeBlock a blockStack)
  else if bool_decide (type t = KEYWORD_ELSE) then
    if topIsNotIf blockStack then Some (Return (push_error msgElse a))
    else Some (Continue (advance a, blockStack))
  else
    Some (Return (advance (push_error (msgUnexpected ++ value t) a))).

(** The check that follows the loop (source lines 440-443). *)
Definition checkClosed (a : Analyzer) (blockStack : list string) : Analyzer :=
  match blockStack with
  | [] => a
  | top :: _ => push_error (msgMissingEndFor ++ top) a
  end.

(** [while (tokenPos < tokens.size() &&
           tokens[tokenPos].type != KEYWORD_END)] *)
Fixpoint realizationLoop (fuel : nat) (a : Analyzer)
    (blockStack : list string) : option Analyzer :=
  match fuel with
  | O => None
  | S fuel' =>
      match current a with
      | None => Some (checkClosed a blockStack)
      | Some t =>
          if bool_decide (type t = KEYWORD_END) then
            Some (checkClosed a blockStack)
          else
            match realizationStep fuel' t a blockStack with
            | None => None
            | Some (Return a) => Some a
            | Some (Continue (a, blockStack)) =>
                realizationLoop fuel' a blockStack
            end
      end
  end.

Definition parseRealizationBody (fuel : nat) (a : Analyzer)
  : option Analyzer :=
  realizationLoop fuel a [].

(** ** Driver *)

Definition parse (fuel : nat) (a : Analyzer) : option Analyzer :=
  if typeIsNot a KEYWORD_VAR then Some (push_error msgNoVar a)
  else
    let a := advance a in
    match parseDefinitionBody fuel a with
    | None => None
    | Some a =>
        if noErrors a && typeIsNot a KEYWORD_BEGIN then
          Some (push_error msgNoBegin a)
        else if negb (noErrors a) then Some a
        else
          let a := advance a in
          match parseRealizationBody fuel a with
          | None => None
          | Some a =>
              if noErrors a && typeIsNot a KEYWORD_END then
                Some (push_error msgNoEnd a)
              else Some a
          end
    end.

(** The parser part of [analyze], on the tokens of the source; every
    loop gets one unit of fuel per token and one more. *)
Definition analyzeTokens (toks : list Token) : option Analyzer :=
  match toks with
  | [] => Some (push_error msgEmpty (initial toks))
  | _ :: _ => parse (S (length toks)) (initial toks)
  end.

(** [analyze], up to [reportErrors], which prints [errors]. *)
Definition analyze (source : string) : option Analyzer :=
  match tokenize source with
  | None => None
  | Some toks => analyzeTokens toks
  end.

(** The report: the run succeeds when no diagnostic was recorded. *)
Definition report (source : string) : option (list string) :=
  errors <$> analyze source.

(** * Vocabulary of the statements

    The definitions below are not part of the program: they are the
    predicates, measures and sample token lists in which the properties
    of the next part are stated. *)

Local Open Scope nat_scope.
Local Open Scope list_scope.

(** A piece of code entered with [a] went on to [a'] without a
    diagnostic, having consumed at least [k] tokens. *)
Definition moved (k : nat) (a a' : Analyzer) : Prop :=
  tokens a' = tokens a ∧ tokenPos a + k ≤ tokenPos a' ∧ errors a' = errors a.

(** A piece of code entered with [a] returned at a violation as [a'],
    with exactly one more diagnostic. *)
Definition failed (a a' : Analyzer) : Prop :=
  tokens a' = tokens a ∧ tokenPos a ≤ tokenPos a' ∧
  ∃ msg : string, errors a' = errors a ++ [msg].

(** What [moved] and [failed] say of the two ways a loop body ends. *)
Definition flowInv {A : Type} (proj : A → Analyzer) (k : nat)
    (a : Analyzer) (r : Flow A) : Prop :=
  match r with
  | Continue x => moved k a (proj x)
  | Return a' => failed a a'
  end.

(** The tokens still to be read. *)
Definition remaining (a : Analyzer) : nat := length (tokens a) - tokenPos a.

(** The source consists of whitespace only. *)
Fixpoint allSpace (s : string) : bool :=
  match s with
  | EmptyString => true
  | String c rest => isspace c && allSpace rest
  end.

(** A loop body ends with the symbol table it was entered with. *)
Definition tableKept {A : Type} (proj : A → Analyzer) (a : Analyzer)
    (r : Flow A) : Prop :=
  match r with
  | Continue x => symbolTable (proj x) = symbolTable a
  | Return a' => symbolTable a' = symbolTable a
  end.

(** The tokens of ["Var i,j:integer;Begin i:=0;j:=1;End"], used below. *)
Definition tokensA : list Token :=
  [mkToken KEYWORD_VAR "Var"; mkToken IDENTIFIER "i";
   mkToken DELIMITER_COMMA ","; mkToken IDENTIFIER "j";
   mkToken DELIMITER_COLON ":"; mkToken KEYWORD_INTEGER "integer";
   mkToken DELIMITER_SEMICOLON ";"; mkToken KEYWORD_BEGIN "Begin";
   mkToken IDENTIFIER "i"; mkToken OPERATOR_ASSIGN ":=";
   mkToken NUMBER "0"; mkToken DELIMITER_SEMICOLON ";";
   mkToken IDENTIFIER "j"; mkToken OPERATOR_ASSIGN ":=";
   mkToken NUMBER "1"; mkToken DELIMITER_SEMICOLON ";";
   mkToken KEYWORD_END "End"].

(** The state in which the driver enters the structural validator on
    [tokensA]. *)
Definition bodyA : Analyzer :=
  mkAnalyzer tokensA 8 (<["j" := "integer"]> (<["i" := "integer"]> ∅)) [].

(** The tokens from [tokenPos] on. *)
Definition upcoming (a : Analyzer) : list Token :=
  drop (tokenPos a) (tokens a).

(** The state [a] moved [n] tokens forward. *)
Definition jump (n : nat) (a : Analyzer) : Analyzer :=
  mkAnalyzer (tokens a) (tokenPos a + n) (symbolTable a) (errors a).

(** The symbol table once the names [vars] have all been entered. *)
Definition defineAll (vars : list string) (varType : string) (a : Analyzer)
  : Analyzer :=
  foldl (λ a var, define var varType a) a vars.

(** The tokens [, x1 , x2 ...] that continue a list of names. *)
Fixpoint commaIdents (names : list string) : list Token :=
  match names with
  | [] => []
  | x :: names' =>
      mkToken DELIMITER_COMMA "," :: mkToken IDENTIFIER x :: commaIdents names'
  end.

(** The tokens of ["Var a,b,a,c:integer;"]: the third name repeats the
    first one of the same group. *)
Definition tokensRepeat : list Token :=
  [mkToken KEYWORD_VAR "Var"; mkToken IDENTIFIER "a";
   mkToken DELIMITER_COMMA ","; mkToken IDENTIFIER "b";
   mkToken DELIMITER_COMMA ","; mkToken IDENTIFIER "a";
   mkToken DELIMITER_COMMA ","; mkToken IDENTIFIER "c";
   mkToken DELIMITER_COLON ":"; mkToken KEYWORD_INTEGER "integer";
   mkToken DELIMITER_SEMICOLON ";"].

(** The nesting depth after the tokens [cond], entered at depth [d];
    [None] when a [)] closes more than was opened. *)
Fixpoint nesting (d : nat) (cond : list Token) : option nat :=
  match cond with
  | [] => Some d
  | t :: cond' =>
      if bool_decide (type t = DELIMITER_LPAREN) then nesting (S d) cond'
      else if bool_decide (type t = DELIMITER_RPAREN) then
        match d with
        | O => None
        | S d' => nesting d' cond'
        end
      else nesting d cond'
  end.

(** A run of tokens with balanced parentheses. *)
Definition balanced (cond : list Token) : Prop := nesting 0 cond = Some 0.

(** The two statements with a condition: keyword, marker pushed,
    keyword required after the condition, and the three messages. *)
Inductive conditional :
  TokenType → string → TokenType → string → string → string → Prop :=
  | conditional_while :
      conditional KEYWORD_WHILE "while" KEYWORD_DO
                  msgWhileLParen msgWhileUnbalanced msgMissingDo
  | conditional_if :
      conditional KEYWORD_IF "if" KEYWORD_THEN
                  msgIfLParen msgIfUnbalanced msgMissingThen.

(** The first of the tokens [l] has type [ty]. *)
Definition startsWith (ty : TokenType) (l : list Token) : bool :=
  match l with
  | t :: _ => bool_decide (type t = ty)
  | [] => false
  end.

(** The tokens of ["while ( i < ( j ) # ) do i := 0 ; end"]; the
    condition holds a nested pair of parentheses and an [ERROR] token. *)
Definition tokensWhile : list Token :=
  [mkToken KEYWORD_WHILE "while"; mkToken DELIMITER_LPAREN "(";
   mkToken IDENTIFIER "i"; mkToken OPERATOR_LT "<";
   mkToken DELIMITER_LPAREN "("; mkToken IDENTIFIER "j";
   mkToken DELIMITER_RPAREN ")"; mkToken ERROR "#";
   mkToken DELIMITER_RPAREN ")"; mkToken KEYWORD_DO "do";
   mkToken IDENTIFIER "i"; mkToken OPERATOR_ASSIGN ":=";
   mkToken NUMBER "0"; mkToken DELIMITER_SEMICOLON ";";
   mkToken KEYWORD_END "end"].

(** The state [a] over another token list [l]. *)
Definition retok (l : list Token) (a : Analyzer) : Analyzer :=
  mkAnalyzer l (tokenPos a) (symbolTable a) (errors a).

(** Two token lists with the same first [n] tokens. *)
Definition agree (n : nat) (l1 l2 : list Token) : Prop :=
  ∀ i, i < n → l2 !! i = l1 !! i.

(** A change of state carried to the two ways a loop body ends. *)
Definition mapFlow {A : Type} (f : A → A) (g : Analyzer → Analyzer)
    (r : Flow A) : Flow A :=
  match r with
  | Continue x => Continue (f x)
  | Return a => Return (g a)
  end.

(** The position at which a loop body ends. *)
Definition flowPos {A : Type} (proj : A → Analyzer) (r : Flow A) : nat :=
  match r with
  | Continue x => tokenPos (proj x)
  | Return a => tokenPos a
  end.

(** The tokens of ["Var i:integer;Begin End ; i"] and what the run on
    them leaves. *)
Definition tokensTrail : list Token :=
  [mkToken KEYWORD_VAR "Var"; mkToken IDENTIFIER "i";
   mkToken DELIMITER_COLON ":"; mkToken KEYWORD_INTEGER "integer";
   mkToken DELIMITER_SEMICOLON ";"; mkToken KEYWORD_BEGIN "Begin";
   mkToken KEYWORD_END "End"; mkToken DELIMITER_SEMICOLON ";";
   mkToken IDENTIFIER "i"].

(** The source text without its whitespace. *)
Fixpoint stripSpace (s : string) : string :=
  match s with
  | EmptyString => EmptyString
  | String c rest =>
      if isspace c then stripSpace rest else String c (stripSpace rest)
  end.

(** The text holds no whitespace. *)
Fixpoint noSpace (s : string) : bool :=
  match s with
  | EmptyString => true
  | String c rest => negb (isspace c) && noSpace rest
  end.

(** The lexemes of the tokens, one after the other. *)
Fixpoint lexemes (toks : list Token) : string :=
  match toks with
  | [] => EmptyString
  | t :: toks' => (value t ++ lexemes toks')%string
  end.

(** [for (char c : s) isdigit(c)] holds throughout. *)
Fixpoint allDigits (s : string) : bool :=
  match s with
  | EmptyString => true
  | String c rest => isdigit c && allDigits rest
  end.

(** The lexeme that goes with a token type, in lower case, for the
    types that have one: the keywords, operators and delimiters. *)
Definition fixedLexeme (ty : TokenType) : option string :=
  match ty with
  | KEYWORD_VAR => Some "var"
  | KEYWORD_INTEGER => Some "integer"
  | KEYWORD_LONGINT => Some "longint"
  | KEYWORD_BOOL => Some "bool"
  | KEYWORD_IF => Some "if"
  | KEYWORD_THEN => Some "then"
  | KEYWORD_ELSE => Some "else"
  | KEYWORD_WHILE => Some "while"
  | KEYWORD_DO => Some "do"
  | KEYWORD_FOR => Some "for"
  | KEYWORD_BEGIN => Some "begin"
  | KEYWORD_END => Some "end"
  | KEYWORD_AND => Some "and"
  | KEYWORD_OR => Some "or"
  | OPERATOR_PLUS => Some "+"
  | OPERATOR_MINUS => Some "-"
  | OPERATOR_MULTIPLY => Some "*"
  | OPERATOR_DIVIDE => Some "/"
  | OPERATOR_ASSIGN => Some ":="
  | OPERATOR_LT => Some "<"
  | OPERATOR_GT => Some ">"
  | OPERATOR_NE => Some "<>"
  | OPERATOR_GE => Some ">="
  | OPERATOR_LE => Some "<="
  | OPERATOR_EQ => Some "=="
  | DELIMITER_SEMICOLON => Some ";"
  | DELIMITER_COLON => Some ":"
  | DELIMITER_LPAREN => Some "("
  | DELIMITER_RPAREN => Some ")"
  | DELIMITER_COMMA => Some ","
  | IDENTIFIER | NUMBER | ERROR => None
  end.

(** The type of a token fits its lexeme: an identifier starts with a
    letter, is alphanumeric and is no keyword in any letter case; a
    number is a non-empty run of digits; a keyword, operator or
    delimiter has, in lower case, the lexeme of its type; an error
    token is no keyword and is not both letter-led and alphanumeric. *)
Definition wellFormedToken (t : Token) : bool :=
  match type t with
  | IDENTIFIER =>
      isalpha (firstChar (value t)) && allAlnum (value t)
      && negb (count keywords (toLower (value t)))
  | NUMBER => isdigit (firstChar (value t)) && allDigits (value t)
  | ERROR =>
      negb (isalpha (firstChar (value t)) && allAlnum (value t))
      && negb (count keywords (toLower (value t)))
  | ty => bool_decide (fixedLexeme ty = Some (toLower (value t)))
  end.

(** The three token types of the type names. *)
Definition isTypeKeyword (ty : TokenType) : bool :=
  bool_decide (ty ∈ [KEYWORD_INTEGER; KEYWORD_LONGINT; KEYWORD_BOOL]).

(** ** The accepted programs, as token lists *)

(** The table [m] with the names [vars] bound to [varType]. *)
Definition insertAll (vars : list string) (varType : string)
    (m : gmap string string) : gmap string string :=
  foldl (λ m var, <[var := varType]> m) m vars.

(** The state [a] with the symbol table [m]. *)
Definition setTable (m : gmap string string) (a : Analyzer) : Analyzer :=
  mkAnalyzer (tokens a) (tokenPos a) m (errors a).

(** [{ , identifier }]: the tokens that continue a list of names, and
    the names. *)
Inductive nameList : list Token → list string → Prop :=
  | nameList_nil : nameList [] []
  | nameList_cons (c t : Token) (l : list Token) (names : list string) :
      type c = DELIMITER_COMMA → type t = IDENTIFIER → nameList l names →
      nameList (c :: t :: l) (value t :: names).

(** [identifier { , identifier } : type ;] with its names and its type,
    where the type is a token whose lexeme in lower case is in [types]. *)
Inductive declGroup : list Token → list string → string → Prop :=
  | declGroup_intro (t0 colon ty semi : Token) (l : list Token)
      (names : list string) :
      type t0 = IDENTIFIER → nameList l names →
      type colon = DELIMITER_COLON →
      count types (toLower (value ty)) = true →
      type semi = DELIMITER_SEMICOLON →
      declGroup (t0 :: l ++ [colon; ty; semi]) (value t0 :: names)
                (toLower (value ty)).

(** A run of groups that takes the table [m] to [m']: the names of a
    group are distinct and not yet in the table. *)
Inductive declarations :
  gmap string string → list Token → gmap string string → Prop :=
  | declarations_nil (m : gmap string string) : declarations m [] m
  | declarations_cons (m m' : gmap string string) (g rest : list Token)
      (names : list string) (varType : string) :
      declGroup g names varType → NoDup names →
      (∀ x, x ∈ names → m !! x = None) →
      declarations (insertAll names varType m) rest m' →
      declarations m (g ++ rest) m'.

(** [identifier := value ;] over the table [m]: the identifier is in
    the table, the value is a number or an identifier in the table. *)
Inductive assignStmt (m : gmap string string) : list Token → Prop :=
  | assignStmt_intro (tx op v semi : Token) :
      type tx = IDENTIFIER → is_Some (m !! value tx) →
      type op = OPERATOR_ASSIGN →
      type v = NUMBER ∨ (type v = IDENTIFIER ∧ is_Some (m !! value v)) →
      type semi = DELIMITER_SEMICOLON →
      assignStmt m [tx; op; v; semi].

(** A run of assignment statements. *)
Inductive assignments (m : gmap string string) : list Token → Prop :=
  | assignments_nil : assignments m []
  | assignments_cons (s rest : list Token) :
      assignStmt m s → assignments m rest → assignments m (s ++ rest).

(** [var] declarations [begin] assignments [end], then any tokens. *)
Inductive program (m : gmap string string) : list Token → nat → Prop :=
  | program_intro (tv tb te : Token) (d b trailing : list Token) :
      type tv = KEYWORD_VAR → declarations ∅ d m →
      type tb = KEYWORD_BEGIN → assignments m b →
      type te = KEYWORD_END →
      program m (tv :: d ++ tb :: b ++ te :: trailing)
              (length d + length b + 2).

(** Sample pieces of a program: the group [i , j : Integer ;] and the
    statements [i := 0 ;] and [j := i ;]. *)
Definition sampleGroup : list Token :=
  [mkToken IDENTIFIER "i"; mkToken DELIMITER_COMMA ",";
   mkToken IDENTIFIER "j"; mkToken DELIMITER_COLON ":";
   mkToken KEYWORD_INTEGER "Integer"; mkToken DELIMITER_SEMICOLON ";"].

Definition sampleBody : list Token :=
  [mkToken IDENTIFIER "i"; mkToken OPERATOR_ASSIGN ":=";
   mkToken NUMBER "0"; mkToken DELIMITER_SEMICOLON ";";
   mkToken IDENTIFIER "j"; mkToken OPERATOR_ASSIGN ":=";
   mkToken IDENTIFIER "i"; mkToken DELIMITER_SEMICOLON ";"].

Definition sampleTable : gmap string string :=
  <["j" := "integer"]> (<["i" := "integer"]> ∅).

(** The table [m'] keeps every binding of [m], and binds whatever else
    it binds to one of the type names. *)
Definition onlyAdds (m m' : gmap string string) : Prop :=
  (∀ x v, m !! x = Some v → m' !! x = Some v)
  ∧ (∀ x v, m' !! x = Some v → m !! x = Some v ∨ count types v = true).

(** [onlyAdds] for the two ways a loop body ends. *)
Definition tableGrows {A : Type} (proj : A → Analyzer) (a : Analyzer)
    (r : Flow A) : Prop :=
  match r with
  | Continue x => onlyAdds (symbolTable a) (symbolTable (proj x))
  | Return a' => onlyAdds (symbolTable a) (symbolTable a')
  end.

(** [tokenPos] is at most [tokens.size()]. *)
Definition inRange (a : Analyzer) : Prop := tokenPos a ≤ length (tokens a).

(** [inRange] for the two ways a loop body ends. *)
Definition flowInRange {A : Type} (proj : A → Analyzer) (r : Flow A) : Prop :=
  match r with
  | Continue x => inRange (proj x)
  | Return a' => inRange a'
  end.

(** The token types of the two-character operators. *)
Definition isTwoCharOperator (ty : TokenType) : bool :=
  bool_decide (ty ∈ [OPERATOR_ASSIGN; OPERATOR_NE; OPERATOR_GE;
                     OPERATOR_LE; OPERATOR_EQ]).

(** * Properties *)

(** ** The test programs of [main] *)

Example tokenize_ex1 :
  tokenize "Var i:integer;Begin i=0;End" =
  Some [mkToken KEYWORD_VAR "Var"; mkToken IDENTIFIER "i";
        mkToken DELIMITER_COLON ":"; mkToken KEYWORD_INTEGER "integer";
        mkToken DELIMITER_SEMICOLON ";"; mkToken KEYWORD_BEGIN "Begin";
        mkToken IDENTIFIER "i"; mkToken ERROR "="; mkToken NUMBER "0";
        mkToken DELIMITER_SEMICOLON ";"; mkToken KEYWORD_END "End"].
Proof. vm_compute. reflexivity. Qed.

Example report_ex_a : report "Var i,j:integer;Begin i:=0;j:=1;End" = Some [].
Proof. vm_compute. reflexivity. Qed.

Example report_ex_e :
  report "Var i:integer;Begin j:=0;End" = Some [(msgUndefined ++ "j")%string].
Proof. vm_compute. reflexivity. Qed.

Example report_ex_f :
  report "Var i,J1:integer;Begin i:=0 J1:=50;End" = Some [msgAssignSemicolon].
Proof. vm_compute. reflexivity. Qed.

Example report_no_space : report "Vari:integer;" = Some [msgNoVar].
Proof. vm_compute. reflexivity. Qed.

Example report_no_comma : report "Var i j:integer;" = Some [msgMissingComma].
Proof. vm_compute. reflexivity. Qed.

Example report_bad_character :
  report "Var i#:integer;" = Some [(msgInvalidKeyword ++ "i#")%string].
Proof. vm_compute. reflexivity. Qed.

Example report_no_semicolon : report "Var i:integer" = Some [msgDeclSemicolon].
Proof. vm_compute. reflexivity. Qed.

Example report_repeated :
  report "Var i:integer;i:bool;" = Some [(msgRepeated ++ "i")%string].
Proof. vm_compute. reflexivity. Qed.


(** ** The tokenizer consumes its input *)

Section Tokenizer.

Lemma isalpha_not_delimiter (c : ascii) :
  isalpha c = true → isDelimiter c = false.
Proof.
  destruct c as [[] [] [] [] [] [] [] []]; vm_compute; congruence.
Qed.

Lemma scanWord_length (s : string) :
  String.length (scanWord s).2 ≤ String.length s.
Proof.
  induction s as [|c rest IH]; simpl; [lia|].
  destruct (negb (isspace c) && negb (isDelimiter c)); simpl; [|lia].
  destruct (scanWord rest) as [tokenStr s']; simpl in *; lia.
Qed.

Lemma scanDigits_length (s : string) :
  String.length (scanDigits s).2 ≤ String.length s.
Proof.
  induction s as [|c rest IH]; simpl; [lia|].
  destruct (isdigit c); simpl; [|lia].
  destruct (scanDigits rest) as [tokenStr s']; simpl in *; lia.
Qed.

Lemma readIdentifierOrKeyword_rest (s : string) :
  (readIdentifierOrKeyword s).2 = (scanWord s).2.
Proof.
  unfold readIdentifierOrKeyword.
  destruct (scanWord s) as [tokenStr s']; simpl.
  repeat match goal with |- context [if ?b then _ else _] => destruct b end;
    reflexivity.
Qed.

Lemma readNumber_rest (s : string) :
  (readNumber s).2 = (scanDigits s).2.
Proof.
  unfold readNumber. destruct (scanDigits s) as [tokenStr s']; reflexivity.
Qed.

Lemma skip1_length (rest : string) :
  String.length (skip1 rest) ≤ String.length rest.
Proof. destruct rest; simpl; lia. Qed.

Lemma readOperator_length (c : ascii) (rest : string) :
  String.length (readOperator c rest).2 ≤ String.length rest.
Proof.
  unfold readOperator.
  repeat match goal with |- context [if ?b then _ else _] => destruct b end;
    simpl; auto using skip1_length.
Qed.

(** Every iteration of the loop of [tokenize] moves [pos] forward. *)
Lemma tokenizeStep_length (c : ascii) (rest : string) :
  String.length (tokenizeStep c rest).2 ≤ String.length rest.
Proof.
  unfold tokenizeStep.
  destruct (isspace c) eqn:Hsp; [simpl; lia|].
  destruct (isalpha c) eqn:Hal.
  - pose proof (readIdentifierOrKeyword_rest (String c rest)) as Hr.
    destruct (readIdentifierOrKeyword (String c rest)) as [t s'].
    simpl in *. subst s'.
    rewrite Hsp, (isalpha_not_delimiter c Hal). simpl.
    pose proof (scanWord_length rest) as Hw.
    destruct (scanWord rest) as [tokenStr s']; simpl in *; lia.
  - destruct (isdigit c) eqn:Hdi.
    + pose proof (readNumber_rest (String c rest)) as Hr.
      destruct (readNumber (String c rest)) as [t s'].
      simpl in *. subst s'. rewrite Hdi.
      pose proof (scanDigits_length rest) as Hw.
      destruct (scanDigits rest) as [tokenStr s']; simpl in *; lia.
    + pose proof (readOperator_length c rest) as Hr.
      destruct (readOperator c rest) as [t s']; simpl in *; lia.
Qed.

(** One unit of fuel per character is enough. *)
Lemma tokenizeLoop_total (fuel : nat) :
  ∀ s, String.length s ≤ fuel → ∃ toks, tokenizeLoop fuel s = Some toks.
Proof.
  induction fuel as [|fuel IH]; intros [|c rest] Hlen; simpl in *;
    try (eexists; reflexivity); try lia.
  pose proof (tokenizeStep_length c rest) as Hs.
  destruct (tokenizeStep c rest) as [ot s']; simpl in *.
  destruct (IH s') as [toks ->]; [lia|]. eexists; reflexivity.
Qed.

(** More fuel does not change the tokens. *)
Lemma tokenizeLoop_fuel (fuel : nat) :
  ∀ s toks fuel', tokenizeLoop fuel s = Some toks → fuel ≤ fuel' →
    tokenizeLoop fuel' s = Some toks.
Proof.
  induction fuel as [|fuel IH]; intros [|c rest] toks fuel' Hrun Hle;
    simpl in *; try discriminate.
  - destruct fuel'; exact Hrun.
  - destruct fuel'; exact Hrun.
  - destruct fuel' as [|fuel']; [lia|]. simpl.
    destruct (tokenizeStep c rest) as [ot s'].
    destruct (tokenizeLoop fuel s') as [toks'|] eqn:Hrec; [|discriminate].
    rewrite (IH s' toks' fuel' Hrec); [exact Hrun|lia].
Qed.

(** No token is longer than the text it comes from: the loop pushes at
    most one token per character. *)
Lemma tokenizeLoop_count (fuel : nat) :
  ∀ s toks, tokenizeLoop fuel s = Some toks → length toks ≤ String.length s.
Proof.
  induction fuel as [|fuel IH]; intros [|c rest] toks Hrun; simpl in *;
    try discriminate; try (injection Hrun as <-; simpl; lia).
  pose proof (tokenizeStep_length c rest) as Hs.
  destruct (tokenizeStep c rest) as [ot s']; simpl in *.
  destruct (tokenizeLoop fuel s') as [toks'|] eqn:Hrec; [|discriminate].
  injection Hrun as <-. specialize (IH s' toks' Hrec).
  destruct ot; simpl; lia.
Qed.

End Tokenizer.

(** ** What a run of a phase does to the state

    Every piece of the parser either goes on without a diagnostic
    ([moved]) or returns with exactly one more ([failed]); [tokenPos]
    never decreases and [tokens] never changes. *)

Create HintDb flow.

Lemma moved_refl (a : Analyzer) : moved 0 a a.
Proof. unfold moved; auto with lia. Qed.

Lemma moved_advance (k : nat) (a a' : Analyzer) :
  moved k a a' → moved (S k) a (advance a').
Proof. unfold moved; simpl; intuition lia. Qed.

Lemma moved_weaken (k k' : nat) (a a' : Analyzer) :
  moved k a a' → k' ≤ k → moved k' a a'.
Proof. unfold moved; intuition lia. Qed.

Lemma moved_define (k : nat) (a a' : Analyzer) (var varType : string) :
  moved k a a' → moved k a (define var varType a').
Proof. unfold moved; simpl; intuition. Qed.

Lemma moved_trans (k k' : nat) (a a' a'' : Analyzer) :
  moved k a a' → moved k' a' a'' → moved (k + k') a a''.
Proof. unfold moved; intuition (try congruence); lia. Qed.

Lemma failed_push (k : nat) (a a' : Analyzer) (msg : string) :
  moved k a a' → failed a (push_error msg a').
Proof.
  unfold moved, failed; simpl. intros (-> & ? & ->).
  repeat split; [lia|]. by exists msg.
Qed.

Lemma failed_push_advance (k : nat) (a a' : Analyzer) (msg : string) :
  moved k a a' → failed a (advance (push_error msg a')).
Proof.
  unfold moved, failed; simpl. intros (-> & ? & ->).
  repeat split; [lia|]. by exists msg.
Qed.

Lemma failed_after (k : nat) (a a' a'' : Analyzer) :
  moved k a a' → failed a' a'' → failed a a''.
Proof.
  unfold moved, failed. intros (-> & ? & ->) (-> & ? & msg & ->).
  repeat split; [lia|]. by exists msg.
Qed.

Lemma current_lt (a : Analyzer) (t : Token) :
  current a = Some t → tokenPos a < length (tokens a).
Proof. unfold current. apply lookup_lt_Some. Qed.

Lemma typeIs_current (a : Analyzer) (ty : TokenType) :
  typeIs a ty = true → ∃ t, current a = Some t ∧ type t = ty.
Proof.
  unfold typeIs. destruct (current a) as [t|]; [|discriminate].
  intros H%bool_decide_eq_true. eauto.
Qed.

Lemma typeIsNot_false (a : Analyzer) (ty : TokenType) :
  typeIsNot a ty = false → ∃ t, current a = Some t ∧ type t = ty.
Proof.
  unfold typeIsNot. intros H%negb_false_iff. by apply typeIs_current.
Qed.

#[local] Hint Resolve moved_refl moved_advance moved_define failed_push
  failed_push_advance : flow.

Lemma commaLoop_inv (fuel : nat) :
  ∀ a vars r, commaLoop fuel a vars = Some r → flowInv fst 0 a r.
Proof.
  induction fuel as [|fuel IH]; intros a vars r Hrun; simpl in Hrun;
    [discriminate|].
  destruct (typeIs a DELIMITER_COMMA).
  - destruct (current (advance a)) as [t|].
    + destruct (negb (bool_decide (type t = IDENTIFIER))).
      { injection Hrun as <-. simpl. eauto with flow. }
      destruct (bool_decide (type t = ERROR)).
      { injection Hrun as <-. simpl. eauto with flow. }
      apply IH in Hrun.
      assert (Hm : moved 2 a (advance (advance a))) by eauto with flow.
      destruct r as [[a' vars']|a']; simpl in *.
      * eapply moved_weaken; [eapply moved_trans; eassumption|lia].
      * eapply failed_after; eassumption.
    + injection Hrun as <-. simpl. eauto with flow.
  - injection Hrun as <-. simpl. eauto with flow.
Qed.

Lemma declareVars_inv (vars : list string) (varType : string) (k : nat) :
  ∀ a0 a, moved k a0 a → flowInv id k a0 (declareVars vars varType a).
Proof.
  induction vars as [|var vars IH]; intros a0 a Hm; simpl; [exact Hm|].
  destruct (defined a var); simpl; eauto with flow.
Qed.

Lemma definitionStep_inv (fuel : nat) (t : Token) (a : Analyzer)
    (r : Flow Analyzer) :
  definitionStep fuel t a = Some r → flowInv id 1 a r.
Proof.
  unfold definitionStep. intros Hrun.
  destruct (bool_decide (type t = ERROR)).
  { injection Hrun as <-. simpl. eauto with flow. }
  destruct (negb (bool_decide (type t = IDENTIFIER))).
  { injection Hrun as <-. simpl. eauto with flow. }
  destruct (commaLoop fuel (advance a) [value t]) as [[[a1 vars]|a1]|] eqn:Hc;
    [| |discriminate]; apply commaLoop_inv in Hc; simpl in Hc.
  - assert (Hm : moved 1 a a1).
    { eapply (moved_trans 1 0); [|exact Hc]. eauto with flow. }
    destruct (typeIs a1 IDENTIFIER).
    { injection Hrun as <-. simpl. eauto with flow. }
    destruct (typeIsNot a1 DELIMITER_COLON).
    { injection Hrun as <-. simpl. eauto with flow. }
    destruct (current (advance a1)) as [ty|].
    + destruct (negb (count types (toLower (value ty)))).
      { injection Hrun as <-. simpl. eauto with flow. }
      assert (Hm3 : moved 3 a (advance (advance a1))) by eauto with flow.
      pose proof (declareVars_inv vars (toLower (value ty)) 3 _ _ Hm3) as Hd.
      destruct (declareVars vars (toLower (value ty)) (advance (advance a1)))
        as [a2|a2]; simpl in Hd.
      * destruct (typeIsNot a2 DELIMITER_SEMICOLON);
          injection Hrun as <-; simpl; eauto with flow.
        eapply moved_weaken; [eapply moved_advance; eassumption|lia].
      * injection Hrun as <-. exact Hd.
    + injection Hrun as <-. simpl. eauto with flow.
  - injection Hrun as <-. simpl.
    eapply (failed_after 1); [|exact Hc]. eauto with flow.
Qed.

(** The declaration validator records at most one diagnostic, and
    never moves [tokenPos] backwards. *)
Lemma parseDefinitionBody_inv (fuel : nat) :
  ∀ a a', parseDefinitionBody fuel a = Some a' → moved 0 a a' ∨ failed a a'.
Proof.
  induction fuel as [|fuel IH]; intros a a' Hrun; simpl in Hrun;
    [discriminate|].
  destruct (current a) as [t|]; [|injection Hrun as <-; eauto with flow].
  destruct (bool_decide (type t = KEYWORD_BEGIN));
    [injection Hrun as <-; eauto with flow|].
  destruct (definitionStep fuel t a) as [[a1|a1]|] eqn:Hs; [| |discriminate];
    apply definitionStep_inv in Hs; simpl in Hs.
  - destruct (IH _ _ Hrun) as [Hm|Hf].
    + left. eapply moved_weaken; [eapply moved_trans; eassumption|lia].
    + right. eapply failed_after; eassumption.
  - injection Hrun as <-. by right.
Qed.

Lemma scanCondition_inv (fuel : nat) :
  ∀ a parenCount a' parenCount',
    scanCondition fuel a parenCount = Some (a', parenCount') →
    moved 0 a a' ∧ symbolTable a' = symbolTable a.
Proof.
  induction fuel as [|fuel IH]; intros a pc a' pc' Hrun; simpl in Hrun;
    [discriminate|].
  destruct (current a) as [t|];
    [|injection Hrun as <- <-; eauto with flow].
  destruct (0 <? pc)%Z; [|injection Hrun as <- <-; eauto with flow].
  apply IH in Hrun as [Hm Hs]. split; [|exact Hs].
  eapply moved_weaken;
    [eapply (moved_trans 1 0); [|exact Hm]; eauto with flow|lia].
Qed.

Lemma assignment_inv (t : Token) (a : Analyzer) :
  flowInv id 1 a (assignment t a).
Proof.
  unfold assignment.
  repeat case_match; simpl; eauto 6 with flow.
  eapply moved_weaken; [eauto 6 with flow|lia].
Qed.

Lemma condition_inv (fuel : nat) (closing : TokenType)
    (m1 m2 m3 : string) (a : Analyzer) (r : Flow Analyzer) :
  condition fuel closing m1 m2 m3 a = Some r → flowInv id 1 a r.
Proof.
  unfold condition. intros Hrun.
  destruct (typeIsNot (advance a) DELIMITER_LPAREN).
  { injection Hrun as <-. simpl. eauto with flow. }
  destruct (scanCondition fuel (advance (advance a)) 1) as [[a1 pc]|] eqn:Hs;
    [|discriminate].
  apply scanCondition_inv in Hs as [Hs _].
  assert (Hm : moved 2 a a1).
  { eapply (moved_trans 2 0); [|exact Hs]. eauto with flow. }
  repeat case_match; injection Hrun as <-; simpl; eauto with flow.
  eapply moved_weaken; [eauto with flow|lia].
Qed.

Lemma closeBlock_inv (a : Analyzer) (blockStack : list string) :
  flowInv fst 1 a (closeBlock a blockStack).
Proof.
  unfold closeBlock.
  repeat case_match; simpl; eauto with flow.
  eapply moved_weaken; [eauto with flow|lia].
Qed.

Lemma withStack_inv {B : Type} (k : nat) (a : Analyzer) (blockStack : B)
    (r : Flow Analyzer) :
  flowInv id k a r → flowInv fst k a (withStack blockStack r).
Proof. destruct r; simpl; auto. Qed.

Lemma realizationStep_inv (fuel : nat) (t : Token) (a : Analyzer)
    (blockStack : list string) (r : Flow (Analyzer * list string)) :
  realizationStep fuel t a blockStack = Some r → flowInv fst 1 a r.
Proof.
  unfold realizationStep. intros Hrun.
  repeat case_match; simplify_eq; simpl; eauto with flow;
    try (apply withStack_inv, assignment_inv);
    try apply closeBlock_inv.
  all: match goal with
       | H : _ <$> condition _ _ _ _ _ _ = Some _ |- _ =>
           apply fmap_Some in H as (r0 & H%condition_inv & ->);
           by apply withStack_inv
       end.
Qed.

Lemma checkClosed_inv (a : Analyzer) (blockStack : list string) :
  moved 0 a (checkClosed a blockStack) ∨ failed a (checkClosed a blockStack).
Proof. destruct blockStack; simpl; eauto with flow. Qed.

(** The structural validator records at most one diagnostic, and never
    moves [tokenPos] backwards. *)
Lemma realizationLoop_inv (fuel : nat) :
  ∀ a blockStack a', realizationLoop fuel a blockStack = Some a' →
    moved 0 a a' ∨ failed a a'.
Proof.
  induction fuel as [|fuel IH]; intros a blockStack a' Hrun; simpl in Hrun;
    [discriminate|].
  destruct (current a) as [t|];
    [|injection Hrun as <-; apply checkClosed_inv].
  destruct (bool_decide (type t = KEYWORD_END));
    [injection Hrun as <-; apply checkClosed_inv|].
  destruct (realizationStep fuel t a blockStack) as [[[a1 st1]|a1]|] eqn:Hs;
    [| |discriminate]; apply realizationStep_inv in Hs; simpl in Hs.
  - destruct (IH _ _ _ Hrun) as [Hm|Hf].
    + left. eapply moved_weaken; [eapply moved_trans; eassumption|lia].
    + right. eapply failed_after; eassumption.
  - injection Hrun as <-. by right.
Qed.

(** ** The loops of the parser terminate

    Each loop is entered with more fuel than there are tokens left, and
    every iteration that goes on consumes a token. *)

Lemma remaining_advance (a : Analyzer) (t : Token) :
  current a = Some t → S (remaining (advance a)) = remaining a.
Proof. intros H%current_lt. unfold remaining; simpl. lia. Qed.

Lemma remaining_moved (k : nat) (a a' : Analyzer) :
  moved k a a' → remaining a' ≤ remaining a - k.
Proof. unfold moved, remaining. intros (-> & ? & _). lia. Qed.

Lemma commaLoop_total (fuel : nat) :
  ∀ a vars, remaining a < fuel → ∃ r, commaLoop fuel a vars = Some r.
Proof.
  induction fuel as [|fuel IH]; intros a vars Hfuel; [lia|]. simpl.
  destruct (typeIs a DELIMITER_COMMA) eqn:Hc; [|eauto].
  apply typeIs_current in Hc as (t0 & Ht0%remaining_advance & _).
  destruct (current (advance a)) as [t|] eqn:Ht; [|eauto].
  apply remaining_advance in Ht.
  repeat case_match; eauto. apply IH. lia.
Qed.

Lemma scanCondition_total (fuel : nat) :
  ∀ a parenCount, remaining a < fuel →
    ∃ r, scanCondition fuel a parenCount = Some r.
Proof.
  induction fuel as [|fuel IH]; intros a pc Hfuel; [lia|]. simpl.
  destruct (current a) as [t|] eqn:Ht; [|eauto].
  apply remaining_advance in Ht.
  destruct (0 <? pc)%Z; [|eauto]. apply IH. lia.
Qed.

Lemma definitionStep_total (fuel : nat) (t : Token) (a : Analyzer) :
  current a = Some t → remaining a ≤ fuel →
  ∃ r, definitionStep fuel t a = Some r.
Proof.
  intros Ht%remaining_advance Hfuel. unfold definitionStep.
  destruct (commaLoop_total fuel (advance a) [value t]) as [r ->]; [lia|].
  repeat case_match; eauto.
Qed.

Lemma parseDefinitionBody_total (fuel : nat) :
  ∀ a, remaining a < fuel → ∃ a', parseDefinitionBody fuel a = Some a'.
Proof.
  induction fuel as [|fuel IH]; intros a Hfuel; [lia|]. simpl.
  destruct (current a) as [t|] eqn:Ht; [|eauto].
  destruct (bool_decide (type t = KEYWORD_BEGIN)); [eauto|].
  destruct (definitionStep_total fuel t a Ht) as [r Hr]; [lia|].
  rewrite Hr. destruct r as [a1|a1]; [|eauto].
  apply definitionStep_inv, remaining_moved in Hr. simpl in Hr.
  apply remaining_advance in Ht. apply IH. lia.
Qed.

Lemma condition_total (fuel : nat) (closing : TokenType)
    (m1 m2 m3 : string) (t : Token) (a : Analyzer) :
  current a = Some t → remaining a ≤ fuel →
  ∃ r, condition fuel closing m1 m2 m3 a = Some r.
Proof.
  intros Ht%remaining_advance Hfuel. unfold condition.
  destruct (scanCondition_total fuel (advance (advance a)) 1) as [[a1 pc] ->].
  { unfold remaining in *; simpl in *; lia. }
  repeat case_match; eauto.
Qed.

Lemma realizationStep_total (fuel : nat) (t : Token) (a : Analyzer)
    (blockStack : list string) :
  current a = Some t → remaining a ≤ fuel →
  ∃ r, realizationStep fuel t a blockStack = Some r.
Proof.
  intros Ht Hfuel. unfold realizationStep.
  repeat case_match; eauto.
  all: match goal with
       | |- context [condition ?f ?c ?m1 ?m2 ?m3 ?a0] =>
           destruct (condition_total f c m1 m2 m3 t a0 Ht Hfuel) as [r ->];
           simpl; eauto
       end.
Qed.

Lemma realizationLoop_total (fuel : nat) :
  ∀ a blockStack, remaining a < fuel →
    ∃ a', realizationLoop fuel a blockStack = Some a'.
Proof.
  induction fuel as [|fuel IH]; intros a blockStack Hfuel; [lia|]. simpl.
  destruct (current a) as [t|] eqn:Ht; [|eauto].
  destruct (bool_decide (type t = KEYWORD_END)); [eauto|].
  destruct (realizationStep_total fuel t a blockStack Ht) as [r Hr]; [lia|].
  rewrite Hr. destruct r as [[a1 st1]|a1]; [|eauto].
  apply realizationStep_inv, remaining_moved in Hr. simpl in Hr.
  apply remaining_advance in Ht. apply IH. lia.
Qed.

Lemma parse_total (fuel : nat) (a : Analyzer) :
  remaining a < fuel → ∃ a', parse fuel a = Some a'.
Proof.
  intros Hfuel. unfold parse, parseRealizationBody.
  destruct (typeIsNot a KEYWORD_VAR); [eauto|].
  destruct (parseDefinitionBody_total fuel (advance a)) as [a1 Ha1].
  { unfold remaining in *; simpl; lia. }
  rewrite Ha1.
  assert (remaining a1 ≤ remaining a) as Hle.
  { apply parseDefinitionBody_inv in Ha1 as [Hm|(Htok & Hpos & _)].
    - apply remaining_moved in Hm. unfold remaining in *; simpl in *; lia.
    - unfold remaining in *. rewrite Htok. simpl in *. lia. }
  destruct (noErrors a1 && typeIsNot a1 KEYWORD_BEGIN); [eauto|].
  destruct (negb (noErrors a1)); [eauto|].
  destruct (realizationLoop_total fuel (advance a1) []) as [a2 ->].
  { unfold remaining in *; simpl; lia. }
  repeat case_match; eauto.
Qed.

Lemma analyzeTokens_total (toks : list Token) :
  ∃ a, analyzeTokens toks = Some a.
Proof.
  destruct toks as [|t toks]; simpl; [eauto|].
  apply parse_total. unfold remaining; simpl. lia.
Qed.

(** [analyze] returns on every source text. *)
Lemma analyze_total (source : string) : ∃ a, analyze source = Some a.
Proof.
  unfold analyze, tokenize.
  destruct (tokenizeLoop_total (String.length source) source) as [toks ->];
    [lia|].
  apply analyzeTokens_total.
Qed.

(** ** The tokenizer is total (C10) *)

(** C10.  [tokenize] returns a token list on every source text: one
    iteration of its loop per unit of fuel, and one unit of fuel per
    character, is enough, because every iteration (the single branch
    that [tokenizeStep] takes among whitespace skip, identifier/keyword
    scan, number scan and operator/delimiter scan) leaves strictly less
    input than the [String c rest] it was entered with.  The loop
    pushes at most one token per iteration, so the token list is no
    longer than the text. *)
Theorem tokenize_total :
  (∀ (c : ascii) (rest : string),
      String.length (tokenizeStep c rest).2 < String.length (String c rest))
  ∧ (∀ source : string,
      ∃ toks, tokenize source = Some toks ∧ length toks ≤ String.length source).
Proof.
  split.
  - intros c rest. pose proof (tokenizeStep_length c rest). simpl. lia.
  - intros source. unfold tokenize.
    destruct (tokenizeLoop_total (String.length source) source) as [toks Hrun];
      [lia|].
    exists toks. split; [exact Hrun|]. by eapply tokenizeLoop_count.
Qed.

(** ** Empty and blank sources (C8) *)

Lemma tokenizeLoop_blank (s : string) :
  allSpace s = true → ∀ fuel, String.length s ≤ fuel →
  tokenizeLoop fuel s = Some [].
Proof.
  induction s as [|c rest IH]; intros Hsp fuel Hfuel; simpl in *.
  - by destruct fuel.
  - apply andb_prop in Hsp as [Hc Hrest].
    destruct fuel as [|fuel]; [lia|]. simpl.
    unfold tokenizeStep. rewrite Hc. rewrite IH; [reflexivity|exact Hrest|lia].
Qed.

(** C8.  On a source that is empty or all whitespace, [tokenize] yields
    no token and [analyze] leaves the parser untouched (position 0,
    empty symbol table) with the single diagnostic "empty program". *)
Theorem blank_source_is_empty_program (source : string) :
  allSpace source = true →
  tokenize source = Some []
  ∧ analyze source = Some (mkAnalyzer [] 0 ∅ [msgEmpty]).
Proof.
  intros Hsp.
  assert (Htok : tokenize source = Some []).
  { unfold tokenize. by apply tokenizeLoop_blank. }
  split; [exact Htok|]. unfold analyze. rewrite Htok. reflexivity.
Qed.

(** Two spaces. *)
Lemma blank_source_witness :
  allSpace "  " = true
  ∧ tokenize "  " = Some []
  ∧ analyze "  " = Some (mkAnalyzer [] 0 ∅ [msgEmpty]).
Proof.
  split; [reflexivity|].
  apply (blank_source_is_empty_program "  "). reflexivity.
Defined.

(** ** At most one diagnostic (C5) *)

Lemma noErrors_true (a : Analyzer) : noErrors a = true → errors a = [].
Proof. unfold noErrors. by destruct (errors a). Qed.

Lemma one_more (a a' : Analyzer) :
  errors a = [] → moved 0 a a' ∨ failed a a' → length (errors a') ≤ 1.
Proof.
  intros He [(_ & _ & ->)|(_ & _ & msg & ->)]; rewrite He; simpl; lia.
Qed.

(** The driver records at most one diagnostic when it starts with none. *)
Lemma parse_errors (fuel : nat) (a a' : Analyzer) :
  parse fuel a = Some a' → errors a = [] → length (errors a') ≤ 1.
Proof.
  unfold parse, parseRealizationBody. intros Hrun He.
  destruct (typeIsNot a KEYWORD_VAR).
  { injection Hrun as <-. simpl. rewrite He. simpl. lia. }
  destruct (parseDefinitionBody fuel (advance a)) as [a1|] eqn:Hd;
    [|discriminate].
  apply parseDefinitionBody_inv in Hd.
  pose proof (one_more (advance a) a1 He Hd) as H1.
  destruct (noErrors a1) eqn:Hn1; simpl in Hrun.
  - apply noErrors_true in Hn1.
    destruct (typeIsNot a1 KEYWORD_BEGIN).
    { injection Hrun as <-. simpl. rewrite Hn1. simpl. lia. }
    destruct (realizationLoop fuel (advance a1) []) as [a2|] eqn:Hr;
      [|discriminate].
    apply realizationLoop_inv in Hr.
    pose proof (one_more (advance a1) a2 Hn1 Hr) as H2.
    destruct (noErrors a2) eqn:Hn2; simpl in Hrun.
    + apply noErrors_true in Hn2.
      destruct (typeIsNot a2 KEYWORD_END); injection Hrun as <-; simpl;
        rewrite Hn2; simpl; lia.
    + injection Hrun as <-. exact H2.
  - injection Hrun as <-. exact H1.
Qed.

(** C5.  On every source text [analyze] returns, and the diagnostics
    list it leaves has at most one message.  Each of the two validator
    phases, run from any state with the fuel the driver passes,
    returns with the diagnostics it was entered with or with exactly
    one more. *)
Theorem at_most_one_diagnostic :
  (∀ source : string, ∃ a, analyze source = Some a ∧ length (errors a) ≤ 1)
  ∧ (∀ a : Analyzer,
      ∃ a', parseDefinitionBody (S (length (tokens a))) a = Some a'
            ∧ (errors a' = errors a
               ∨ ∃ msg : string, errors a' = errors a ++ [msg]))
  ∧ (∀ a : Analyzer,
      ∃ a', parseRealizationBody (S (length (tokens a))) a = Some a'
            ∧ (errors a' = errors a
               ∨ ∃ msg : string, errors a' = errors a ++ [msg])).
Proof.
  repeat split.
  - intros source.
    destruct (analyze_total source) as [a Ha]. exists a. split; [exact Ha|].
    unfold analyze in Ha.
    destruct (tokenize source) as [toks|]; [|discriminate].
    destruct toks as [|t toks]; simpl in Ha.
    + injection Ha as <-. simpl. lia.
    + by eapply parse_errors.
  - intros a.
    destruct (parseDefinitionBody_total (S (length (tokens a))) a) as [a' Ha'].
    { unfold remaining. lia. }
    exists a'. split; [exact Ha'|].
    apply parseDefinitionBody_inv in Ha' as [(_ & _ & H)|(_ & _ & H)]; eauto.
  - intros a. unfold parseRealizationBody.
    destruct (realizationLoop_total (S (length (tokens a))) a []) as [a' Ha'].
    { unfold remaining. lia. }
    exists a'. split; [exact Ha'|].
    apply realizationLoop_inv in Ha' as [(_ & _ & H)|(_ & _ & H)]; eauto.
Qed.

(** ** The structural validator leaves the symbol table alone (C9) *)

Lemma assignment_table (t : Token) (a : Analyzer) :
  tableKept id a (assignment t a).
Proof. unfold assignment. repeat case_match; reflexivity. Qed.

Lemma condition_table (fuel : nat) (closing : TokenType)
    (m1 m2 m3 : string) (a : Analyzer) (r : Flow Analyzer) :
  condition fuel closing m1 m2 m3 a = Some r → tableKept id a r.
Proof.
  unfold condition. intros Hrun.
  destruct (typeIsNot (advance a) DELIMITER_LPAREN);
    [by injection Hrun as <-|].
  destruct (scanCondition fuel (advance (advance a)) 1) as [[a1 pc]|] eqn:Hs;
    [|discriminate].
  apply scanCondition_inv in Hs as [_ Hs].
  repeat case_match; injection Hrun as <-; exact Hs.
Qed.

Lemma closeBlock_table (a : Analyzer) (blockStack : list string) :
  tableKept fst a (closeBlock a blockStack).
Proof. unfold closeBlock. repeat case_match; reflexivity. Qed.

Lemma withStack_table {B : Type} (a : Analyzer) (blockStack : B)
    (r : Flow Analyzer) :
  tableKept id a r → tableKept fst a (withStack blockStack r).
Proof. destruct r; simpl; auto. Qed.

Lemma realizationStep_table (fuel : nat) (t : Token) (a : Analyzer)
    (blockStack : list string) (r : Flow (Analyzer * list string)) :
  realizationStep fuel t a blockStack = Some r → tableKept fst a r.
Proof.
  unfold realizationStep. intros Hrun.
  repeat case_match; simplify_eq; try reflexivity;
    try (apply withStack_table, assignment_table);
    try apply closeBlock_table.
  all: match goal with
       | H : _ <$> condition _ _ _ _ _ _ = Some _ |- _ =>
           apply fmap_Some in H as (r0 & H%condition_table & ->);
           by apply withStack_table
       end.
Qed.

Lemma realizationLoop_table (fuel : nat) :
  ∀ a blockStack a', realizationLoop fuel a blockStack = Some a' →
    symbolTable a' = symbolTable a.
Proof.
  induction fuel as [|fuel IH]; intros a blockStack a' Hrun; simpl in Hrun;
    [discriminate|].
  assert (Hc : symbolTable (checkClosed a blockStack) = symbolTable a)
    by (by destruct blockStack).
  destruct (current a) as [t|]; [|by injection Hrun as <-].
  destruct (bool_decide (type t = KEYWORD_END)); [by injection Hrun as <-|].
  destruct (realizationStep fuel t a blockStack) as [[[a1 st1]|a1]|] eqn:Hs;
    [| |discriminate]; apply realizationStep_table in Hs; simpl in Hs.
  - rewrite <- Hs. by eapply IH.
  - by injection Hrun as <-.
Qed.

(** C9.  With any amount of fuel, the identifier-to-type mapping that
    [parseRealizationBody] returns with is the one it was entered with;
    and it does return with the fuel the driver passes. *)
Theorem symbolTable_read_only :
  (∀ (fuel : nat) (a a' : Analyzer),
      parseRealizationBody fuel a = Some a' → symbolTable a' = symbolTable a)
  ∧ (∀ a : Analyzer,
      ∃ a', parseRealizationBody (S (length (tokens a))) a = Some a'
            ∧ symbolTable a' = symbolTable a).
Proof.
  split.
  - intros fuel a a'. apply realizationLoop_table.
  - intros a.
    destruct (realizationLoop_total (S (length (tokens a))) a []) as [a' Ha'].
    { unfold remaining. lia. }
    exists a'. split; [exact Ha'|]. by eapply realizationLoop_table.
Qed.

(** The body of ["Var i,j:integer;Begin i:=0;j:=1;End"]. *)
Lemma symbolTable_read_only_witness :
  parseRealizationBody 18 bodyA
    = Some (mkAnalyzer tokensA 16 (symbolTable bodyA) [])
  ∧ symbolTable (mkAnalyzer tokensA 16 (symbolTable bodyA) [])
    = symbolTable bodyA.
Proof.
  assert (Hrun : parseRealizationBody 18 bodyA
                 = Some (mkAnalyzer tokensA 16 (symbolTable bodyA) []))
    by (vm_compute; reflexivity).
  split; [exact Hrun|].
  exact (proj1 symbolTable_read_only 18 bodyA _ Hrun).
Defined.

(** ** Nested blocks (C1) *)

(** The loop of [parseRealizationBody] is left as soon as the current
    token is an [end], whatever [blockStack] holds: the branch that
    pops a marker ([closeBlock]) is never entered. *)
Lemma realizationLoop_at_end (fuel : nat) (a : Analyzer) (t : Token)
    (blockStack : list string) :
  current a = Some t → type t = KEYWORD_END →
  realizationLoop (S fuel) a blockStack = Some (checkClosed a blockStack).
Proof.
  intros Ht Hty. simpl. rewrite Ht, Hty. reflexivity.
Qed.

(** C1.  A program whose body holds one well-formed [while] block, or
    one well-formed [begin] block, closed by [end;] is not accepted:
    the validator stops at the inner [end] with the marker still on the
    stack (position 15, respectively 7) and records "missing 'end' to
    match while", respectively "... begin". *)
Theorem nested_block_rejected :
  analyze "Var i:integer;Begin while (i) do i:=0; end; End"
    = Some (mkAnalyzer
              [mkToken KEYWORD_VAR "Var"; mkToken IDENTIFIER "i";
               mkToken DELIMITER_COLON ":"; mkToken KEYWORD_INTEGER "integer";
               mkToken DELIMITER_SEMICOLON ";"; mkToken KEYWORD_BEGIN "Begin";
               mkToken KEYWORD_WHILE "while"; mkToken DELIMITER_LPAREN "(";
               mkToken IDENTIFIER "i"; mkToken DELIMITER_RPAREN ")";
               mkToken KEYWORD_DO "do"; mkToken IDENTIFIER "i";
               mkToken OPERATOR_ASSIGN ":="; mkToken NUMBER "0";
               mkToken DELIMITER_SEMICOLON ";"; mkToken KEYWORD_END "end";
               mkToken DELIMITER_SEMICOLON ";"; mkToken KEYWORD_END "End"]
              15 (<["i" := "integer"]> ∅) [(msgMissingEndFor ++ "while")%string])
  ∧ report "Var i:integer;Begin begin end; End"
    = Some [(msgMissingEndFor ++ "begin")%string].
Proof. split; vm_compute; reflexivity. Qed.

(** ** A lone [=] in an assignment (C2) *)

(** C2, as stated, fails: on ["Var i:integer;Begin i=0;End"] the run
    does not record "invalid token in realization: =". *)
Lemma lone_equal_not_invalid_token :
  ∃ a, analyze "Var i:integer;Begin i=0;End" = Some a
       ∧ (msgInvalidToken ++ "=")%string ∉ errors a.
Proof.
  eexists. split; [vm_compute; reflexivity|].
  intros H. apply list_elem_of_In in H. simpl in H.
  destruct H as [H|[]]. vm_compute in H. discriminate.
Qed.

(** C2, amended.  On ["Var i:integer;Begin i=0;End"] the lone [=] is
    the [ERROR] token of lexeme "=" (index 7); the structural validator
    finds it where it requires [:=] after the declared identifier [i],
    records "missing ':=' after identifier: i" as the only diagnostic
    and returns with [tokenPos] on that token. *)
Theorem lone_equal_missing_assign :
  tokenize "Var i:integer;Begin i=0;End"
    = Some [mkToken KEYWORD_VAR "Var"; mkToken IDENTIFIER "i";
            mkToken DELIMITER_COLON ":"; mkToken KEYWORD_INTEGER "integer";
            mkToken DELIMITER_SEMICOLON ";"; mkToken KEYWORD_BEGIN "Begin";
            mkToken IDENTIFIER "i"; mkToken ERROR "="; mkToken NUMBER "0";
            mkToken DELIMITER_SEMICOLON ";"; mkToken KEYWORD_END "End"]
  ∧ ∃ a, analyze "Var i:integer;Begin i=0;End" = Some a
         ∧ errors a = [(msgMissingAssign ++ "i")%string]
         ∧ tokenPos a = 7
         ∧ symbolTable a = <["i" := "integer"]> ∅.
Proof.
  split; [vm_compute; reflexivity|].
  eexists. split; [vm_compute; reflexivity|].
  repeat split; vm_compute; reflexivity.
Qed.

(** ** Text that begins with a digit (C3) *)

(** C3.  ["9i"] is not one [ERROR] token: the digit sends [tokenize] to
    [readNumber], which yields the [NUMBER] token "9", and the letter
    then yields the [IDENTIFIER] token "i".  On ["Var 9i:integer;"] the
    declaration validator therefore takes the branch for a token that
    is no identifier ("expected identifier, found: 9"), not the one for
    an [ERROR] token. *)
Theorem digit_led_text_is_number_then_identifier :
  tokenize "9i" = Some [mkToken NUMBER "9"; mkToken IDENTIFIER "i"]
  ∧ tokenize "Var 9i:integer;"
    = Some [mkToken KEYWORD_VAR "Var"; mkToken NUMBER "9";
            mkToken IDENTIFIER "i"; mkToken DELIMITER_COLON ":";
            mkToken KEYWORD_INTEGER "integer"; mkToken DELIMITER_SEMICOLON ";"]
  ∧ report "Var 9i:integer;" = Some [(msgExpectedIdentifier ++ "9")%string].
Proof. repeat split; vm_compute; reflexivity. Qed.

(** ** Reading the tokens ahead

    What a piece of the parser does on a given run of tokens is stated
    with [upcoming] and [jump]. *)

Lemma current_upcoming (a : Analyzer) : current a = head (upcoming a).
Proof.
  unfold current, upcoming. rewrite <- (Nat.add_0_r (tokenPos a)) at 1.
  rewrite <- lookup_drop. by destruct (drop (tokenPos a) (tokens a)).
Qed.

Lemma upcoming_cons (a : Analyzer) (t : Token) (l : list Token) :
  upcoming a = t :: l → current a = Some t ∧ upcoming (advance a) = l.
Proof.
  intros Hup. assert (Hc : current a = Some t).
  { rewrite current_upcoming, Hup. reflexivity. }
  split; [exact Hc|]. unfold upcoming, current in *; simpl.
  apply drop_S in Hc. congruence.
Qed.

Lemma upcoming_nil (a : Analyzer) : upcoming a = [] → current a = None.
Proof. intros Hup. rewrite current_upcoming, Hup. reflexivity. Qed.

Lemma upcoming_jump (n : nat) (a : Analyzer) :
  upcoming (jump n a) = drop n (upcoming a).
Proof. unfold upcoming, jump; simpl. by rewrite drop_drop. Qed.

Lemma remaining_upcoming (a : Analyzer) : remaining a = length (upcoming a).
Proof. unfold remaining, upcoming. by rewrite length_drop. Qed.

Lemma jump_0 (a : Analyzer) : jump 0 a = a.
Proof. destruct a. unfold jump; simpl. by rewrite Nat.add_0_r. Qed.

Lemma jump_advance (n : nat) (a : Analyzer) :
  jump n (advance a) = jump (S n) a.
Proof. unfold jump; simpl. f_equal. lia. Qed.

Lemma advance_jump (n : nat) (a : Analyzer) :
  advance (jump n a) = jump (S n) a.
Proof. unfold jump, advance; simpl. f_equal. lia. Qed.

Lemma typeIs_upcoming (a : Analyzer) (t : Token) (l : list Token)
    (ty : TokenType) :
  upcoming a = t :: l → typeIs a ty = bool_decide (type t = ty).
Proof. intros [Hc _]%upcoming_cons. unfold typeIs. by rewrite Hc. Qed.

(** ** Repeated definitions (C7) *)

Lemma defineAll_lookup (vars : list string) (varType : string) :
  ∀ (a : Analyzer) (x : string),
    symbolTable (defineAll vars varType a) !! x
    = if bool_decide (x ∈ vars) then Some varType else symbolTable a !! x.
Proof.
  induction vars as [|var vars IH]; intros a x; simpl; [reflexivity|].
  rewrite IH. simpl.
  destruct (decide (x ∈ vars)) as [Hin|Hin].
  - rewrite !bool_decide_eq_true_2; [reflexivity| |exact Hin].
    apply elem_of_cons. by right.
  - rewrite (bool_decide_eq_false_2 _ Hin).
    destruct (decide (x = var)) as [->|Hne].
    + rewrite lookup_insert_eq, bool_decide_eq_true_2; [reflexivity|].
      apply elem_of_cons. by left.
    + rewrite lookup_insert_ne by congruence.
      rewrite bool_decide_eq_false_2; [reflexivity|].
      by intros [?|?]%elem_of_cons.
Qed.

Lemma defineAll_frame (vars : list string) (varType : string) :
  ∀ a : Analyzer,
    tokens (defineAll vars varType a) = tokens a
    ∧ tokenPos (defineAll vars varType a) = tokenPos a
    ∧ errors (defineAll vars varType a) = errors a.
Proof.
  induction vars as [|var vars IH]; intros a; simpl; [done|].
  destruct (IH (define var varType a)) as (-> & -> & ->). done.
Qed.

(** The loop over [vars] stops at the first name that is already in
    the table, be it from an earlier group or from this one. *)
Lemma declareVars_repeated (post : list string) (d varType : string) :
  ∀ (pre : list string) (a : Analyzer),
    NoDup pre →
    (∀ x, x ∈ pre → symbolTable a !! x = None) →
    is_Some (symbolTable a !! d) ∨ d ∈ pre →
    declareVars (pre ++ d :: post) varType a
    = Return (push_error (msgRepeated ++ d)%string (defineAll pre varType a)).
Proof.
  induction pre as [|x pre IH]; intros a Hnd Hfresh Hd; simpl.
  - destruct Hd as [Hd|Hd]; [|by apply elem_of_nil in Hd].
    unfold defined. by rewrite bool_decide_eq_true_2.
  - apply NoDup_cons in Hnd as [Hx Hnd].
    unfold defined at 1. rewrite bool_decide_eq_false_2.
    2: { rewrite Hfresh by (apply elem_of_cons; by left). by intros [? ?]. }
    apply IH; [exact Hnd| |]; simpl.
    + intros y Hy. rewrite lookup_insert_ne by (by intros ->).
      apply Hfresh. apply elem_of_cons. by right.
    + destruct (decide (d = x)) as [->|Hne].
      * left. rewrite lookup_insert_eq. eauto.
      * rewrite lookup_insert_ne by congruence.
        destruct Hd as [Hd|[?|Hd]%elem_of_cons]; [by left|done|by right].
Qed.

Lemma commaIdents_length (names : list string) :
  length (commaIdents names) = 2 * length names.
Proof. induction names; simpl; lia. Qed.

Lemma commaLoop_names (names : list string) :
  ∀ (fuel : nat) (a : Analyzer) (vars : list string) (sep : Token)
    (rest : list Token),
    upcoming a = commaIdents names ++ sep :: rest →
    type sep ≠ DELIMITER_COMMA →
    2 * length names < fuel →
    commaLoop fuel a vars
    = Some (Continue (jump (2 * length names) a, vars ++ names)).
Proof.
  induction names as [|x names IH]; intros fuel a vars sep rest Hup Hsep Hfuel;
    (destruct fuel as [|fuel]; [simpl in Hfuel; lia|]); simpl in Hup |- *.
  - rewrite (typeIs_upcoming _ _ _ _ Hup), bool_decide_eq_false_2 by done.
    by rewrite jump_0, app_nil_r.
  - rewrite (typeIs_upcoming _ _ _ _ Hup). simpl.
    apply upcoming_cons in Hup as [_ Hup].
    apply upcoming_cons in Hup as [-> Hup]. simpl.
    simpl in Hfuel. rewrite (IH fuel _ _ sep rest Hup Hsep) by lia.
    rewrite !jump_advance, <- app_assoc. simpl.
    do 3 f_equal. f_equal. lia.
Qed.

(** C7.  Let the declaration validator stand at a group
    [x0 , x1 , ... : type] whose list of names is [pre ++ d :: post],
    where the names of [pre] are new and distinct and [d] is already in
    the symbol table or is one of [pre].  Then it returns with one more
    diagnostic, "repeated definition of variable: d"; the names of
    [pre] are in the table with the type of the group, and every other
    name, those of [post] included, is bound as it was before. *)
Theorem repeated_definition_stops (fuel : nat) (a : Analyzer)
    (x0 : string) (names : list string) (colon ty : Token)
    (rest : list Token) (pre post : list string) (d : string) :
  upcoming a
    = mkToken IDENTIFIER x0 :: commaIdents names ++ colon :: ty :: rest →
  type colon = DELIMITER_COLON →
  count types (toLower (value ty)) = true →
  x0 :: names = pre ++ d :: post →
  NoDup pre →
  (∀ x, x ∈ pre → symbolTable a !! x = None) →
  is_Some (symbolTable a !! d) ∨ d ∈ pre →
  remaining a < fuel →
  ∃ a', parseDefinitionBody fuel a = Some a'
        ∧ errors a' = errors a ++ [(msgRepeated ++ d)%string]
        ∧ ∀ x, symbolTable a' !! x
               = if bool_decide (x ∈ pre) then Some (toLower (value ty))
                 else symbolTable a !! x.
Proof.
  intros Hup Hcolon Hty Hvars Hnd Hfresh Hd Hfuel.
  exists (push_error (msgRepeated ++ d)
            (defineAll pre (toLower (value ty))
               (jump (2 * length names + 3) a))).
  split; [|split].
  - destruct fuel as [|fuel]; [lia|].
    assert (Hlen : 2 * length names < fuel).
    { rewrite remaining_upcoming, Hup in Hfuel. simpl in Hfuel.
      rewrite length_app, commaIdents_length in Hfuel. simpl in Hfuel. lia. }
    assert (Hup1 : upcoming (jump (2 * length names) (advance a))
                   = colon :: ty :: rest).
    { apply upcoming_cons in Hup as [_ Hup].
      rewrite upcoming_jump, Hup, <- commaIdents_length.
      by rewrite drop_app_length. }
    assert (Hpos : advance (advance (jump (2 * length names) (advance a)))
                   = jump (2 * length names + 3) a).
    { rewrite !advance_jump, jump_advance. f_equal. lia. }
    simpl. apply upcoming_cons in Hup as [-> Hup].
    unfold definitionStep. cbn [type value].
    rewrite bool_decide_eq_false_2, bool_decide_eq_false_2 by done.
    rewrite bool_decide_eq_true_2 by done. cbn [negb].
    rewrite (commaLoop_names names fuel (advance a) [x0] colon (ty :: rest))
      by (try exact Hup; try rewrite Hcolon; done).
    change ([x0] ++ names) with (x0 :: names). rewrite Hvars.
    set (a1 := jump (2 * length names) (advance a)) in *.
    unfold typeIsNot.
    rewrite !(typeIs_upcoming _ _ _ _ Hup1), Hcolon.
    rewrite bool_decide_eq_false_2, bool_decide_eq_true_2 by done.
    cbn [negb].
    apply upcoming_cons in Hup1 as [_ Hup1].
    apply upcoming_cons in Hup1 as [-> _].
    rewrite Hty. cbn [negb].
    rewrite (declareVars_repeated post d _ pre) by done.
    by rewrite Hpos.
  - destruct (defineAll_frame pre (toLower (value ty))
                (jump (2 * length names + 3) a)) as (_ & _ & He).
    unfold push_error. cbn [errors]. by rewrite He.
  - intros x. unfold push_error. cbn [symbolTable].
    by rewrite defineAll_lookup.
Qed.

(** ["Var a,b,a,c:integer;"]: [a] and [b] are entered, the second [a]
    is reported, [c] is not entered. *)
Lemma repeated_definition_witness :
  ∃ a', parseDefinitionBody 12 (mkAnalyzer tokensRepeat 1 ∅ []) = Some a'
        ∧ errors a' = [] ++ [(msgRepeated ++ "a")%string]
        ∧ ∀ x, symbolTable a' !! x
               = if bool_decide (x ∈ ["a"; "b"]) then Some (toLower "integer")
                 else (∅ : gmap string string) !! x.
Proof.
  apply (repeated_definition_stops 12 (mkAnalyzer tokensRepeat 1 ∅ [])
           "a" ["b"; "a"; "c"] (mkToken DELIMITER_COLON ":")
           (mkToken KEYWORD_INTEGER "integer")
           [mkToken DELIMITER_SEMICOLON ";"] ["a"; "b"] ["c"] "a").
  - reflexivity.
  - reflexivity.
  - reflexivity.
  - reflexivity.
  - apply (bool_decide_unpack _). vm_compute. exact I.
  - intros x Hx. apply lookup_empty.
  - right. apply (bool_decide_unpack _). vm_compute. exact I.
  - vm_compute. lia.
Defined.

(** ** Conditions of [while] and [if] (C4) *)

Lemma upcoming_current (a : Analyzer) (t : Token) :
  current a = Some t → upcoming a = t :: upcoming (advance a).
Proof. unfold current, upcoming; simpl. apply drop_S. Qed.

(** The scan stops right after the [)] that closes the condition. *)
Lemma scanCondition_closes (cond : list Token) :
  ∀ (fuel : nat) (a : Analyzer) (d : nat) (rparen : Token)
    (rest : list Token),
    upcoming a = cond ++ rparen :: rest →
    type rparen = DELIMITER_RPAREN →
    nesting d cond = Some 0 →
    S (length cond) < fuel →
    scanCondition fuel a (Z.of_nat (S d))
    = Some (jump (S (length cond)) a, 0%Z).
Proof.
  induction cond as [|t cond IH]; intros fuel a d rparen rest Hup Hrp Hn Hfuel;
    simpl in Hup, Hn, Hfuel;
    (destruct fuel as [|fuel]; [lia|]); cbn [scanCondition];
    apply upcoming_cons in Hup as [-> Hup].
  - injection Hn as ->. change (0 <? Z.of_nat 1)%Z with true. cbv iota.
    rewrite Hrp, bool_decide_eq_false_2, bool_decide_eq_true_2 by done.
    change (Z.of_nat 1 - 1)%Z with 0%Z.
    destruct fuel as [|fuel]; [lia|]. cbn [scanCondition].
    change (0 <? 0)%Z with false. cbn [length].
    rewrite <- (advance_jump 0 a), jump_0.
    by destruct (current (advance a)).
  - replace (0 <? Z.of_nat (S d))%Z with true by (symmetry; apply Z.ltb_lt; lia).
    cbv iota. cbn [length]. rewrite <- jump_advance.
    destruct (bool_decide (type t = DELIMITER_LPAREN)).
    { replace (Z.of_nat (S d) + 1)%Z with (Z.of_nat (S (S d))) by lia.
      by apply (IH fuel (advance a) (S d) rparen rest); [| | |lia]. }
    destruct (bool_decide (type t = DELIMITER_RPAREN)).
    { destruct d as [|d]; [discriminate|].
      replace (Z.of_nat (S (S d)) - 1)%Z with (Z.of_nat (S d)) by lia.
      by apply (IH fuel (advance a) d rparen rest); [| | |lia]. }
    by apply (IH fuel (advance a) d rparen rest); [| | |lia].
Qed.

(** The scan runs to the end of the tokens when no prefix of them
    brings the depth back to zero. *)
Lemma scanCondition_open (tail : list Token) :
  ∀ (fuel : nat) (a : Analyzer) (d : nat),
    upcoming a = tail →
    (∀ n, nesting (S d) (take n tail) ≠ Some 0) →
    length tail < fuel →
    ∃ parenCount, scanCondition fuel a (Z.of_nat (S d))
                  = Some (jump (length tail) a, parenCount)
                  ∧ (0 <? parenCount)%Z = true.
Proof.
  induction tail as [|t tail IH]; intros fuel a d Hup Hopen Hfuel;
    simpl in Hfuel; (destruct fuel as [|fuel]; [lia|]); cbn [scanCondition].
  - rewrite (upcoming_nil _ Hup), jump_0. eexists. split; [reflexivity|].
    apply Z.ltb_lt. lia.
  - apply upcoming_cons in Hup as [-> Hup].
    replace (0 <? Z.of_nat (S d))%Z with true by (symmetry; apply Z.ltb_lt; lia).
    cbv iota. cbn [length]. rewrite <- jump_advance.
    destruct (bool_decide (type t = DELIMITER_LPAREN)) eqn:Hl.
    { replace (Z.of_nat (S d) + 1)%Z with (Z.of_nat (S (S d))) by lia.
      apply IH; [exact Hup| |lia].
      intros n. specialize (Hopen (S n)). simpl in Hopen.
      by rewrite Hl in Hopen. }
    destruct (bool_decide (type t = DELIMITER_RPAREN)) eqn:Hr.
    { destruct d as [|d].
      - specialize (Hopen 1). simpl in Hopen. by rewrite Hl, Hr in Hopen.
      - replace (Z.of_nat (S (S d)) - 1)%Z with (Z.of_nat (S d)) by lia.
        apply IH; [exact Hup| |lia].
        intros n. specialize (Hopen (S n)). simpl in Hopen.
        by rewrite Hl, Hr in Hopen. }
    apply IH; [exact Hup| |lia].
    intros n. specialize (Hopen (S n)). simpl in Hopen.
    by rewrite Hl, Hr in Hopen.
Qed.

Lemma realizationStep_conditional (fuel : nat) (t : Token) (a : Analyzer)
    (blockStack : list string) (kw closing : TokenType)
    (marker mL mU mC : string) :
  conditional kw marker closing mL mU mC → type t = kw →
  realizationStep fuel t a blockStack
  = withStack (marker :: blockStack) <$> condition fuel closing mL mU mC a.
Proof.
  intros Hc Hty. unfold realizationStep. rewrite Hty.
  destruct Hc; reflexivity.
Qed.

Section Condition.

Variables (fuel : nat) (a : Analyzer) (t : Token).
Variables (closing : TokenType) (mL mU mC : string).
Hypothesis Hcur : current a = Some t.
Hypothesis Hfuel : remaining a ≤ fuel.

Lemma condition_no_lparen :
  typeIsNot (advance a) DELIMITER_LPAREN = true →
  condition fuel closing mL mU mC a = Some (Return (push_error mL (advance a))).
Proof. intros H. unfold condition. by rewrite H. Qed.

Lemma condition_scan (lparen : Token) (l : list Token) :
  upcoming (advance a) = lparen :: l → type lparen = DELIMITER_LPAREN →
  typeIsNot (advance a) DELIMITER_LPAREN = false
  ∧ upcoming (advance (advance a)) = l
  ∧ length l + 2 ≤ fuel.
Proof.
  intros Hup Hlp. unfold typeIsNot.
  rewrite (typeIs_upcoming _ _ _ _ Hup), bool_decide_eq_true_2 by done.
  split; [done|].
  pose proof (upcoming_current _ _ Hcur) as Hup0.
  rewrite remaining_upcoming, Hup0, Hup in Hfuel. simpl in Hfuel.
  apply upcoming_cons in Hup as [_ Hup]. split; [exact Hup|lia].
Qed.

Lemma condition_balanced (lparen rparen : Token) (cond rest : list Token) :
  upcoming (advance a) = lparen :: cond ++ rparen :: rest →
  type lparen = DELIMITER_LPAREN → type rparen = DELIMITER_RPAREN →
  balanced cond →
  upcoming (jump (length cond + 3) a) = rest
  ∧ condition fuel closing mL mU mC a
    = if typeIsNot (jump (length cond + 3) a) closing then
        Some (Return (push_error mC (jump (length cond + 3) a)))
      else Some (Continue (jump (length cond + 4) a)).
Proof.
  intros Hup Hlp Hrp Hbal.
  destruct (condition_scan _ _ Hup Hlp) as (Hno & Hup2 & Hlen).
  rewrite length_app in Hlen. simpl in Hlen.
  assert (Hj : jump (S (length cond)) (advance (advance a))
               = jump (length cond + 3) a).
  { rewrite !jump_advance. f_equal. lia. }
  split.
  - rewrite <- Hj, upcoming_jump, Hup2.
    replace (S (length cond)) with (length (cond ++ [rparen]))
      by (rewrite length_app; simpl; lia).
    rewrite (cons_middle rparen cond rest), app_assoc.
    by rewrite drop_app_length.
  - unfold condition. rewrite Hno. change 1%Z with (Z.of_nat 1).
    rewrite (scanCondition_closes cond fuel _ 0 rparen rest Hup2 Hrp Hbal)
      by lia.
    change (0 <? 0)%Z with false. cbv iota. rewrite Hj.
    destruct (typeIsNot (jump (length cond + 3) a) closing); [done|].
    rewrite advance_jump. do 3 f_equal. lia.
Qed.

Lemma condition_unbalanced (lparen : Token) (tail : list Token) :
  upcoming (advance a) = lparen :: tail →
  type lparen = DELIMITER_LPAREN →
  (∀ n, nesting 1 (take n tail) ≠ Some 0) →
  condition fuel closing mL mU mC a
  = Some (Return (push_error mU (jump (length tail + 2) a))).
Proof.
  intros Hup Hlp Hopen.
  destruct (condition_scan _ _ Hup Hlp) as (Hno & Hup2 & Hlen).
  unfold condition. rewrite Hno. change 1%Z with (Z.of_nat 1).
  destruct (scanCondition_open tail fuel _ 0 Hup2 Hopen) as (pc & -> & ->);
    [lia|].
  rewrite !jump_advance. do 4 f_equal. lia.
Qed.

End Condition.

Lemma typeIs_startsWith (a : Analyzer) (ty : TokenType) :
  typeIs a ty = startsWith ty (upcoming a).
Proof.
  unfold typeIs. rewrite current_upcoming. by destruct (upcoming a).
Qed.

(** The statement of one turn of the loop at a [while] (resp. [if])
    token: what [realizationStep] hands back to the loop in the three
    layouts of the tokens that follow the keyword. *)
Lemma condition_step (fuel : nat) (a : Analyzer) (t : Token)
    (blockStack : list string) (kw closing : TokenType)
    (marker mL mU mC : string) :
  conditional kw marker closing mL mU mC →
  current a = Some t → type t = kw → remaining a ≤ fuel →
  (startsWith DELIMITER_LPAREN (upcoming (advance a)) = false →
     realizationStep fuel t a blockStack
     = Some (Return (push_error mL (advance a))))
  ∧ (∀ (lparen rparen : Token) (cond rest : list Token),
       upcoming (advance a) = lparen :: cond ++ rparen :: rest →
       type lparen = DELIMITER_LPAREN → type rparen = DELIMITER_RPAREN →
       balanced cond →
       realizationStep fuel t a blockStack
       = if startsWith closing rest then
           Some (Continue (jump (length cond + 4) a, marker :: blockStack))
         else Some (Return (push_error mC (jump (length cond + 3) a))))
  ∧ (∀ (lparen : Token) (tail : list Token),
       upcoming (advance a) = lparen :: tail →
       type lparen = DELIMITER_LPAREN →
       (∀ n, nesting 1 (take n tail) ≠ Some 0) →
       realizationStep fuel t a blockStack
       = Some (Return (push_error mU (jump (length tail + 2) a)))).
Proof.
  intros Hc Hcur Hty Hfuel.
  rewrite (realizationStep_conditional fuel t a blockStack _ _ _ _ _ _ Hc Hty).
  repeat split.
  - intros Hno. rewrite condition_no_lparen; [done|].
    unfold typeIsNot. by rewrite typeIs_startsWith, Hno.
  - intros lparen rparen cond rest Hup Hlp Hrp Hbal.
    destruct (condition_balanced fuel a t closing mL mU mC Hcur Hfuel
                lparen rparen cond rest Hup Hlp Hrp Hbal) as [Hrest ->].
    unfold typeIsNot. rewrite typeIs_startsWith, Hrest.
    by destruct (startsWith closing rest).
  - intros lparen tail Hup Hlp Hopen.
    by rewrite (condition_unbalanced fuel a t closing mL mU mC Hcur Hfuel
                  lparen tail Hup Hlp Hopen).
Qed.

(** One turn of the loop of [parseRealizationBody] at a token that is
    no [end]: the loop returns what the statement returns with, or goes
    on from where the statement leaves the position and the stack. *)
Lemma realizationLoop_step (fuel : nat) (a : Analyzer) (t : Token)
    (blockStack : list string) :
  current a = Some t → type t ≠ KEYWORD_END →
  realizationLoop (S fuel) a blockStack
  = match realizationStep fuel t a blockStack with
    | None => None
    | Some (Return a1) => Some a1
    | Some (Continue (a1, blockStack1)) => realizationLoop fuel a1 blockStack1
    end.
Proof.
  intros Hcur Hend. simpl. rewrite Hcur.
  by rewrite bool_decide_eq_false_2 by exact Hend.
Qed.

Lemma conditional_not_end (kw closing : TokenType)
    (marker mL mU mC : string) :
  conditional kw marker closing mL mU mC → kw ≠ KEYWORD_END.
Proof. by intros [|]. Qed.

(** C4.  Let the loop of the structural validator
    ([parseRealizationBody] is this loop entered with no open marker)
    stand at a [while] (resp. [if]) token, with [blockStack] the
    markers open so far.
    - If the next token is no [(], the validator returns with "missing
      '(' after while" (resp. if).
    - If the tokens that follow are [( cond ) rest] with [cond] any run
      of tokens whose parentheses are balanced, then nothing in [cond]
      is looked at but its parentheses: when [rest] starts with [do]
      (resp. [then]) the statement is accepted without a diagnostic
      and the validator goes on with the marker on the stack and
      [tokenPos] past that keyword; otherwise the validator returns
      with "missing 'do' after while condition" (resp. 'then', if).
    - If the tokens that follow are [( tail] and no prefix of [tail]
      closes the parenthesis, the validator returns at the end of the
      tokens with "unbalanced parentheses in while condition"
      (resp. if). *)
Theorem condition_validated (fuel : nat) (a : Analyzer) (t : Token)
    (blockStack : list string) (kw closing : TokenType)
    (marker mL mU mC : string) :
  conditional kw marker closing mL mU mC →
  current a = Some t → type t = kw → remaining a ≤ fuel →
  (startsWith DELIMITER_LPAREN (upcoming (advance a)) = false →
     realizationLoop (S fuel) a blockStack
     = Some (push_error mL (advance a)))
  ∧ (∀ (lparen rparen : Token) (cond rest : list Token),
       upcoming (advance a) = lparen :: cond ++ rparen :: rest →
       type lparen = DELIMITER_LPAREN → type rparen = DELIMITER_RPAREN →
       balanced cond →
       realizationLoop (S fuel) a blockStack
       = if startsWith closing rest then
           realizationLoop fuel (jump (length cond + 4) a)
                           (marker :: blockStack)
         else Some (push_error mC (jump (length cond + 3) a)))
  ∧ (∀ (lparen : Token) (tail : list Token),
       upcoming (advance a) = lparen :: tail →
       type lparen = DELIMITER_LPAREN →
       (∀ n, nesting 1 (take n tail) ≠ Some 0) →
       realizationLoop (S fuel) a blockStack
       = Some (push_error mU (jump (length tail + 2) a))).
Proof.
  intros Hc Hcur Hty Hfuel.
  assert (Hend : type t ≠ KEYWORD_END).
  { rewrite Hty. by eapply conditional_not_end. }
  rewrite (realizationLoop_step fuel a t blockStack Hcur Hend).
  destruct (condition_step fuel a t blockStack _ _ _ _ _ _ Hc Hcur Hty Hfuel)
    as (Hno & Hbal & Hopen).
  repeat split.
  - intros H. by rewrite (Hno H).
  - intros lparen rparen cond rest Hup Hlp Hrp Hb.
    rewrite (Hbal lparen rparen cond rest Hup Hlp Hrp Hb).
    by destruct (startsWith closing rest).
  - intros lparen tail Hup Hlp Hn.
    by rewrite (Hopen lparen tail Hup Hlp Hn).
Qed.

(** The [while] of [tokensWhile] is accepted: the validator goes on
    from the token after [do] with the marker of the [while] open. *)
Lemma condition_validated_witness :
  remaining (mkAnalyzer tokensWhile 0 ∅ []) ≤ 15
  ∧ parseRealizationBody 16 (mkAnalyzer tokensWhile 0 ∅ [])
    = realizationLoop 15 (mkAnalyzer tokensWhile 10 ∅ []) ["while"].
Proof.
  pose (a := mkAnalyzer tokensWhile 0 ∅ []).
  assert (Hfuel : remaining a ≤ 15) by (vm_compute; lia).
  split; [exact Hfuel|].
  destruct (condition_validated 15 a (mkToken KEYWORD_WHILE "while") []
              _ _ _ _ _ _ conditional_while eq_refl eq_refl Hfuel)
    as (_ & Hbal & _).
  exact (Hbal (mkToken DELIMITER_LPAREN "(") (mkToken DELIMITER_RPAREN ")")
           [mkToken IDENTIFIER "i"; mkToken OPERATOR_LT "<";
            mkToken DELIMITER_LPAREN "("; mkToken IDENTIFIER "j";
            mkToken DELIMITER_RPAREN ")"; mkToken ERROR "#"]
           [mkToken KEYWORD_DO "do";
            mkToken IDENTIFIER "i"; mkToken OPERATOR_ASSIGN ":=";
            mkToken NUMBER "0"; mkToken DELIMITER_SEMICOLON ";";
            mkToken KEYWORD_END "end"]
           eq_refl eq_refl eq_refl eq_refl).
Defined.

(** ** More fuel gives the same run *)

Lemma commaLoop_fuel (fuel : nat) :
  ∀ fuel' a vars r, commaLoop fuel a vars = Some r → fuel ≤ fuel' →
    commaLoop fuel' a vars = Some r.
Proof.
  induction fuel as [|fuel IH]; intros fuel' a vars r Hrun Hle;
    [discriminate|].
  destruct fuel' as [|fuel']; [lia|]. simpl in *.
  repeat case_match; try done. apply IH; [done|lia].
Qed.

Lemma scanCondition_fuel (fuel : nat) :
  ∀ fuel' a parenCount r, scanCondition fuel a parenCount = Some r →
    fuel ≤ fuel' → scanCondition fuel' a parenCount = Some r.
Proof.
  induction fuel as [|fuel IH]; intros fuel' a pc r Hrun Hle;
    [discriminate|].
  destruct fuel' as [|fuel']; [lia|]. simpl in *.
  destruct (current a) as [t|]; [|done].
  destruct (0 <? pc)%Z; [|done]. apply IH; [done|lia].
Qed.

Lemma definitionStep_fuel (fuel fuel' : nat) (t : Token) (a : Analyzer)
    (r : Flow Analyzer) :
  definitionStep fuel t a = Some r → fuel ≤ fuel' →
  definitionStep fuel' t a = Some r.
Proof.
  unfold definitionStep. intros Hrun Hle.
  destruct (bool_decide (type t = ERROR)); [done|].
  destruct (negb (bool_decide (type t = IDENTIFIER))); [done|].
  destruct (commaLoop fuel (advance a) [value t]) as [r0|] eqn:Hc;
    [|discriminate].
  by rewrite (commaLoop_fuel _ _ _ _ _ Hc Hle).
Qed.

Lemma parseDefinitionBody_fuel (fuel : nat) :
  ∀ fuel' a a', parseDefinitionBody fuel a = Some a' → fuel ≤ fuel' →
    parseDefinitionBody fuel' a = Some a'.
Proof.
  induction fuel as [|fuel IH]; intros fuel' a a' Hrun Hle; [discriminate|].
  destruct fuel' as [|fuel']; [lia|]. simpl in *.
  destruct (current a) as [t|]; [|done].
  destruct (bool_decide (type t = KEYWORD_BEGIN)); [done|].
  destruct (definitionStep fuel t a) as [r|] eqn:Hs; [|discriminate].
  rewrite (definitionStep_fuel _ fuel' _ _ _ Hs) by lia.
  destruct r; [|done]. apply IH; [done|lia].
Qed.

Lemma condition_fuel (fuel fuel' : nat) (closing : TokenType)
    (m1 m2 m3 : string) (a : Analyzer) (r : Flow Analyzer) :
  condition fuel closing m1 m2 m3 a = Some r → fuel ≤ fuel' →
  condition fuel' closing m1 m2 m3 a = Some r.
Proof.
  unfold condition. intros Hrun Hle.
  destruct (typeIsNot (advance a) DELIMITER_LPAREN); [done|].
  destruct (scanCondition fuel (advance (advance a)) 1) as [r0|] eqn:Hs;
    [|discriminate].
  by rewrite (scanCondition_fuel _ _ _ _ _ Hs Hle).
Qed.

Lemma realizationStep_fuel (fuel fuel' : nat) (t : Token) (a : Analyzer)
    (blockStack : list string) (r : Flow (Analyzer * list string)) :
  realizationStep fuel t a blockStack = Some r → fuel ≤ fuel' →
  realizationStep fuel' t a blockStack = Some r.
Proof.
  unfold realizationStep. intros Hrun Hle.
  repeat case_match; try done.
  all: apply fmap_Some in Hrun as (r0 & Hc & ->);
    by rewrite (condition_fuel _ _ _ _ _ _ _ _ Hc Hle).
Qed.

Lemma realizationLoop_fuel (fuel : nat) :
  ∀ fuel' a blockStack a', realizationLoop fuel a blockStack = Some a' →
    fuel ≤ fuel' → realizationLoop fuel' a blockStack = Some a'.
Proof.
  induction fuel as [|fuel IH]; intros fuel' a blockStack a' Hrun Hle;
    [discriminate|].
  destruct fuel' as [|fuel']; [lia|]. simpl in *.
  destruct (current a) as [t|]; [|done].
  destruct (bool_decide (type t = KEYWORD_END)); [done|].
  destruct (realizationStep fuel t a blockStack) as [r|] eqn:Hs;
    [|discriminate].
  rewrite (realizationStep_fuel _ fuel' _ _ _ _ Hs) by lia.
  destruct r as [[a1 st1]|a1]; [|done]. apply IH; [done|lia].
Qed.

Lemma parse_fuel (fuel fuel' : nat) (a a' : Analyzer) :
  parse fuel a = Some a' → fuel ≤ fuel' → parse fuel' a = Some a'.
Proof.
  unfold parse, parseRealizationBody. intros Hrun Hle.
  destruct (typeIsNot a KEYWORD_VAR); [done|].
  destruct (parseDefinitionBody fuel (advance a)) as [a1|] eqn:Hd;
    [|discriminate].
  rewrite (parseDefinitionBody_fuel _ _ _ _ Hd Hle).
  destruct (noErrors a1 && typeIsNot a1 KEYWORD_BEGIN); [done|].
  destruct (negb (noErrors a1)); [done|].
  destruct (realizationLoop fuel (advance a1) []) as [a2|] eqn:Hr;
    [|discriminate].
  by rewrite (realizationLoop_fuel _ _ _ _ _ Hr Hle).
Qed.

(** ** Tokens that are not reached do not matter

    A run that ends at a position below [n] is the same over every
    token list with the same first [n] tokens. *)

Section Local.

Variables (n : nat) (l1 l2 : list Token).
Hypothesis Hagree : agree n l1 l2.

Lemma current_retok (a : Analyzer) :
  tokens a = l1 → tokenPos a < n → current (retok l2 a) = current a.
Proof. intros <- Hlt. unfold current; simpl. by apply Hagree. Qed.

Lemma typeIs_retok (a : Analyzer) (ty : TokenType) :
  tokens a = l1 → tokenPos a < n → typeIs (retok l2 a) ty = typeIs a ty.
Proof. intros Htok Hlt. unfold typeIs. by rewrite current_retok. Qed.

Lemma typeIsNot_retok (a : Analyzer) (ty : TokenType) :
  tokens a = l1 → tokenPos a < n → typeIsNot (retok l2 a) ty = typeIsNot a ty.
Proof. intros Htok Hlt. unfold typeIsNot. by rewrite typeIs_retok. Qed.

Lemma retok_advance (a : Analyzer) :
  advance (retok l2 a) = retok l2 (advance a).
Proof. reflexivity. Qed.

(** In a run over [l1] entered as [H], split on every test; then
    replay the run over [l2], where each test reads a token below [n]. *)
Ltac split_run H :=
  repeat match type of H with
         | context [match ?x with _ => _ end] => destruct x eqn:?
         end.

Ltac below :=
  simpl in *; unfold moved, failed in *; simpl in *;
  repeat match goal with H : _ ∧ _ |- _ => destruct H end;
  first [lia | congruence].

Ltac replay_with extra :=
  rewrite ?retok_advance;
  repeat first
    [ match goal with
      | |- context [typeIs (retok l2 ?x) ?ty] =>
          rewrite (typeIs_retok x ty) by below
      | |- context [typeIsNot (retok l2 ?x) ?ty] =>
          rewrite (typeIsNot_retok x ty) by below
      | |- context [current (retok l2 ?x)] =>
          rewrite (current_retok x) by below
      | E : ?x = _ |- context [match ?x with _ => _ end] => rewrite E
      | E : ?x = _ |- context [mapFlow _ _ ?x] => rewrite E
      | E : ?x = _ |- context [_ <$> ?x] => rewrite E
      end
    | extra
    | progress change (defined (retok l2 ?x) ?v) with (defined x v)
    | progress change (noErrors (retok l2 ?x)) with (noErrors x)
    | progress cbn [mapFlow prod_map fst snd id fmap option_fmap option_map]
    | progress cbv beta iota
    | progress rewrite ?retok_advance ];
  try reflexivity.

Ltac replay := replay_with fail.

Lemma assignment_local (t : Token) (a : Analyzer) :
  tokens a = l1 → flowPos id (assignment t a) < n →
  assignment t (retok l2 a) = mapFlow (retok l2) (retok l2) (assignment t a).
Proof.
  intros Htok Hpos. unfold assignment in *.
  split_run Hpos; replay.
Qed.

Lemma closeBlock_local (a : Analyzer) (blockStack : list string) :
  tokens a = l1 → flowPos fst (closeBlock a blockStack) < n →
  closeBlock (retok l2 a) blockStack
  = mapFlow (prod_map (retok l2) id) (retok l2) (closeBlock a blockStack).
Proof.
  intros Htok Hpos. unfold closeBlock in *.
  split_run Hpos; replay.
Qed.

Lemma commaLoop_local (fuel : nat) :
  ∀ a vars r, tokens a = l1 → commaLoop fuel a vars = Some r →
    flowPos fst r < n →
    commaLoop fuel (retok l2 a) vars
    = Some (mapFlow (prod_map (retok l2) id) (retok l2) r).
Proof.
  induction fuel as [|fuel IH]; intros a vars r Htok Hrun Hpos;
    [discriminate|].
  simpl in Hrun |- *.
  split_run Hrun; try (by injection Hrun as <-; replay).
  pose proof (commaLoop_inv _ _ _ _ Hrun) as Hinv.
  assert (Hlt : S (S (tokenPos a)) < n) by (destruct r; below).
  replay. by apply IH.
Qed.

Lemma declareVars_retok (vars : list string) (varType : string) :
  ∀ a, declareVars vars varType (retok l2 a)
       = mapFlow (retok l2) (retok l2) (declareVars vars varType a).
Proof.
  induction vars as [|var vars IH]; intros a; simpl; [reflexivity|].
  change (defined (retok l2 a) var) with (defined a var).
  destruct (defined a var); [reflexivity|]. apply (IH (define var varType a)).
Qed.

Lemma definitionStep_local (fuel : nat) (t : Token) (a : Analyzer)
    (r : Flow Analyzer) :
  tokens a = l1 → definitionStep fuel t a = Some r → flowPos id r < n →
  definitionStep fuel t (retok l2 a)
  = Some (mapFlow (retok l2) (retok l2) r).
Proof.
  intros Htok Hrun Hpos. unfold definitionStep in *.
  split_run Hrun; try discriminate; injection Hrun as <-;
    try match goal with
        | E : commaLoop _ _ _ = Some _ |- _ =>
            pose proof (commaLoop_inv _ _ _ _ E)
        end;
    try match goal with
        | E : declareVars ?vs ?ty ?x = _ |- _ =>
            pose proof (declareVars_inv vs ty 0 x x (moved_refl x)) as Hd;
            rewrite E in Hd
        end;
    replay_with ltac:(
      idtac; match goal with
      | E : commaLoop ?f ?x ?v = Some ?r
        |- context [commaLoop ?f (retok l2 ?x) ?v] =>
          rewrite (commaLoop_local f x v r) by (first [exact E | below])
      | |- context [declareVars ?vs ?ty (retok l2 ?x)] =>
          rewrite (declareVars_retok vs ty x)
      end).
Qed.

Lemma parseDefinitionBody_local (fuel : nat) :
  ∀ a a', tokens a = l1 → parseDefinitionBody fuel a = Some a' →
    tokenPos a' < n →
    parseDefinitionBody fuel (retok l2 a) = Some (retok l2 a').
Proof.
  induction fuel as [|fuel IH]; intros a a' Htok Hrun Hpos; [discriminate|].
  simpl in Hrun |- *.
  split_run Hrun; try discriminate;
    try match goal with
        | E : definitionStep _ _ _ = Some _ |- _ =>
            pose proof (definitionStep_inv _ _ _ _ E)
        end;
    try (injection Hrun as <-);
    try (pose proof (parseDefinitionBody_inv _ _ _ Hrun) as [?|?]);
    replay_with ltac:(
      idtac; match goal with
      | E : definitionStep ?f ?t ?x = Some ?r
        |- context [definitionStep ?f ?t (retok l2 ?x)] =>
          rewrite (definitionStep_local f t x r) by (first [exact E | below])
      end);
    apply IH; solve [assumption | below].
Qed.

Lemma scanCondition_local (fuel : nat) :
  ∀ a parenCount a' parenCount', tokens a = l1 →
    scanCondition fuel a parenCount = Some (a', parenCount') →
    tokenPos a' < n →
    scanCondition fuel (retok l2 a) parenCount
    = Some (retok l2 a', parenCount').
Proof.
  induction fuel as [|fuel IH]; intros a pc a' pc' Htok Hrun Hpos;
    [discriminate|].
  simpl in Hrun |- *.
  destruct (current a) as [t|] eqn:Hc.
  - destruct (0 <? pc)%Z.
    + pose proof (scanCondition_inv _ _ _ _ _ Hrun) as [? _].
      replay. apply IH; solve [assumption | below].
    + injection Hrun as <- <-. replay.
  - injection Hrun as <- <-. replay.
Qed.

Lemma condition_local (fuel : nat) (closing : TokenType)
    (m1 m2 m3 : string) (a : Analyzer) (r : Flow Analyzer) :
  tokens a = l1 → condition fuel closing m1 m2 m3 a = Some r →
  flowPos id r < n →
  condition fuel closing m1 m2 m3 (retok l2 a)
  = Some (mapFlow (retok l2) (retok l2) r).
Proof.
  intros Htok Hrun Hpos. unfold condition in *.
  split_run Hrun; try discriminate; injection Hrun as <-;
    try match goal with
        | E : scanCondition _ _ _ = Some _ |- _ =>
            pose proof (scanCondition_inv _ _ _ _ _ E) as [? _]
        end;
    replay_with ltac:(
      idtac; match goal with
      | E : scanCondition ?f ?x ?pc = Some (?x', ?pc')
        |- context [scanCondition ?f (retok l2 ?x) ?pc] =>
          rewrite (scanCondition_local f x pc x' pc')
            by (first [exact E | below])
      end).
Qed.

Lemma withStack_mapFlow {B : Type} (blockStack : B) (r : Flow Analyzer) :
  withStack blockStack (mapFlow (retok l2) (retok l2) r)
  = mapFlow (prod_map (retok l2) id) (retok l2) (withStack blockStack r).
Proof. by destruct r. Qed.

Lemma flowPos_withStack {B : Type} (blockStack : B) (r : Flow Analyzer) :
  flowPos fst (withStack blockStack r) = flowPos id r.
Proof. by destruct r. Qed.

Lemma realizationStep_local (fuel : nat) (t : Token) (a : Analyzer)
    (blockStack : list string) (r : Flow (Analyzer * list string)) :
  tokens a = l1 → realizationStep fuel t a blockStack = Some r →
  flowPos fst r < n →
  realizationStep fuel t (retok l2 a) blockStack
  = Some (mapFlow (prod_map (retok l2) id) (retok l2) r).
Proof.
  intros Htok Hrun Hpos. unfold realizationStep in *.
  split_run Hrun;
    try (apply fmap_Some in Hrun as (r0 & Hc & ->);
         rewrite flowPos_withStack in Hpos;
         rewrite (condition_local _ _ _ _ _ _ _ Htok Hc Hpos); simpl;
         by rewrite withStack_mapFlow);
    injection Hrun as <-; try (by replay).
  - rewrite flowPos_withStack in Hpos.
    by rewrite (assignment_local _ _ Htok Hpos), withStack_mapFlow.
  - by rewrite (closeBlock_local _ _ Htok Hpos).
Qed.

Lemma checkClosed_retok (a : Analyzer) (blockStack : list string) :
  checkClosed (retok l2 a) blockStack = retok l2 (checkClosed a blockStack).
Proof. by destruct blockStack. Qed.

Lemma checkClosed_pos (a : Analyzer) (blockStack : list string) :
  tokenPos (checkClosed a blockStack) = tokenPos a.
Proof. by destruct blockStack. Qed.

Lemma realizationLoop_local (fuel : nat) :
  ∀ a blockStack a', tokens a = l1 →
    realizationLoop fuel a blockStack = Some a' → tokenPos a' < n →
    realizationLoop fuel (retok l2 a) blockStack = Some (retok l2 a').
Proof.
  induction fuel as [|fuel IH]; intros a blockStack a' Htok Hrun Hpos;
    [discriminate|].
  simpl in Hrun |- *.
  split_run Hrun; try discriminate;
    try match goal with
        | E : realizationStep _ _ _ _ = Some _ |- _ =>
            pose proof (realizationStep_inv _ _ _ _ _ E)
        end;
    try (injection Hrun as <-);
    rewrite ?checkClosed_pos in Hpos;
    try (pose proof (realizationLoop_inv _ _ _ _ Hrun) as [?|?]);
    replay_with ltac:(
      idtac; match goal with
      | E : realizationStep ?f ?t ?x ?st = Some ?r
        |- context [realizationStep ?f ?t (retok l2 ?x) ?st] =>
          rewrite (realizationStep_local f t x st r)
            by (first [exact E | below])
      end);
    rewrite ?checkClosed_retok; try reflexivity;
    apply IH; solve [assumption | below].
Qed.

Lemma parse_local (fuel : nat) (a a' : Analyzer) :
  tokens a = l1 → parse fuel a = Some a' → tokenPos a' < n →
  parse fuel (retok l2 a) = Some (retok l2 a').
Proof.
  intros Htok Hrun Hpos. unfold parse, parseRealizationBody in *.
  split_run Hrun; try discriminate; injection Hrun as <-;
    repeat match goal with
           | E : parseDefinitionBody _ _ = Some _ |- _ =>
               apply parseDefinitionBody_inv in E as Hinv1;
               destruct Hinv1; revert E
           | E : realizationLoop _ _ _ = Some _ |- _ =>
               apply realizationLoop_inv in E as Hinv2;
               destruct Hinv2; revert E
           end; intros;
    replay_with ltac:(
      idtac; match goal with
      | E : parseDefinitionBody ?f ?x = Some ?x'
        |- context [parseDefinitionBody ?f (retok l2 ?x)] =>
          rewrite (parseDefinitionBody_local f x x')
            by (first [exact E | below])
      | E : realizationLoop ?f ?x ?st = Some ?x'
        |- context [realizationLoop ?f (retok l2 ?x) ?st] =>
          rewrite (realizationLoop_local f x st x')
            by (first [exact E | below])
      end).
Qed.

End Local.

(** ** Tokens after the outer [end] (C6) *)

Lemma push_error_not_nil (msg : string) (a : Analyzer) :
  errors (push_error msg a) ≠ [].
Proof. simpl. by destruct (errors a). Qed.

(** A run of the driver that records nothing ends on an [end] token. *)
Lemma parse_success (fuel : nat) (a0 a : Analyzer) :
  parse fuel a0 = Some a → errors a = [] →
  typeIs a KEYWORD_END = true ∧ tokens a = tokens a0.
Proof.
  unfold parse, parseRealizationBody. intros Hrun Herr.
  destruct (typeIsNot a0 KEYWORD_VAR).
  { injection Hrun as <-. by apply push_error_not_nil in Herr. }
  destruct (parseDefinitionBody fuel (advance a0)) as [a1|] eqn:Hd;
    [|discriminate].
  destruct (noErrors a1) eqn:Hn1; simpl in Hrun.
  - destruct (typeIsNot a1 KEYWORD_BEGIN).
    { injection Hrun as <-. by apply push_error_not_nil in Herr. }
    destruct (realizationLoop fuel (advance a1) []) as [a2|] eqn:Hr;
      [|discriminate].
    assert (Htok : tokens a2 = tokens a0).
    { apply parseDefinitionBody_inv in Hd. apply realizationLoop_inv in Hr.
      unfold moved, failed in *. simpl in *. intuition congruence. }
    destruct (noErrors a2) eqn:Hn2; simpl in Hrun.
    + destruct (typeIsNot a2 KEYWORD_END) eqn:He.
      { injection Hrun as <-. by apply push_error_not_nil in Herr. }
      injection Hrun as <-. split; [|exact Htok].
      unfold typeIsNot in He. by apply negb_false_iff in He.
    + injection Hrun as <-. unfold noErrors in Hn2. by rewrite Herr in Hn2.
  - injection Hrun as <-. unfold noErrors in Hn1. by rewrite Herr in Hn1.
Qed.

Lemma agree_take (n : nat) (toks trailing : list Token) :
  n ≤ length toks → agree n toks (take n toks ++ trailing).
Proof.
  intros Hn i Hi.
  rewrite lookup_app_l by (rewrite length_take; lia).
  by apply lookup_take_lt.
Qed.

(** C6.  When [analyze] succeeds on the tokens [toks], the final
    [tokenPos] is on an [end] token, and the run is the same, with the
    same final position and symbol table and no diagnostic, on every
    token list that has the tokens of [toks] up to that [end] and then
    any tokens at all: nothing after that [end] is read.  For instance
    ["Var i:integer;Begin End End"] is accepted. *)
Theorem trailing_tokens_ignored :
  (∀ (toks trailing : list Token) (a : Analyzer),
      analyzeTokens toks = Some a → errors a = [] →
      (∃ t, toks !! tokenPos a = Some t ∧ type t = KEYWORD_END)
      ∧ analyzeTokens (take (S (tokenPos a)) toks ++ trailing)
        = Some (mkAnalyzer (take (S (tokenPos a)) toks ++ trailing)
                  (tokenPos a) (symbolTable a) []))
  ∧ report "Var i:integer;Begin End End" = Some [].
Proof.
  split; [|vm_compute; reflexivity].
  intros toks trailing a Hrun Herr.
  destruct toks as [|t0 toks0] eqn:Htoks.
  { injection Hrun as <-. by apply push_error_not_nil in Herr. }
  rewrite <- Htoks in *. assert (Hne : toks ≠ []) by (by rewrite Htoks).
  clear Htoks t0 toks0.
  assert (Hparse : parse (S (length toks)) (initial toks) = Some a).
  { destruct toks; [done|exact Hrun]. }
  clear Hrun.
  destruct (parse_success _ _ _ Hparse Herr) as [Hend Htok]. simpl in Htok.
  apply typeIs_current in Hend as (t & Hcur & Hty).
  unfold current in Hcur. rewrite Htok in Hcur.
  split; [by exists t|].
  pose proof (lookup_lt_Some _ _ _ Hcur) as Hlt.
  set (l2 := take (S (tokenPos a)) toks ++ trailing).
  assert (Hlocal : parse (S (length toks)) (initial l2) = Some (retok l2 a)).
  { apply (parse_local (S (tokenPos a)) toks l2
             (agree_take _ _ _ Hlt) _ (initial toks) a eq_refl Hparse).
    lia. }
  assert (Hl2 : l2 ≠ []).
  { unfold l2. destruct toks; [done|]. simpl. discriminate. }
  assert (Hgoal : parse (S (length l2)) (initial l2) = Some (retok l2 a)).
  { destruct (parse_total (S (length l2)) (initial l2)) as [r Hr].
    { unfold remaining; simpl; lia. }
    destruct (decide (length toks ≤ length l2)) as [Hle|Hgt].
    - apply (parse_fuel _ _ _ _ Hlocal). lia.
    - pose proof (parse_fuel _ (S (length toks)) _ _ Hr) as Hr'.
      rewrite Hlocal in Hr'. rewrite Hr. symmetry. apply Hr'. lia. }
  unfold retok in Hgoal. rewrite Herr in Hgoal.
  unfold analyzeTokens. by destruct l2.
Qed.

(** The run on [tokensTrail] stops on the [End] at index 6; with
    [End #] in place of what follows, the run is the same. *)
Lemma trailing_tokens_witness :
  analyzeTokens
    (take 7 tokensTrail ++ [mkToken KEYWORD_END "End"; mkToken ERROR "#"])
  = Some (mkAnalyzer
            (take 7 tokensTrail
               ++ [mkToken KEYWORD_END "End"; mkToken ERROR "#"])
            6 (<["i" := "integer"]> ∅) []).
Proof.
  assert (Hrun : analyzeTokens tokensTrail
                 = Some (mkAnalyzer tokensTrail 6 (<["i" := "integer"]> ∅) []))
    by (vm_compute; reflexivity).
  exact (proj2 (proj1 trailing_tokens_ignored tokensTrail
                  [mkToken KEYWORD_END "End"; mkToken ERROR "#"]
                  _ Hrun eq_refl)).
Defined.

(** * Further properties of the tokenizer *)

(** ** Lexemes are the slices of the source *)

Lemma isdigit_not_space (c : ascii) : isdigit c = true → isspace c = false.
Proof.
  destruct c as [[] [] [] [] [] [] [] []]; vm_compute; congruence.
Qed.

Lemma scanWord_split (s : string) :
  s = ((scanWord s).1 ++ (scanWord s).2)%string
  ∧ noSpace (scanWord s).1 = true.
Proof.
  induction s as [|c rest [IH1 IH2]]; simpl; [done|].
  destruct (isspace c) eqn:Hsp; simpl; [done|].
  destruct (isDelimiter c); simpl; [done|].
  destruct (scanWord rest) as [w r]; simpl in *.
  rewrite Hsp. simpl. split; [by rewrite IH1 at 1|done].
Qed.

Lemma scanDigits_split (s : string) :
  s = ((scanDigits s).1 ++ (scanDigits s).2)%string
  ∧ noSpace (scanDigits s).1 = true.
Proof.
  induction s as [|c rest [IH1 IH2]]; simpl; [done|].
  destruct (isdigit c) eqn:Hd; simpl; [|done].
  destruct (scanDigits rest) as [w r]; simpl in *.
  rewrite (isdigit_not_space c Hd). simpl. split; [by rewrite IH1 at 1|done].
Qed.

Lemma nextIs_true (rest : string) (d : ascii) :
  nextIs rest d = true → rest = String d (skip1 rest).
Proof.
  destruct rest as [|c1 rest]; simpl; [discriminate|].
  by intros ->%Ascii.eqb_eq.
Qed.

Lemma readOperator_split (c : ascii) (rest : string) :
  isspace c = false →
  String c rest
  = (value (readOperator c rest).1 ++ (readOperator c rest).2)%string
  ∧ noSpace (value (readOperator c rest).1) = true.
Proof.
  intros Hsp. unfold readOperator.
  repeat match goal with
         | |- context [if (c =? ?d)%char then _ else _] =>
             destruct (Ascii.eqb_spec c d) as [->|_]
         | |- context [if nextIs rest ?d then _ else _] =>
             let H := fresh in
             destruct (nextIs rest d) eqn:H;
             [apply nextIs_true in H; rewrite H at 1|]
         end; simpl; try done.
  by rewrite Hsp.
Qed.

Lemma readIdentifierOrKeyword_value (s : string) :
  value (readIdentifierOrKeyword s).1 = (scanWord s).1.
Proof.
  unfold readIdentifierOrKeyword.
  destruct (scanWord s) as [tokenStr s']; simpl.
  repeat match goal with |- context [if ?b then _ else _] => destruct b end;
    reflexivity.
Qed.

Lemma readNumber_value (s : string) :
  value (readNumber s).1 = (scanDigits s).1.
Proof.
  unfold readNumber. by destruct (scanDigits s).
Qed.

(** One iteration either skips a whitespace character or pushes a token
    whose lexeme is the text it consumed, which holds no whitespace. *)
Lemma tokenizeStep_split (c : ascii) (rest : string) :
  match (tokenizeStep c rest).1 with
  | None => isspace c = true ∧ (tokenizeStep c rest).2 = rest
  | Some t =>
      isspace c = false
      ∧ String c rest = (value t ++ (tokenizeStep c rest).2)%string
      ∧ noSpace (value t) = true
  end.
Proof.
  unfold tokenizeStep.
  destruct (isspace c) eqn:Hsp; [done|].
  destruct (isalpha c).
  - pose proof (readIdentifierOrKeyword_value (String c rest)) as Hv.
    pose proof (readIdentifierOrKeyword_rest (String c rest)) as Hr.
    pose proof (scanWord_split (String c rest)) as [H1 H2].
    destruct (readIdentifierOrKeyword (String c rest)) as [t s']; simpl in *.
    rewrite Hv, Hr. done.
  - destruct (isdigit c).
    + pose proof (readNumber_value (String c rest)) as Hv.
      pose proof (readNumber_rest (String c rest)) as Hr.
      pose proof (scanDigits_split (String c rest)) as [H1 H2].
      destruct (readNumber (String c rest)) as [t s']; simpl in *.
      rewrite Hv, Hr. done.
    + pose proof (readOperator_split c rest Hsp) as [H1 H2].
      by destruct (readOperator c rest) as [t s'].
Qed.

Lemma stripSpace_app (w r : string) :
  noSpace w = true → stripSpace (w ++ r) = (w ++ stripSpace r)%string.
Proof.
  induction w as [|c w IH]; simpl; [done|].
  intros [Hc Hw]%andb_prop. apply negb_true_iff in Hc. rewrite Hc.
  by rewrite IH.
Qed.

Lemma tokenizeLoop_lexemes (fuel : nat) :
  ∀ s toks, tokenizeLoop fuel s = Some toks → lexemes toks = stripSpace s.
Proof.
  induction fuel as [|fuel IH]; intros [|c rest] toks Hrun; simpl in Hrun;
    try discriminate; try (by injection Hrun as <-).
  pose proof (tokenizeStep_split c rest) as Hstep.
  destruct (tokenizeStep c rest) as [ot s']; simpl in Hstep.
  destruct (tokenizeLoop fuel s') as [toks'|] eqn:Hrec; [|discriminate].
  injection Hrun as <-. apply IH in Hrec.
  destruct ot as [t|].
  - destruct Hstep as (_ & -> & Hns). simpl.
    by rewrite stripSpace_app, Hrec.
  - destruct Hstep as [Hsp ->]. simpl. by rewrite Hsp.
Qed.

(** X1.  The lexemes of the tokens of a source text, put one after the
    other, are the source text without its whitespace: the tokenizer
    drops whitespace and nothing else, and changes no character. *)
Theorem lexemes_are_the_source (source : string) :
  ∃ toks, tokenize source = Some toks ∧ lexemes toks = stripSpace source.
Proof.
  unfold tokenize.
  destruct (tokenizeLoop_total (String.length source) source) as [toks Hrun];
    [lia|].
  exists toks. split; [exact Hrun|]. by eapply tokenizeLoop_lexemes.
Qed.

(** ** The type of a token fits its lexeme *)

Lemma count_keywords (k : string) :
  count keywords k = true →
  k = "var" ∨ k = "integer" ∨ k = "longint" ∨ k = "bool" ∨ k = "if"
  ∨ k = "then" ∨ k = "else" ∨ k = "while" ∨ k = "do" ∨ k = "for"
  ∨ k = "begin" ∨ k = "end" ∨ k = "and" ∨ k = "or".
Proof.
  intros H%bool_decide_eq_true. unfold keywords in H.
  repeat (apply elem_of_cons in H as [->|H]; [tauto|]).
  by apply elem_of_nil in H.
Qed.

Lemma keyword_fixedLexeme (k : string) :
  count keywords k = true → fixedLexeme (getKeywordType k) = Some k.
Proof.
  intros Hk%count_keywords.
  repeat (destruct Hk as [->|Hk]; [by vm_compute|]). subst. by vm_compute.
Qed.

Lemma not_keyword_type (k : string) :
  count keywords k = false → getKeywordType k = ERROR.
Proof.
  intros Hk. unfold getKeywordType.
  repeat match goal with
         | |- context [String.eqb k ?s] =>
             destruct (String.eqb_spec k s) as [->|_];
             [by vm_compute in Hk|]
         end.
  reflexivity.
Qed.

(** X2.  [getKeywordType] and the set [keywords] agree: the fallback
    [ERROR] is returned exactly for the texts that are not in the set,
    and a text in the set gets the type whose lexeme it is. *)
Theorem getKeywordType_keywords (k : string) :
  count keywords k = negb (bool_decide (getKeywordType k = ERROR))
  ∧ (if count keywords k
     then fixedLexeme (getKeywordType k) = Some k
     else getKeywordType k = ERROR).
Proof.
  destruct (count keywords k) eqn:Hk.
  - pose proof (keyword_fixedLexeme k Hk) as Hty.
    split; [|exact Hty].
    destruct (getKeywordType k); try discriminate; reflexivity.
  - pose proof (not_keyword_type k Hk) as Hty.
    split; [|exact Hty]. by rewrite Hty.
Qed.

Lemma alpha_not_digit (c : ascii) : isalpha c = true → isdigit c = false.
Proof.
  destruct c as [[] [] [] [] [] [] [] []]; vm_compute; congruence.
Qed.

Lemma single_char_no_keyword (c : ascii) :
  count keywords (toLower (String c EmptyString)) = false.
Proof.
  destruct (count keywords (toLower (String c EmptyString))) eqn:Hk; [|done].
  apply count_keywords in Hk. simpl in Hk.
  repeat (destruct Hk as [Hk|Hk]; [discriminate|]). discriminate.
Qed.

Lemma scanDigits_allDigits (s : string) : allDigits (scanDigits s).1 = true.
Proof.
  induction s as [|c rest IH]; simpl; [done|].
  destruct (isdigit c) eqn:Hd; simpl; [|done].
  destruct (scanDigits rest); simpl in *. by rewrite Hd.
Qed.

Lemma readIdentifierOrKeyword_wellFormed (s : string) :
  wellFormedToken (readIdentifierOrKeyword s).1 = true.
Proof.
  unfold readIdentifierOrKeyword.
  destruct (scanWord s) as [w s']; simpl.
  destruct (count keywords (toLower w)) eqn:Hk; simpl.
  - pose proof (keyword_fixedLexeme (toLower w) Hk) as Hty.
    unfold wellFormedToken; simpl.
    destruct (getKeywordType (toLower w)); try discriminate;
      by apply bool_decide_eq_true_2.
  - destruct (isalpha (firstChar w)) eqn:Ha; simpl.
    + destruct (allAlnum w) eqn:Hn; unfold wellFormedToken; simpl;
        by rewrite Ha, Hn, Hk.
    + unfold wellFormedToken; simpl. by rewrite Ha, Hk.
Qed.

Lemma readNumber_wellFormed (c : ascii) (rest : string) :
  isdigit c = true → wellFormedToken (readNumber (String c rest)).1 = true.
Proof.
  intros Hd. unfold readNumber.
  pose proof (scanDigits_allDigits (String c rest)) as Hall.
  simpl in *. rewrite Hd in *.
  destruct (scanDigits rest) as [w s']; simpl in *.
  unfold wellFormedToken; simpl. rewrite ?Hd in *. simpl in *. exact Hall.
Qed.

Lemma readOperator_wellFormed (c : ascii) (rest : string) :
  isalpha c = false → wellFormedToken (readOperator c rest).1 = true.
Proof.
  intros Ha. unfold readOperator.
  repeat match goal with
         | |- context [if ?b then _ else _] => destruct b
         end; try reflexivity.
  unfold wellFormedToken; cbn [type value fst].
  rewrite (single_char_no_keyword c). simpl. by rewrite Ha.
Qed.

Lemma tokenizeStep_wellFormed (c : ascii) (rest : string) (t : Token) :
  (tokenizeStep c rest).1 = Some t → wellFormedToken t = true.
Proof.
  unfold tokenizeStep.
  destruct (isspace c); [discriminate|].
  destruct (isalpha c) eqn:Ha.
  - pose proof (readIdentifierOrKeyword_wellFormed (String c rest)) as H.
    destruct (readIdentifierOrKeyword (String c rest)); simpl in *. congruence.
  - destruct (isdigit c) eqn:Hd.
    + pose proof (readNumber_wellFormed c rest Hd) as H.
      destruct (readNumber (String c rest)); simpl in *. congruence.
    + pose proof (readOperator_wellFormed c rest Ha) as H.
      destruct (readOperator c rest); simpl in *. congruence.
Qed.

Lemma tokenizeLoop_wellFormed (fuel : nat) :
  ∀ s toks, tokenizeLoop fuel s = Some toks →
    Forall (λ t, wellFormedToken t = true) toks.
Proof.
  induction fuel as [|fuel IH]; intros [|c rest] toks Hrun; simpl in Hrun;
    try discriminate; try (by injection Hrun as <-).
  pose proof (tokenizeStep_wellFormed c rest) as Hstep.
  destruct (tokenizeStep c rest) as [ot s']; simpl in Hstep.
  destruct (tokenizeLoop fuel s') as [toks'|] eqn:Hrec; [|discriminate].
  injection Hrun as <-. apply IH in Hrec.
  destruct ot as [t|]; [|done]. constructor; [by apply Hstep|done].
Qed.

(** X3.  In the tokens of any source text the type of every token fits
    its lexeme, in the sense of [wellFormedToken]. *)
Theorem tokens_are_wellFormed (source : string) :
  ∃ toks, tokenize source = Some toks
          ∧ Forall (λ t, wellFormedToken t = true) toks.
Proof.
  unfold tokenize.
  destruct (tokenizeLoop_total (String.length source) source) as [toks Hrun];
    [lia|].
  exists toks. split; [exact Hrun|]. by eapply tokenizeLoop_wellFormed.
Qed.

(** ** The type-name test of the declaration validator *)

Lemma count_types (k : string) :
  count types k = true → k = "integer" ∨ k = "longint" ∨ k = "bool".
Proof.
  intros H%bool_decide_eq_true. unfold types in H.
  repeat (apply elem_of_cons in H as [->|H]; [tauto|]).
  by apply elem_of_nil in H.
Qed.

Lemma types_are_keywords (k : string) :
  count keywords k = false → count types k = false.
Proof.
  intros Hk. destruct (count types k) eqn:Ht; [|done].
  apply count_types in Ht as [-> | [-> | ->]]; by vm_compute in Hk.
Qed.

Lemma digit_tolower (c : ascii) : isdigit c = true → tolower c = c.
Proof.
  destruct c as [[] [] [] [] [] [] [] []]; vm_compute; congruence.
Qed.

Lemma digit_led_no_type (v : string) :
  isdigit (firstChar v) = true → count types (toLower v) = false.
Proof.
  intros Hd. destruct (count types (toLower v)) eqn:Ht; [|done].
  destruct v as [|c v]; [by vm_compute in Hd|]. simpl in *.
  rewrite (digit_tolower c Hd) in Ht.
  apply count_types in Ht as [Ht|[Ht|Ht]]; injection Ht as Hc Hv; subst c;
    by vm_compute in Hd.
Qed.

Lemma wellFormed_type_test (t : Token) :
  wellFormedToken t = true →
  count types (toLower (value t)) = isTypeKeyword (type t).
Proof.
  destruct t as [ty v]. unfold wellFormedToken, isTypeKeyword. simpl.
  destruct ty; simpl; intros H;
    try (apply bool_decide_eq_true in H; injection H as <-; by vm_compute).
  - apply andb_prop in H as [_ H%negb_true_iff].
    by rewrite (types_are_keywords _ H).
  - apply andb_prop in H as [H _]. by rewrite (digit_led_no_type _ H).
  - apply andb_prop in H as [_ H%negb_true_iff].
    by rewrite (types_are_keywords _ H).
Qed.

(** X4.  [parseDefinitionBody] recognises a type name by its lexeme in
    lower case, not by its token type.  On the tokens of a source text
    the two agree: a token passes the test exactly when it is one of
    the keywords [integer], [longint], [bool], in any letter case. *)
Theorem type_test_is_by_keyword (source : string) (toks : list Token)
    (t : Token) :
  tokenize source = Some toks → t ∈ toks →
  count types (toLower (value t)) = isTypeKeyword (type t).
Proof.
  intros Hrun Hin. apply wellFormed_type_test.
  apply tokenizeLoop_wellFormed in Hrun.
  by apply (proj1 (Forall_forall _ _) Hrun).
Qed.

(** The second token of ["x:LongInt;"] is not a type name, the third is. *)
Lemma type_test_witness :
  count types (toLower ":") = isTypeKeyword DELIMITER_COLON
  ∧ count types (toLower "LongInt") = isTypeKeyword KEYWORD_LONGINT.
Proof.
  assert (Hrun : tokenize "x:LongInt;"
                 = Some [mkToken IDENTIFIER "x"; mkToken DELIMITER_COLON ":";
                         mkToken KEYWORD_LONGINT "LongInt";
                         mkToken DELIMITER_SEMICOLON ";"])
    by (vm_compute; reflexivity).
  split.
  - apply (type_test_is_by_keyword _ _ (mkToken DELIMITER_COLON ":") Hrun).
    apply (bool_decide_unpack _). vm_compute. exact I.
  - apply (type_test_is_by_keyword _ _ (mkToken KEYWORD_LONGINT "LongInt")
             Hrun).
    apply (bool_decide_unpack _). vm_compute. exact I.
Defined.

(** ** Whitespace separates tokens *)

Section Separator.

Variables (sp : ascii) (s2 : string).
Hypothesis Hsp : isspace sp = true.

Lemma space_not_digit : isdigit sp = false.
Proof.
  destruct (isdigit sp) eqn:Hd; [|done].
  apply isdigit_not_space in Hd. congruence.
Qed.

Lemma space_nextIs (rest : string) (d : ascii) :
  isspace d = false →
  nextIs (rest ++ String sp s2) d = nextIs rest d
  ∧ (nextIs rest d = true →
     skip1 (rest ++ String sp s2) = (skip1 rest ++ String sp s2)%string).
Proof.
  intros Hd. destruct rest as [|c1 rest]; simpl; [|done].
  split; [|discriminate].
  destruct (Ascii.eqb_spec sp d) as [->|_]; [congruence|done].
Qed.

Lemma scanWord_app (s : string) :
  scanWord (s ++ String sp s2)
  = ((scanWord s).1, ((scanWord s).2 ++ String sp s2)%string).
Proof.
  induction s as [|c rest IH]; simpl.
  - by rewrite Hsp.
  - destruct (negb (isspace c) && negb (isDelimiter c)); [|done].
    rewrite IH. by destruct (scanWord rest).
Qed.

Lemma scanDigits_app (s : string) :
  scanDigits (s ++ String sp s2)
  = ((scanDigits s).1, ((scanDigits s).2 ++ String sp s2)%string).
Proof.
  induction s as [|c rest IH]; simpl.
  - by rewrite space_not_digit.
  - destruct (isdigit c); [|done].
    rewrite IH. by destruct (scanDigits rest).
Qed.

Lemma readOperator_app (c : ascii) (rest : string) :
  readOperator c (rest ++ String sp s2)
  = ((readOperator c rest).1,
     ((readOperator c rest).2 ++ String sp s2)%string).
Proof.
  unfold readOperator.
  destruct (space_nextIs rest "=" eq_refl) as [-> Heq].
  destruct (space_nextIs rest ">" eq_refl) as [-> Hgt].
  repeat match goal with
         | |- context [if (c =? ?d)%char then _ else _] =>
             destruct (c =? d)%char
         | |- context [if nextIs rest ?d then _ else _] =>
             destruct (nextIs rest d)
         end; simpl; rewrite ?Heq, ?Hgt by done; reflexivity.
Qed.

Lemma tokenizeStep_app (c : ascii) (rest : string) :
  tokenizeStep c (rest ++ String sp s2)
  = ((tokenizeStep c rest).1,
     ((tokenizeStep c rest).2 ++ String sp s2)%string).
Proof.
  unfold tokenizeStep, readIdentifierOrKeyword, readNumber.
  destruct (isspace c); [done|].
  destruct (isalpha c).
  - change (String c (rest ++ String sp s2))
      with (String c rest ++ String sp s2)%string.
    rewrite scanWord_app. destruct (scanWord (String c rest)) as [w s'].
    simpl. destruct (count keywords (toLower w)); [done|].
    destruct (negb (isalpha (firstChar w))); [done|].
    by destruct (negb (allAlnum w)).
  - destruct (isdigit c).
    + change (String c (rest ++ String sp s2))
        with (String c rest ++ String sp s2)%string.
      rewrite scanDigits_app. by destruct (scanDigits (String c rest)).
    + rewrite readOperator_app. by destruct (readOperator c rest).
Qed.

Lemma tokenizeLoop_app (fuel fuel2 : nat) (toks2 : list Token) :
  tokenizeLoop fuel2 s2 = Some toks2 →
  ∀ s toks1, tokenizeLoop fuel s = Some toks1 →
    tokenizeLoop (fuel + S fuel2) (s ++ String sp s2) = Some (toks1 ++ toks2).
Proof.
  intros H2. induction fuel as [|fuel IH]; intros [|c rest] toks1 Hrun;
    simpl in Hrun; try discriminate.
  - injection Hrun as <-. simpl. unfold tokenizeStep. by rewrite Hsp, H2.
  - injection Hrun as <-.
    apply (tokenizeLoop_fuel (S fuel2)); [|lia].
    simpl. unfold tokenizeStep. by rewrite Hsp, H2.
  - change (S fuel + S fuel2) with (S (fuel + S fuel2)).
    change (String c rest ++ String sp s2)%string
      with (String c (rest ++ String sp s2)).
    cbn [tokenizeLoop]. rewrite tokenizeStep_app.
    destruct (tokenizeStep c rest) as [ot s']. simpl.
    destruct (tokenizeLoop fuel s') as [toks'|] eqn:Hrec; [|discriminate].
    injection Hrun as <-. rewrite (IH _ _ Hrec). by destruct ot.
Qed.

End Separator.

Lemma length_append (s1 s2 : string) :
  String.length (s1 ++ s2) = String.length s1 + String.length s2.
Proof. induction s1 as [|c s1 IH]; simpl; [done|]. by rewrite IH. Qed.

(** X5.  No token runs across whitespace: the tokens of two texts
    joined by a whitespace character are the tokens of the first
    followed by the tokens of the second. *)
Theorem tokenize_separated (s1 s2 : string) (sp : ascii)
    (toks1 toks2 : list Token) :
  isspace sp = true →
  tokenize s1 = Some toks1 → tokenize s2 = Some toks2 →
  tokenize (s1 ++ String sp s2) = Some (toks1 ++ toks2).
Proof.
  unfold tokenize. intros Hsp H1 H2.
  rewrite length_append. simpl.
  by apply tokenizeLoop_app.
Qed.

Lemma tokenize_separated_witness :
  tokenize ("i:=" ++ String "010" "=0;")
  = Some ([mkToken IDENTIFIER "i"; mkToken OPERATOR_ASSIGN ":="]
          ++ [mkToken ERROR "="; mkToken NUMBER "0";
              mkToken DELIMITER_SEMICOLON ";"]).
Proof.
  apply tokenize_separated; vm_compute; reflexivity.
Defined.

(** ** Letter case *)

Lemma isalpha_tolower (c : ascii) : isalpha (tolower c) = isalpha c.
Proof. destruct c as [[] [] [] [] [] [] [] []]; reflexivity. Qed.

Lemma isalnum_tolower (c : ascii) : isalnum (tolower c) = isalnum c.
Proof. destruct c as [[] [] [] [] [] [] [] []]; reflexivity. Qed.

Lemma firstChar_toLower (w : string) :
  isalpha (firstChar (toLower w)) = isalpha (firstChar w).
Proof. destruct w as [|c w]; simpl; [done|]. apply isalpha_tolower. Qed.

Lemma allAlnum_toLower (w : string) : allAlnum (toLower w) = allAlnum w.
Proof.
  induction w as [|c w IH]; simpl; [done|]. by rewrite isalnum_tolower, IH.
Qed.

(** X6.  The type of the token that [readIdentifierOrKeyword] returns
    depends on the scanned text only up to letter case: two texts that
    are equal in lower case are both the same keyword, both identifiers
    or both error tokens. *)
Theorem word_type_ignores_case (s1 s2 : string) :
  toLower (scanWord s1).1 = toLower (scanWord s2).1 →
  type (readIdentifierOrKeyword s1).1 = type (readIdentifierOrKeyword s2).1.
Proof.
  unfold readIdentifierOrKeyword.
  destruct (scanWord s1) as [w1 r1], (scanWord s2) as [w2 r2]. simpl.
  intros Hlow.
  rewrite <- (firstChar_toLower w1), <- (firstChar_toLower w2).
  rewrite <- (allAlnum_toLower w1), <- (allAlnum_toLower w2).
  rewrite Hlow. by repeat case_match.
Qed.

Lemma word_type_witness :
  type (readIdentifierOrKeyword "BEGIN x").1
  = type (readIdentifierOrKeyword "begin;").1.
Proof. apply word_type_ignores_case. vm_compute. reflexivity. Defined.

(** ** An open block is never closed *)

Lemma realizationStep_keeps_open (fuel : nat) (t : Token) (a a1 : Analyzer)
    (blockStack blockStack1 : list string) :
  realizationStep fuel t a blockStack = Some (Continue (a1, blockStack1)) →
  type t ≠ KEYWORD_END → blockStack ≠ [] → blockStack1 ≠ [].
Proof.
  unfold realizationStep. intros Hrun Hend Hne.
  repeat case_match; simplify_eq; try done.
  - unfold withStack in *. case_match; by simplify_eq.
  - apply fmap_Some in Hrun as (r & _ & Hr). unfold withStack in Hr.
    case_match; by simplify_eq.
  - apply fmap_Some in Hrun as (r & _ & Hr). unfold withStack in Hr.
    case_match; by simplify_eq.
  - match goal with
    | H : bool_decide (type t = KEYWORD_END) = true |- _ =>
        by apply bool_decide_eq_true in H
    end.
Qed.

Lemma realizationLoop_open (fuel : nat) :
  ∀ a blockStack a', blockStack ≠ [] →
    realizationLoop fuel a blockStack = Some a' → failed a a'.
Proof.
  induction fuel as [|fuel IH]; intros a blockStack a' Hne Hrun;
    simpl in Hrun; [discriminate|].
  assert (Hc : failed a (checkClosed a blockStack)).
  { destruct blockStack; [done|]. simpl. eauto with flow. }
  destruct (current a) as [t|]; [|by injection Hrun as <-].
  destruct (bool_decide (type t = KEYWORD_END)) eqn:Hend;
    [by injection Hrun as <-|].
  apply bool_decide_eq_false in Hend.
  destruct (realizationStep fuel t a blockStack) as [[[a1 st1]|a1]|] eqn:Hs;
    [| |discriminate].
  - pose proof (realizationStep_keeps_open _ _ _ _ _ _ Hs Hend Hne) as Hne1.
    apply realizationStep_inv in Hs. simpl in Hs.
    eapply failed_after; [exact Hs|]. by eapply IH.
  - apply realizationStep_inv in Hs. by injection Hrun as <-.
Qed.

Lemma realizationLoop_block (fuel : nat) (a a' : Analyzer) (t : Token)
    (blockStack : list string) :
  current a = Some t →
  type t = KEYWORD_WHILE ∨ type t = KEYWORD_IF ∨ type t = KEYWORD_BEGIN →
  realizationLoop fuel a blockStack = Some a' → failed a a'.
Proof.
  intros Hcur Hty Hrun.
  destruct fuel as [|fuel]; [discriminate|]. simpl in Hrun.
  rewrite Hcur in Hrun.
  rewrite bool_decide_eq_false_2 in Hrun by (intros ?; intuition congruence).
  destruct (realizationStep fuel t a blockStack) as [[[a1 st1]|a1]|] eqn:Hs;
    [| |discriminate].
  - assert (Hne : st1 ≠ []).
    { unfold realizationStep in Hs.
      destruct Hty as [Hty|[Hty|Hty]]; rewrite Hty in Hs; simpl in Hs.
      - apply fmap_Some in Hs as (r & _ & Hr). unfold withStack in Hr.
        case_match; by simplify_eq.
      - apply fmap_Some in Hs as (r & _ & Hr). unfold withStack in Hr.
        case_match; by simplify_eq.
      - by simplify_eq. }
    apply realizationStep_inv in Hs. simpl in Hs.
    eapply failed_after; [exact Hs|]. by eapply realizationLoop_open.
  - apply realizationStep_inv in Hs. by injection Hrun as <-.
Qed.

(** X7.  Once the loop of the structural validator stands at a
    [while], [if] or [begin] token, at any nesting, it cannot return
    without a diagnostic.  With the fuel the driver passes it does
    return, and exactly one diagnostic is added whatever the tokens
    that follow; and with any amount of fuel, whenever it returns,
    exactly one diagnostic is added. *)
Theorem block_is_never_accepted (a : Analyzer) (t : Token)
    (blockStack : list string) :
  current a = Some t →
  type t = KEYWORD_WHILE ∨ type t = KEYWORD_IF ∨ type t = KEYWORD_BEGIN →
  (∃ a' : Analyzer,
      realizationLoop (S (length (tokens a))) a blockStack = Some a'
      ∧ ∃ msg : string, errors a' = errors a ++ [msg])
  ∧ (∀ (fuel : nat) (a' : Analyzer),
      realizationLoop fuel a blockStack = Some a' →
      ∃ msg : string, errors a' = errors a ++ [msg]).
Proof.
  intros Hcur Hty.
  assert (Hany : ∀ (fuel : nat) (a' : Analyzer),
             realizationLoop fuel a blockStack = Some a' →
             ∃ msg : string, errors a' = errors a ++ [msg]).
  { intros fuel a' Hrun.
    by destruct (realizationLoop_block fuel a a' t blockStack Hcur Hty Hrun)
      as (_ & _ & H). }
  split; [|exact Hany].
  destruct (realizationLoop_total (S (length (tokens a))) a blockStack)
    as [a' Ha'].
  { unfold remaining. lia. }
  exists a'. split; [exact Ha'|]. by eapply Hany.
Qed.

(** On [tokensWhile] with [i] declared: the [while] block is passed and
    the run ends on the [end] that follows it with a diagnostic. *)
Lemma block_is_never_accepted_witness :
  realizationLoop (S (length tokensWhile))
    (mkAnalyzer tokensWhile 0 (<["i" := "integer"]> ∅) []) []
  = Some (mkAnalyzer tokensWhile 14 (<["i" := "integer"]> ∅)
            [(msgMissingEndFor ++ "while")%string])
  ∧ ∃ msg : string,
      errors (mkAnalyzer tokensWhile 14 (<["i" := "integer"]> ∅)
                [(msgMissingEndFor ++ "while")%string])
      = errors (mkAnalyzer tokensWhile 0 (<["i" := "integer"]> ∅) []) ++ [msg].
Proof.
  assert (Hrun : realizationLoop (S (length tokensWhile))
                   (mkAnalyzer tokensWhile 0 (<["i" := "integer"]> ∅) []) []
                 = Some (mkAnalyzer tokensWhile 14 (<["i" := "integer"]> ∅)
                           [(msgMissingEndFor ++ "while")%string]))
    by (vm_compute; reflexivity).
  split; [exact Hrun|].
  exact (proj2 (block_is_never_accepted
                  (mkAnalyzer tokensWhile 0 (<["i" := "integer"]> ∅) [])
                  (mkToken KEYWORD_WHILE "while") []
                  eq_refl (or_introl eq_refl))
           _ _ Hrun).
Defined.

(** * The accepted programs *)

(** ** Every program of the grammar is accepted *)

Lemma setTable_id (a : Analyzer) : setTable (symbolTable a) a = a.
Proof. by destruct a. Qed.

Lemma defineAll_setTable (vars : list string) (varType : string) :
  ∀ a, defineAll vars varType a
       = setTable (insertAll vars varType (symbolTable a)) a.
Proof.
  induction vars as [|var vars IH]; intros a; simpl; [by rewrite setTable_id|].
  apply (IH (define var varType a)).
Qed.

Lemma declareVars_fresh (vars : list string) (varType : string) :
  ∀ a, NoDup vars → (∀ x, x ∈ vars → symbolTable a !! x = None) →
    declareVars vars varType a = Continue (defineAll vars varType a).
Proof.
  induction vars as [|var vars IH]; intros a Hnd Hfresh; simpl; [done|].
  apply NoDup_cons in Hnd as [Hvar Hnd].
  unfold defined. rewrite bool_decide_eq_false_2.
  2: { rewrite Hfresh by (apply elem_of_cons; by left). by intros [? ?]. }
  apply IH; [done|]. intros x Hx. simpl.
  rewrite lookup_insert_ne by (by intros ->).
  apply Hfresh, elem_of_cons. by right.
Qed.

Lemma commaLoop_nameList (l : list Token) (names : list string) :
  nameList l names →
  ∀ (fuel : nat) (a : Analyzer) (vars : list string) (sep : Token)
    (rest : list Token),
    upcoming a = l ++ sep :: rest → type sep ≠ DELIMITER_COMMA →
    length l < fuel →
    commaLoop fuel a vars = Some (Continue (jump (length l) a, vars ++ names)).
Proof.
  induction 1 as [|c t l names Hc Ht Hl IH];
    intros fuel a vars sep rest Hup Hsep Hfuel;
    (destruct fuel as [|fuel]; [simpl in Hfuel; lia|]); simpl in Hup |- *.
  - rewrite (typeIs_upcoming _ _ _ _ Hup), bool_decide_eq_false_2 by done.
    by rewrite jump_0, app_nil_r.
  - rewrite (typeIs_upcoming _ _ _ _ Hup), bool_decide_eq_true_2 by done.
    apply upcoming_cons in Hup as [_ Hup].
    apply upcoming_cons in Hup as [-> Hup].
    rewrite Ht. simpl. simpl in Hfuel.
    rewrite (IH fuel _ _ sep rest Hup Hsep) by lia.
    rewrite !jump_advance, <- app_assoc. done.
Qed.

Lemma nameList_length (l : list Token) (names : list string) :
  nameList l names → length l = 2 * length names.
Proof. induction 1; simpl; lia. Qed.

Lemma upcoming_app (n : nat) (a : Analyzer) (l rest : list Token) :
  upcoming a = l ++ rest → n = length l → upcoming (jump n a) = rest.
Proof. intros Hup ->. by rewrite upcoming_jump, Hup, drop_app_length. Qed.

Lemma definitionStep_group (g : list Token) (names : list string)
    (varType : string) :
  declGroup g names varType →
  ∀ (fuel : nat) (a : Analyzer) (rest : list Token),
    upcoming a = g ++ rest → NoDup names →
    (∀ x, x ∈ names → symbolTable a !! x = None) →
    length g ≤ fuel →
    ∃ t, current a = Some t ∧ type t = IDENTIFIER
         ∧ definitionStep fuel t a
           = Some (Continue
                     (setTable (insertAll names varType (symbolTable a))
                        (jump (length g) a))).
Proof.
  intros [t0 colon ty semi l names0 Ht0 Hl Hcolon Hty Hsemi]
    fuel a rest Hup Hnd Hfresh Hfuel.
  simpl in Hup, Hfuel. rewrite length_app in Hfuel. simpl in Hfuel.
  rewrite <- app_assoc in Hup. simpl in Hup.
  apply upcoming_cons in Hup as [Hcur Hup].
  exists t0. split; [exact Hcur|]. split; [exact Ht0|].
  unfold definitionStep. rewrite Ht0. simpl.
  rewrite (commaLoop_nameList l names0 Hl fuel (advance a) [value t0]
             colon (ty :: semi :: rest) Hup)
    by (rewrite ?Hcolon; first [done | lia]).
  set (a1 := jump (length l) (advance a)).
  assert (Hup1 : upcoming a1 = colon :: ty :: semi :: rest)
    by (by apply (upcoming_app _ _ l)).
  unfold typeIsNot. rewrite !(typeIs_upcoming _ _ _ _ Hup1), Hcolon.
  rewrite bool_decide_eq_false_2, bool_decide_eq_true_2 by done.
  cbn [negb].
  apply upcoming_cons in Hup1 as [_ Hup1].
  apply upcoming_cons in Hup1 as [-> Hup1].
  rewrite Hty. cbn [negb].
  change ([value t0] ++ names0) with (value t0 :: names0).
  rewrite declareVars_fresh by done.
  rewrite defineAll_setTable.
  set (a2 := setTable _ _).
  assert (Hup2 : upcoming a2 = semi :: rest) by exact Hup1.
  rewrite (typeIs_upcoming _ _ _ _ Hup2), Hsemi.
  rewrite bool_decide_eq_true_2 by done. cbn [negb].
  unfold a2, a1, setTable, jump, advance. simpl.
  do 3 f_equal. f_equal. rewrite length_app. simpl. lia.
Qed.

Lemma declGroup_length (g : list Token) (names : list string)
    (varType : string) :
  declGroup g names varType → 4 ≤ length g.
Proof. intros []. simpl. rewrite length_app. simpl. lia. Qed.

Lemma parseDefinitionBody_declarations (m m' : gmap string string)
    (d : list Token) :
  declarations m d m' →
  ∀ (fuel : nat) (a : Analyzer) (rest : list Token),
    symbolTable a = m → upcoming a = d ++ rest →
    startsWith KEYWORD_BEGIN rest = true ∨ rest = [] →
    length d < fuel →
    parseDefinitionBody fuel a = Some (setTable m' (jump (length d) a)).
Proof.
  induction 1 as [m|m m' g rest0 names varType Hg Hnd Hfresh Hd IH];
    intros fuel a rest Hm Hup Hrest Hfuel;
    (destruct fuel as [|fuel]; [lia|]); simpl in Hup |- *.
  - rewrite jump_0, <- Hm, setTable_id.
    rewrite current_upcoming, Hup.
    destruct Hrest as [Hb| ->]; [|done].
    destruct rest as [|t rest]; [done|]. simpl in *. by rewrite Hb.
  - rewrite <- app_assoc in Hup. rewrite length_app in Hfuel.
    pose proof (declGroup_length _ _ _ Hg) as Hlen.
    destruct (definitionStep_group g names varType Hg fuel a (rest0 ++ rest)
                Hup Hnd) as (t & -> & Hty & ->);
      [by rewrite Hm|lia|].
    rewrite Hty. simpl.
    rewrite (IH fuel _ rest); [|by rewrite Hm| |done|lia].
    + unfold setTable, jump. simpl. do 2 f_equal.
      rewrite length_app. lia.
    + by apply (upcoming_app _ _ g).
Qed.

Lemma assignment_stmt (m : gmap string string) (s : list Token) :
  assignStmt m s →
  ∀ (a : Analyzer) (rest : list Token),
    symbolTable a = m → upcoming a = s ++ rest →
    ∃ t, current a = Some t ∧ type t = IDENTIFIER
         ∧ assignment t a = Continue (jump 4 a).
Proof.
  intros [tx op v semi Htx Hx Hop Hv Hsemi] a rest Hm Hup. simpl in Hup.
  apply upcoming_cons in Hup as [Hcur Hup].
  exists tx. split; [exact Hcur|]. split; [exact Htx|].
  unfold assignment, defined. rewrite Hm.
  rewrite bool_decide_eq_true_2 by done. cbn [negb].
  unfold typeIsNot. rewrite (typeIs_upcoming _ _ _ _ Hup), Hop.
  rewrite bool_decide_eq_true_2 by done. cbn [negb].
  apply upcoming_cons in Hup as [_ Hup].
  pose proof Hup as [-> Hup']%upcoming_cons.
  assert (Hchk : negb (bool_decide (type v = NUMBER))
                 && negb (bool_decide (type v = IDENTIFIER)) = false
                 ∧ bool_decide (type v = IDENTIFIER)
                   && negb (bool_decide
                              (is_Some (symbolTable (advance (advance a))
                                          !! value v))) = false).
  { simpl. rewrite Hm. destruct Hv as [Hv|[Hv Hin]]; rewrite Hv; simpl.
    - done.
    - by rewrite bool_decide_eq_true_2. }
  destruct Hchk as [-> ->].
  rewrite (typeIs_upcoming _ _ _ _ Hup'), Hsemi.
  rewrite bool_decide_eq_true_2 by done. cbn [negb].
  unfold jump, advance. simpl. do 2 f_equal. lia.
Qed.

Lemma realizationLoop_assignments (m : gmap string string) (b : list Token) :
  assignments m b →
  ∀ (fuel : nat) (a : Analyzer) (rest : list Token),
    symbolTable a = m → upcoming a = b ++ rest →
    startsWith KEYWORD_END rest = true ∨ rest = [] →
    length b < fuel →
    realizationLoop fuel a [] = Some (jump (length b) a).
Proof.
  induction 1 as [|s rest0 Hs Hb IH]; intros fuel a rest Hm Hup Hrest Hfuel;
    (destruct fuel as [|fuel]; [lia|]); simpl in Hup |- *.
  - rewrite jump_0, current_upcoming, Hup.
    destruct Hrest as [He| ->]; [|done].
    destruct rest as [|t rest]; [done|]. simpl in *. by rewrite He.
  - rewrite <- app_assoc in Hup. rewrite length_app in Hfuel.
    destruct (assignment_stmt m s Hs a (rest0 ++ rest) Hm Hup)
      as (t & -> & Hty & Hrun).
    assert (Hlen : length s = 4) by (by destruct Hs).
    rewrite Hty. simpl. unfold realizationStep. rewrite Hty. simpl.
    rewrite Hrun. simpl.
    rewrite (IH fuel _ rest); [|done| |done|lia].
    + unfold jump. simpl. do 2 f_equal. rewrite length_app. lia.
    + apply (upcoming_app _ _ s); [done|lia].
Qed.

Lemma parse_declarations (fuel : nat) (toks d rest : list Token)
    (tv : Token) (m : gmap string string) :
  toks = tv :: d ++ rest → type tv = KEYWORD_VAR → declarations ∅ d m →
  startsWith KEYWORD_BEGIN rest = true ∨ rest = [] →
  length toks < fuel →
  typeIsNot (initial toks) KEYWORD_VAR = false
  ∧ parseDefinitionBody fuel (advance (initial toks))
    = Some (mkAnalyzer toks (S (length d)) m [])
  ∧ upcoming (mkAnalyzer toks (S (length d)) m []) = rest.
Proof.
  intros Htoks Htv Hd Hrest Hfuel.
  assert (Hup : upcoming (initial toks) = tv :: d ++ rest) by (by subst toks).
  split.
  { unfold typeIsNot. rewrite (typeIs_upcoming _ _ _ _ Hup), Htv.
    by rewrite bool_decide_eq_true_2. }
  apply upcoming_cons in Hup as [_ Hup].
  split.
  - rewrite (parseDefinitionBody_declarations ∅ m d Hd fuel
               (advance (initial toks)) rest eq_refl Hup Hrest).
    + reflexivity.
    + subst toks. simpl in Hfuel. rewrite length_app in Hfuel. lia.
  - by apply (upcoming_app (length d) (advance (initial toks)) d rest).
Qed.

(** X8.  Every token list of the form [var] declarations [begin]
    assignments [end] followed by any tokens, in the sense of
    [program], is accepted: no diagnostic, the symbol table holds the
    declared names with their types in lower case, and [tokenPos] is on
    the [end]. *)
Theorem program_accepted (m : gmap string string) (toks : list Token)
    (pos : nat) :
  program m toks pos → analyzeTokens toks = Some (mkAnalyzer toks pos m []).
Proof.
  intros [tv tb te d b trailing Htv Hd Htb Hb Hte].
  set (ts := tv :: d ++ tb :: b ++ te :: trailing).
  destruct (parse_declarations (S (length ts)) ts d
              (tb :: b ++ te :: trailing) tv m eq_refl Htv Hd)
    as (Hvar & Hdecl & Hup); [left; simpl; by rewrite Htb, bool_decide_eq_true_2|lia|].
  change (analyzeTokens ts) with (parse (S (length ts)) (initial ts)).
  unfold parse, parseRealizationBody. rewrite Hvar, Hdecl.
  set (a1 := mkAnalyzer ts (S (length d)) m []) in *.
  unfold typeIsNot at 1. rewrite (typeIs_upcoming _ _ _ _ Hup), Htb.
  rewrite bool_decide_eq_true_2 by done.
  change (noErrors a1) with true. cbn [andb negb].
  apply upcoming_cons in Hup as [_ Hup].
  rewrite (realizationLoop_assignments m b Hb (S (length ts)) (advance a1)
             (te :: trailing) eq_refl Hup).
  - set (a2 := jump (length b) (advance a1)).
    assert (Hup2 : upcoming a2 = te :: trailing)
      by (by apply (upcoming_app _ _ b)).
    unfold typeIsNot. rewrite (typeIs_upcoming _ _ _ _ Hup2), Hte.
    rewrite bool_decide_eq_true_2 by done. simpl.
    unfold a2, a1, jump, advance. simpl. do 2 f_equal. lia.
  - left. simpl. by rewrite Hte, bool_decide_eq_true_2.
  - unfold ts. simpl. rewrite length_app. simpl. rewrite length_app. lia.
Qed.

Lemma sampleGroup_declarations : declarations ∅ sampleGroup sampleTable.
Proof.
  rewrite <- (app_nil_r sampleGroup).
  apply (declarations_cons ∅ sampleTable sampleGroup [] ["i"; "j"] "integer").
  - apply (declGroup_intro (mkToken IDENTIFIER "i")
             (mkToken DELIMITER_COLON ":") (mkToken KEYWORD_INTEGER "Integer")
             (mkToken DELIMITER_SEMICOLON ";")
             [mkToken DELIMITER_COMMA ","; mkToken IDENTIFIER "j"] ["j"]);
      try reflexivity.
    apply (nameList_cons (mkToken DELIMITER_COMMA ",")
             (mkToken IDENTIFIER "j") [] []); try reflexivity.
    constructor.
  - apply (bool_decide_unpack _). vm_compute. exact I.
  - intros x _. apply lookup_empty.
  - apply declarations_nil.
Qed.

Lemma sampleBody_assignments : assignments sampleTable sampleBody.
Proof.
  apply (assignments_cons sampleTable
           [mkToken IDENTIFIER "i"; mkToken OPERATOR_ASSIGN ":=";
            mkToken NUMBER "0"; mkToken DELIMITER_SEMICOLON ";"]
           [mkToken IDENTIFIER "j"; mkToken OPERATOR_ASSIGN ":=";
            mkToken IDENTIFIER "i"; mkToken DELIMITER_SEMICOLON ";"]).
  { constructor; try reflexivity; [|by left].
    apply (bool_decide_unpack _). vm_compute. exact I. }
  rewrite <- (app_nil_r [_; _; _; _]).
  apply assignments_cons; [|constructor].
  constructor; try reflexivity.
  - apply (bool_decide_unpack _). vm_compute. exact I.
  - right. split; [reflexivity|].
    apply (bool_decide_unpack _). vm_compute. exact I.
Qed.

(** [VAR i,j:Integer; begin i:=0; j:=i; END while]. *)
Lemma program_accepted_witness :
  analyzeTokens
    (mkToken KEYWORD_VAR "VAR" :: sampleGroup
       ++ mkToken KEYWORD_BEGIN "begin" :: sampleBody
       ++ mkToken KEYWORD_END "END" :: [mkToken KEYWORD_WHILE "while"])
  = Some (mkAnalyzer
            (mkToken KEYWORD_VAR "VAR" :: sampleGroup
               ++ mkToken KEYWORD_BEGIN "begin" :: sampleBody
               ++ mkToken KEYWORD_END "END" :: [mkToken KEYWORD_WHILE "while"])
            (length sampleGroup + length sampleBody + 2) sampleTable []).
Proof.
  apply program_accepted.
  apply program_intro; try reflexivity.
  - exact sampleGroup_declarations.
  - exact sampleBody_assignments.
Defined.

(** X9.  When the tokens end where [begin], respectively [end], is
    due, the run records exactly "missing 'begin' after definition
    body", respectively "missing 'end' at program termination"; the
    declarations are in the symbol table and [tokenPos] is past the
    last token. *)
Theorem exhausted_input (m : gmap string string) (tv tb : Token)
    (d b : list Token) :
  type tv = KEYWORD_VAR → declarations ∅ d m →
  analyzeTokens (tv :: d)
  = Some (mkAnalyzer (tv :: d) (S (length d)) m [msgNoBegin])
  ∧ (type tb = KEYWORD_BEGIN → assignments m b →
     analyzeTokens (tv :: d ++ tb :: b)
     = Some (mkAnalyzer (tv :: d ++ tb :: b) (length d + length b + 2) m
               [msgNoEnd])).
Proof.
  intros Htv Hd. split.
  - set (toks := tv :: d).
    destruct (parse_declarations (S (length toks)) toks d [] tv m
                (eq_sym (f_equal (cons tv) (app_nil_r d))) Htv Hd)
      as (Hvar & Hdecl & Hup); [by right|lia|].
    change (analyzeTokens toks) with (parse (S (length toks)) (initial toks)).
    unfold parse. rewrite Hvar, Hdecl.
    unfold typeIsNot, typeIs. by rewrite (upcoming_nil _ Hup).
  - intros Htb Hb.
    set (toks := tv :: d ++ tb :: b).
    destruct (parse_declarations (S (length toks)) toks d (tb :: b) tv m
                eq_refl Htv Hd)
      as (Hvar & Hdecl & Hup);
      [left; simpl; by rewrite Htb, bool_decide_eq_true_2|lia|].
    change (analyzeTokens toks) with (parse (S (length toks)) (initial toks)).
    unfold parse, parseRealizationBody. rewrite Hvar, Hdecl.
    set (a1 := mkAnalyzer toks (S (length d)) m []) in *.
    unfold typeIsNot at 1. rewrite (typeIs_upcoming _ _ _ _ Hup), Htb.
    rewrite bool_decide_eq_true_2 by done.
    change (noErrors a1) with true. cbn [andb negb].
    apply upcoming_cons in Hup as [_ Hup].
    rewrite <- (app_nil_r b) in Hup.
    rewrite (realizationLoop_assignments m b Hb (S (length toks))
               (advance a1) [] eq_refl Hup).
    + set (a2 := jump (length b) (advance a1)).
      assert (Hup2 : upcoming a2 = []) by (by apply (upcoming_app _ _ b)).
      unfold typeIsNot, typeIs. rewrite (upcoming_nil _ Hup2). simpl.
      unfold a2, a1, jump, advance, push_error. simpl. do 2 f_equal. lia.
    + by right.
    + unfold toks. simpl. rewrite length_app. simpl. lia.
Qed.

Lemma exhausted_input_witness :
  analyzeTokens (mkToken KEYWORD_VAR "var" :: sampleGroup)
  = Some (mkAnalyzer (mkToken KEYWORD_VAR "var" :: sampleGroup)
            (S (length sampleGroup)) sampleTable [msgNoBegin])
  ∧ analyzeTokens (mkToken KEYWORD_VAR "var" :: sampleGroup
                     ++ mkToken KEYWORD_BEGIN "begin" :: sampleBody)
    = Some (mkAnalyzer
              (mkToken KEYWORD_VAR "var" :: sampleGroup
                 ++ mkToken KEYWORD_BEGIN "begin" :: sampleBody)
              (length sampleGroup + length sampleBody + 2) sampleTable
              [msgNoEnd]).
Proof.
  destruct (exhausted_input sampleTable (mkToken KEYWORD_VAR "var")
              (mkToken KEYWORD_BEGIN "begin") sampleGroup sampleBody
              eq_refl sampleGroup_declarations) as [H1 H2].
  split; [exact H1|]. exact (H2 eq_refl sampleBody_assignments).
Defined.

(** ** Only the programs of the grammar are accepted *)

Lemma failed_errors (a a' : Analyzer) : failed a a' → errors a' ≠ errors a.
Proof.
  intros (_ & _ & msg & ->) H. apply (f_equal length) in H.
  rewrite length_app in H. simpl in H. lia.
Qed.

Lemma commaLoop_sound (fuel : nat) :
  ∀ a vars a1 vars1,
    commaLoop fuel a vars = Some (Continue (a1, vars1)) →
    ∃ l names, nameList l names ∧ upcoming a = l ++ upcoming a1
               ∧ vars1 = vars ++ names ∧ a1 = jump (length l) a
               ∧ typeIs a1 DELIMITER_COMMA = false.
Proof.
  induction fuel as [|fuel IH]; intros a vars a1 vars1 Hrun;
    simpl in Hrun; [discriminate|].
  destruct (typeIs a DELIMITER_COMMA) eqn:Hc.
  - apply typeIs_current in Hc as (c & Hcur & Hcty).
    destruct (current (advance a)) as [t|] eqn:Ht; [|discriminate].
    destruct (bool_decide (type t = IDENTIFIER)) eqn:Hid; [|discriminate].
    apply bool_decide_eq_true in Hid. simpl in Hrun.
    destruct (bool_decide (type t = ERROR)); [discriminate|].
    apply IH in Hrun as (l & names & Hl & Hup & -> & -> & Hno).
    exists (c :: t :: l), (value t :: names).
    split; [by constructor|].
    split; [|split; [by rewrite <- app_assoc|split; [|exact Hno]]].
    + rewrite (upcoming_current _ _ Hcur), (upcoming_current _ _ Ht).
      simpl. by rewrite Hup.
    + by rewrite !jump_advance.
  - injection Hrun as <- <-. exists [], [].
    split; [constructor|]. by rewrite jump_0, app_nil_r.
Qed.

Lemma declareVars_sound (vars : list string) (varType : string) :
  ∀ a a1, declareVars vars varType a = Continue a1 →
    NoDup vars ∧ (∀ x, x ∈ vars → symbolTable a !! x = None)
    ∧ a1 = defineAll vars varType a.
Proof.
  induction vars as [|var vars IH]; intros a a1 Hrun; simpl in Hrun.
  - injection Hrun as <-. split; [constructor|].
    split; [|done]. by intros x Hx%elem_of_nil.
  - destruct (defined a var) eqn:Hdef; [discriminate|].
    apply bool_decide_eq_false in Hdef.
    assert (Hnone : symbolTable a !! var = None).
    { destruct (symbolTable a !! var) eqn:E; [|done]. by destruct Hdef. }
    apply IH in Hrun as (Hnd & Hfresh & ->). simpl in Hfresh.
    assert (Hvar : var ∉ vars).
    { intros Hin. specialize (Hfresh _ Hin).
      by rewrite lookup_insert_eq in Hfresh. }
    split; [by constructor|]. split; [|done].
    intros x [->|Hx]%elem_of_cons; [done|].
    specialize (Hfresh _ Hx).
    rewrite lookup_insert_ne in Hfresh; [done|]. by intros ->.
Qed.

Lemma definitionStep_sound (fuel : nat) (t : Token) (a a1 : Analyzer) :
  current a = Some t → definitionStep fuel t a = Some (Continue a1) →
  ∃ g names varType,
    declGroup g names varType ∧ upcoming a = g ++ upcoming a1
    ∧ NoDup names ∧ (∀ x, x ∈ names → symbolTable a !! x = None)
    ∧ a1 = setTable (insertAll names varType (symbolTable a))
             (jump (length g) a).
Proof.
  intros Hcur Hrun. unfold definitionStep in Hrun.
  destruct (bool_decide (type t = ERROR)); [discriminate|].
  destruct (bool_decide (type t = IDENTIFIER)) eqn:Hid; [|discriminate].
  apply bool_decide_eq_true in Hid. cbn [negb] in Hrun.
  destruct (commaLoop fuel (advance a) [value t]) as [[[a2 vars]|?]|] eqn:Hc;
    try discriminate.
  apply commaLoop_sound in Hc as (l & names & Hl & Hup & -> & -> & _).
  set (a2 := jump (length l) (advance a)) in *.
  destruct (typeIs a2 IDENTIFIER); [discriminate|].
  destruct (typeIsNot a2 DELIMITER_COLON) eqn:Hcolon; [discriminate|].
  apply typeIsNot_false in Hcolon as (colon & Hc2 & Hcty).
  destruct (current (advance a2)) as [ty|] eqn:Hty; [|discriminate].
  destruct (count types (toLower (value ty))) eqn:Hcount; [|discriminate].
  cbn [negb] in Hrun.
  destruct (declareVars ([value t] ++ names) (toLower (value ty))
              (advance (advance a2))) as [a3|?] eqn:Hd; [|discriminate].
  apply declareVars_sound in Hd as (Hnd & Hfresh & ->).
  rewrite defineAll_setTable in Hrun.
  set (a3 := setTable _ _) in *.
  destruct (typeIsNot a3 DELIMITER_SEMICOLON) eqn:Hsemi; [discriminate|].
  apply typeIsNot_false in Hsemi as (semi & Hc3 & Hsty).
  injection Hrun as <-.
  assert (Hc3' : current (advance (advance a2)) = Some semi) by exact Hc3.
  exists (t :: l ++ [colon; ty; semi]), (value t :: names),
    (toLower (value ty)).
  split; [by constructor|].
  split; [|split; [exact Hnd|split; [exact Hfresh|]]].
  - rewrite (upcoming_current _ _ Hcur), Hup.
    rewrite (upcoming_current _ _ Hc2), (upcoming_current _ _ Hty).
    rewrite (upcoming_current _ _ Hc3').
    simpl. by rewrite <- app_assoc.
  - unfold a3, a2, setTable, jump, advance. simpl. f_equal.
    rewrite length_app. simpl. lia.
Qed.

Lemma parseDefinitionBody_sound (fuel : nat) :
  ∀ a a', parseDefinitionBody fuel a = Some a' → errors a' = errors a →
    ∃ d, declarations (symbolTable a) d (symbolTable a')
         ∧ upcoming a = d ++ upcoming a'
         ∧ a' = setTable (symbolTable a') (jump (length d) a).
Proof.
  induction fuel as [|fuel IH]; intros a a' Hrun Herr; simpl in Hrun;
    [discriminate|].
  assert (Hstop : Some a = Some a' →
                  ∃ d, declarations (symbolTable a) d (symbolTable a')
                       ∧ upcoming a = d ++ upcoming a'
                       ∧ a' = setTable (symbolTable a') (jump (length d) a)).
  { intros [= <-]. exists []. split; [constructor|].
    by rewrite jump_0, setTable_id. }
  destruct (current a) as [t|] eqn:Hcur; [|by apply Hstop].
  destruct (bool_decide (type t = KEYWORD_BEGIN)); [by apply Hstop|].
  destruct (definitionStep fuel t a) as [[a1|a1]|] eqn:Hs; [| |discriminate].
  - pose proof (definitionStep_inv _ _ _ _ Hs) as (_ & _ & He1).
    simpl in He1.
    apply definitionStep_sound in Hs
      as (g & names & ty & Hg & Hup & Hnd & Hfresh & Ha1); [|done].
    destruct (IH _ _ Hrun) as (d & Hd & Hup' & Ha'); [congruence|].
    exists (g ++ d). split; [|split].
    + eapply declarations_cons; try done.
      by rewrite Ha1 in Hd.
    + by rewrite Hup, Hup', app_assoc.
    + rewrite Ha' at 1. rewrite Ha1. unfold setTable, jump. simpl.
      f_equal. rewrite length_app. lia.
  - injection Hrun as <-. apply definitionStep_inv in Hs.
    by apply failed_errors in Hs.
Qed.

Lemma assignment_sound (t : Token) (a a1 : Analyzer) :
  current a = Some t → type t = IDENTIFIER →
  assignment t a = Continue a1 →
  ∃ s, assignStmt (symbolTable a) s ∧ upcoming a = s ++ upcoming a1
       ∧ a1 = jump 4 a.
Proof.
  intros Hcur Hid Hrun. unfold assignment in Hrun.
  destruct (defined a (value t)) eqn:Hdef; [|discriminate].
  apply bool_decide_eq_true in Hdef. simpl in Hrun.
  destruct (typeIsNot (advance a) OPERATOR_ASSIGN) eqn:Hop; [discriminate|].
  apply typeIsNot_false in Hop as (op & Hc1 & Hopty).
  destruct (current (advance (advance a))) as [v|] eqn:Hc2; [|discriminate].
  destruct (negb (bool_decide (type v = NUMBER))
            && negb (bool_decide (type v = IDENTIFIER))) eqn:Hv1;
    [discriminate|].
  destruct (bool_decide (type v = IDENTIFIER)
            && negb (defined (advance (advance a)) (value v))) eqn:Hv2;
    [discriminate|].
  destruct (typeIsNot (advance (advance (advance a))) DELIMITER_SEMICOLON)
    eqn:Hsemi; [discriminate|].
  apply typeIsNot_false in Hsemi as (semi & Hc3 & Hsty).
  injection Hrun as <-.
  exists [t; op; v; semi]. split; [|split].
  - constructor; try done.
    destruct (decide (type v = NUMBER)) as [Hn|Hn]; [by left|right].
    rewrite (bool_decide_eq_false_2 _ Hn) in Hv1. simpl in Hv1.
    apply negb_false_iff, bool_decide_eq_true in Hv1.
    split; [done|].
    rewrite (bool_decide_eq_true_2 _ Hv1) in Hv2. simpl in Hv2.
    by apply negb_false_iff, bool_decide_eq_true in Hv2.
  - rewrite (upcoming_current _ _ Hcur), (upcoming_current _ _ Hc1).
    by rewrite (upcoming_current _ _ Hc2), (upcoming_current _ _ Hc3).
  - unfold jump, advance. simpl. f_equal. lia.
Qed.

Lemma realizationLoop_sound (fuel : nat) :
  ∀ a a', realizationLoop fuel a [] = Some a' → errors a' = errors a →
    ∃ b, assignments (symbolTable a) b ∧ upcoming a = b ++ upcoming a'
         ∧ a' = jump (length b) a.
Proof.
  induction fuel as [|fuel IH]; intros a a' Hrun Herr; simpl in Hrun;
    [discriminate|].
  assert (Hstop : Some a = Some a' →
                  ∃ b, assignments (symbolTable a) b
                       ∧ upcoming a = b ++ upcoming a' ∧ a' = jump (length b) a).
  { intros [= <-]. exists []. split; [constructor|]. by rewrite jump_0. }
  destruct (current a) as [t|] eqn:Hcur; [|by apply Hstop].
  destruct (bool_decide (type t = KEYWORD_END)) eqn:Hend; [by apply Hstop|].
  apply bool_decide_eq_false in Hend.
  destruct (realizationStep fuel t a []) as [[[a1 st1]|a1]|] eqn:Hs;
    [| |discriminate].
  - pose proof (realizationStep_inv _ _ _ _ _ Hs) as Hm. simpl in Hm.
    destruct st1 as [|m st1].
    + unfold realizationStep in Hs.
      destruct (bool_decide (type t = ERROR)); [discriminate|].
      destruct (bool_decide (type t = IDENTIFIER)) eqn:Hid.
      * apply bool_decide_eq_true in Hid.
        destruct (assignment t a) as [a1'|?] eqn:Has; [|discriminate].
        simpl in Hs. injection Hs as ->.
        apply assignment_sound in Has as (s & Hstmt & Hup & Ha1);
          [|done|done].
        destruct (IH _ _ Hrun) as (b & Hb & Hup' & Ha');
          [destruct Hm as (_ & _ & ?); congruence|].
        exists (s ++ b). split; [|split].
        -- constructor; [done|]. by rewrite Ha1 in Hb.
        -- by rewrite Hup, Hup', app_assoc.
        -- rewrite Ha', Ha1. unfold jump. simpl. f_equal.
           rewrite length_app.
           assert (length s = 4) by (by destruct Hstmt). lia.
      * repeat case_match; try discriminate;
          try (apply fmap_Some in Hs as (r & _ & Hr); unfold withStack in Hr;
               case_match; discriminate).
    + apply realizationLoop_open in Hrun; [|done].
      apply failed_errors in Hrun. destruct Hm as (_ & _ & ?). congruence.
  - injection Hrun as <-. apply realizationStep_inv in Hs.
    by apply failed_errors in Hs.
Qed.

(** X10.  A token list on which the run records no diagnostic has the
    form [var] declarations [begin] assignments [end] followed by any
    tokens, in the sense of [program], with the final symbol table as
    the table of the declarations and the final [tokenPos] on the
    [end].  With X8: the accepted token lists are exactly those of
    [program]; in particular none holds a [while], [if], [begin] or
    [else] statement. *)
Theorem accepted_is_program (toks : list Token) (a : Analyzer) :
  analyzeTokens toks = Some a → errors a = [] →
  program (symbolTable a) toks (tokenPos a).
Proof.
  intros Hrun Herr.
  destruct toks as [|t0 toks0] eqn:Htoks.
  { injection Hrun as <-. by apply push_error_not_nil in Herr. }
  rewrite <- Htoks in *.
  assert (Hparse : parse (S (length toks)) (initial toks) = Some a)
    by (by rewrite Htoks in *).
  clear Hrun Htoks t0 toks0.
  unfold parse, parseRealizationBody in Hparse.
  destruct (typeIsNot (initial toks) KEYWORD_VAR) eqn:Hvar.
  { injection Hparse as <-. by apply push_error_not_nil in Herr. }
  apply typeIsNot_false in Hvar as (tv & Hc0 & Htv).
  destruct (parseDefinitionBody (S (length toks)) (advance (initial toks)))
    as [a1|] eqn:Hd; [|discriminate].
  destruct (noErrors a1) eqn:Hn1; cbn [andb negb] in Hparse.
  2: { injection Hparse as <-. unfold noErrors in Hn1. by rewrite Herr in Hn1. }
  apply noErrors_true in Hn1.
  destruct (typeIsNot a1 KEYWORD_BEGIN) eqn:Hbegin.
  { injection Hparse as <-. by apply push_error_not_nil in Herr. }
  apply typeIsNot_false in Hbegin as (tb & Hc1 & Htb).
  destruct (realizationLoop (S (length toks)) (advance a1) []) as [a2|] eqn:Hr;
    [|discriminate].
  destruct (noErrors a2) eqn:Hn2; cbn [andb negb] in Hparse.
  2: { injection Hparse as <-. unfold noErrors in Hn2. by rewrite Herr in Hn2. }
  destruct (typeIsNot a2 KEYWORD_END) eqn:Hend.
  { injection Hparse as <-. by apply push_error_not_nil in Herr. }
  apply typeIsNot_false in Hend as (te & Hc2 & Hte).
  injection Hparse as <-.
  apply parseDefinitionBody_sound in Hd as (d & Hdecl & Hup1 & Ha1);
    [|by rewrite Hn1].
  apply realizationLoop_sound in Hr as (b & Hb & Hup2 & Ha2);
    [|by rewrite Herr, <- Hn1].
  simpl in Hdecl, Hb.
  assert (Htab : symbolTable a2 = symbolTable a1) by (by rewrite Ha2).
  assert (Hpos : tokenPos a2 = length d + length b + 2).
  { rewrite Ha2, Ha1. simpl. lia. }
  assert (Hall : toks = tv :: d ++ tb :: b ++ te :: upcoming (advance a2)).
  { change toks with (upcoming (initial toks)) at 1.
    rewrite (upcoming_current _ _ Hc0), Hup1.
    rewrite (upcoming_current _ _ Hc1), Hup2.
    by rewrite (upcoming_current _ _ Hc2). }
  rewrite Hall at 1. rewrite Hpos, Htab.
  by apply program_intro.
Qed.

Lemma accepted_is_program_witness :
  program (<["i" := "integer"]> ∅) tokensTrail 6.
Proof.
  assert (Hrun : analyzeTokens tokensTrail
                 = Some (mkAnalyzer tokensTrail 6 (<["i" := "integer"]> ∅) []))
    by (vm_compute; reflexivity).
  exact (accepted_is_program tokensTrail _ Hrun eq_refl).
Defined.

(** * The symbol table and the cursor *)

(** ** Declarations only add bindings *)

Lemma onlyAdds_refl (m : gmap string string) : onlyAdds m m.
Proof. split; auto. Qed.

Lemma onlyAdds_trans (m1 m2 m3 : gmap string string) :
  onlyAdds m1 m2 → onlyAdds m2 m3 → onlyAdds m1 m3.
Proof.
  intros [H1 H1'] [H2 H2']. split; [auto|].
  intros x v [H|H]%H2'; [|by right]. by apply H1'.
Qed.

Lemma onlyAdds_insert (m : gmap string string) (var varType : string) :
  m !! var = None → count types varType = true →
  onlyAdds m (<[var := varType]> m).
Proof.
  intros Hnone Hty. split; intros x v.
  - intros Hx. rewrite lookup_insert_ne; [done|]. intros ->. congruence.
  - destruct (decide (var = x)) as [->|Hne].
    + rewrite lookup_insert_eq. intros [= <-]. by right.
    + rewrite lookup_insert_ne by done. by left.
Qed.

Lemma declareVars_grows (vars : list string) (varType : string) :
  count types varType = true →
  ∀ a, tableGrows id a (declareVars vars varType a).
Proof.
  intros Hty. induction vars as [|var vars IH]; intros a; simpl.
  - apply onlyAdds_refl.
  - destruct (defined a var) eqn:Hdef; simpl; [apply onlyAdds_refl|].
    apply bool_decide_eq_false in Hdef.
    assert (Hnone : symbolTable a !! var = None).
    { destruct (symbolTable a !! var) eqn:E; [|done]. by destruct Hdef. }
    pose proof (onlyAdds_insert _ var varType Hnone Hty) as Hins.
    specialize (IH (define var varType a)).
    destruct (declareVars vars varType (define var varType a)); simpl in *;
      by eapply onlyAdds_trans.
Qed.

Lemma commaLoop_table (fuel : nat) :
  ∀ a vars r, commaLoop fuel a vars = Some r → tableKept fst a r.
Proof.
  induction fuel as [|fuel IH]; intros a vars r Hrun; simpl in Hrun;
    [discriminate|].
  repeat case_match; simplify_eq; try reflexivity.
  by apply IH in Hrun.
Qed.

Lemma definitionStep_grows (fuel : nat) (t : Token) (a : Analyzer)
    (r : Flow Analyzer) :
  definitionStep fuel t a = Some r → tableGrows id a r.
Proof.
  unfold definitionStep. intros Hrun.
  destruct (bool_decide (type t = ERROR));
    [injection Hrun as <-; apply onlyAdds_refl|].
  destruct (negb (bool_decide (type t = IDENTIFIER)));
    [injection Hrun as <-; apply onlyAdds_refl|].
  destruct (commaLoop fuel (advance a) [value t]) as [[[a1 vars]|a1]|] eqn:Hc;
    [| |discriminate]; apply commaLoop_table in Hc; simpl in Hc.
  2: { injection Hrun as <-. simpl. rewrite Hc. apply onlyAdds_refl. }
  destruct (typeIs a1 IDENTIFIER);
    [injection Hrun as <-; simpl; rewrite Hc; apply onlyAdds_refl|].
  destruct (typeIsNot a1 DELIMITER_COLON);
    [injection Hrun as <-; simpl; rewrite Hc; apply onlyAdds_refl|].
  destruct (current (advance a1)) as [ty|];
    [|injection Hrun as <-; simpl; rewrite Hc; apply onlyAdds_refl].
  destruct (count types (toLower (value ty))) eqn:Hty; simpl in Hrun;
    [|injection Hrun as <-; simpl; rewrite Hc; apply onlyAdds_refl].
  pose proof (declareVars_grows vars _ Hty (advance (advance a1))) as Hd.
  destruct (declareVars vars (toLower (value ty)) (advance (advance a1)))
    as [a2|a2]; simpl in Hd; rewrite Hc in Hd.
  - destruct (typeIsNot a2 DELIMITER_SEMICOLON); by injection Hrun as <-.
  - by injection Hrun as <-.
Qed.

(** X11.  Whatever the tokens, the declaration validator never changes
    or removes a binding of the symbol table, and every binding it adds
    maps a name to one of [integer], [longint], [bool]. *)
Theorem declarations_only_add (fuel : nat) (a a' : Analyzer) :
  parseDefinitionBody fuel a = Some a' →
  onlyAdds (symbolTable a) (symbolTable a').
Proof.
  revert a. induction fuel as [|fuel IH]; intros a Hrun; simpl in Hrun;
    [discriminate|].
  destruct (current a) as [t|];
    [|injection Hrun as <-; apply onlyAdds_refl].
  destruct (bool_decide (type t = KEYWORD_BEGIN));
    [injection Hrun as <-; apply onlyAdds_refl|].
  destruct (definitionStep fuel t a) as [[a1|a1]|] eqn:Hs; [| |discriminate];
    apply definitionStep_grows in Hs; simpl in Hs.
  - eapply onlyAdds_trans; [exact Hs|]. by apply IH.
  - by injection Hrun as <-.
Qed.

(** On [a , b , a , c : integer ;] with [c] bound to [bool] before. *)
Lemma declarations_only_add_witness :
  onlyAdds (<["c" := "bool"]> ∅)
    (<["b" := "integer"]> (<["a" := "integer"]> (<["c" := "bool"]> ∅))).
Proof.
  assert (Hrun : parseDefinitionBody 12
                   (mkAnalyzer tokensRepeat 1 (<["c" := "bool"]> ∅) [])
                 = Some (mkAnalyzer tokensRepeat 10
                           (<["b" := "integer"]>
                              (<["a" := "integer"]> (<["c" := "bool"]> ∅)))
                           [(msgRepeated ++ "a")%string]))
    by (vm_compute; reflexivity).
  exact (declarations_only_add 12 _ _ Hrun).
Defined.

(** ** The cursor stays within the tokens *)

Lemma inRange_advance (a : Analyzer) (t : Token) :
  current a = Some t → inRange (advance a).
Proof. intros H%current_lt. unfold inRange. simpl. lia. Qed.

Ltac in_range :=
  repeat match goal with
         | H : current _ = Some _ |- _ => apply current_lt in H
         | H : typeIs _ _ = true |- _ =>
             apply typeIs_current in H as (? & ?%current_lt & _)
         | H : typeIsNot _ _ = false |- _ =>
             apply typeIsNot_false in H as (? & ?%current_lt & _)
         | H : _ ∧ _ |- _ => destruct H
         | H : tokens _ = tokens _ |- _ => apply (f_equal length) in H
         end;
  unfold inRange in *; simpl in *; lia.

Lemma commaLoop_inRange (fuel : nat) :
  ∀ a vars r, inRange a → commaLoop fuel a vars = Some r →
    flowInRange fst r.
Proof.
  induction fuel as [|fuel IH]; intros a vars r Hin Hrun; simpl in Hrun;
    [discriminate|].
  repeat case_match; simplify_eq; simpl; try in_range.
  eapply IH; [|exact Hrun]. in_range.
Qed.

Lemma declareVars_same (vars : list string) (varType : string) :
  ∀ a, match declareVars vars varType a with
       | Continue x | Return x =>
           tokens x = tokens a ∧ tokenPos x = tokenPos a
       end.
Proof.
  induction vars as [|var vars IH]; intros a; simpl; [done|].
  destruct (defined a var); simpl; [done|].
  apply (IH (define var varType a)).
Qed.

Lemma definitionStep_inRange (fuel : nat) (t : Token) (a : Analyzer)
    (r : Flow Analyzer) :
  current a = Some t → definitionStep fuel t a = Some r → flowInRange id r.
Proof.
  unfold definitionStep. intros Hcur Hrun.
  destruct (bool_decide (type t = ERROR));
    [injection Hrun as <-; simpl; in_range|].
  destruct (negb (bool_decide (type t = IDENTIFIER)));
    [injection Hrun as <-; simpl; in_range|].
  destruct (commaLoop fuel (advance a) [value t]) as [[[a1 vars]|a1]|] eqn:Hc;
    [| |discriminate];
    apply commaLoop_inRange in Hc; try (by eapply inRange_advance);
    simpl in Hc.
  2: { by injection Hrun as <-. }
  destruct (typeIs a1 IDENTIFIER); [by injection Hrun as <-|].
  destruct (typeIsNot a1 DELIMITER_COLON) eqn:Hcolon;
    [by injection Hrun as <-|].
  destruct (current (advance a1)) as [ty|] eqn:Hty;
    [|injection Hrun as <-; simpl; in_range].
  destruct (negb (count types (toLower (value ty))));
    [injection Hrun as <-; simpl; in_range|].
  pose proof (declareVars_same vars (toLower (value ty))
                (advance (advance a1))) as Hd.
  destruct (declareVars vars (toLower (value ty)) (advance (advance a1)))
    as [a2|a2]; simpl in Hd.
  - destruct (typeIsNot a2 DELIMITER_SEMICOLON) eqn:Hsemi;
      injection Hrun as <-; simpl; in_range.
  - injection Hrun as <-. simpl. in_range.
Qed.

Lemma parseDefinitionBody_inRange (fuel : nat) :
  ∀ a a', inRange a → parseDefinitionBody fuel a = Some a' → inRange a'.
Proof.
  induction fuel as [|fuel IH]; intros a a' Hin Hrun; simpl in Hrun;
    [discriminate|].
  destruct (current a) as [t|] eqn:Hcur; [|by injection Hrun as <-].
  destruct (bool_decide (type t = KEYWORD_BEGIN)); [by injection Hrun as <-|].
  destruct (definitionStep fuel t a) as [[a1|a1]|] eqn:Hs; [| |discriminate];
    apply definitionStep_inRange in Hs; try done; simpl in Hs.
  - eapply IH; [exact Hs|exact Hrun].
  - by injection Hrun as <-.
Qed.

Lemma scanCondition_inRange (fuel : nat) :
  ∀ a parenCount a' parenCount', inRange a →
    scanCondition fuel a parenCount = Some (a', parenCount') → inRange a'.
Proof.
  induction fuel as [|fuel IH]; intros a pc a' pc' Hin Hrun; simpl in Hrun;
    [discriminate|].
  destruct (current a) as [t|] eqn:Hcur; [|by injection Hrun as <- <-].
  destruct (0 <? pc)%Z; [|by injection Hrun as <- <-].
  eapply IH; [|exact Hrun]. by eapply inRange_advance.
Qed.

Lemma assignment_inRange (t : Token) (a : Analyzer) :
  current a = Some t → flowInRange id (assignment t a).
Proof.
  intros Hcur. unfold assignment. repeat case_match; simpl; in_range.
Qed.

Lemma condition_inRange (fuel : nat) (closing : TokenType)
    (m1 m2 m3 : string) (t : Token) (a : Analyzer) (r : Flow Analyzer) :
  current a = Some t → condition fuel closing m1 m2 m3 a = Some r →
  flowInRange id r.
Proof.
  unfold condition. intros Hcur Hrun.
  destruct (typeIsNot (advance a) DELIMITER_LPAREN) eqn:Hl;
    [injection Hrun as <-; simpl; in_range|].
  destruct (scanCondition fuel (advance (advance a)) 1) as [[a1 pc]|] eqn:Hs;
    [|discriminate].
  apply scanCondition_inRange in Hs; [|in_range].
  repeat case_match; injection Hrun as <-; simpl; try done. in_range.
Qed.

Lemma closeBlock_inRange (t : Token) (a : Analyzer)
    (blockStack : list string) :
  current a = Some t → flowInRange fst (closeBlock a blockStack).
Proof.
  intros Hcur. unfold closeBlock. repeat case_match; simpl; in_range.
Qed.

Lemma withStack_inRange {B : Type} (blockStack : B) (r : Flow Analyzer) :
  flowInRange id r → flowInRange fst (withStack blockStack r).
Proof. by destruct r. Qed.

Lemma realizationStep_inRange (fuel : nat) (t : Token) (a : Analyzer)
    (blockStack : list string) (r : Flow (Analyzer * list string)) :
  current a = Some t → realizationStep fuel t a blockStack = Some r →
  flowInRange fst r.
Proof.
  unfold realizationStep. intros Hcur Hrun.
  repeat case_match; simplify_eq; simpl;
    try (by apply withStack_inRange, assignment_inRange);
    try (by eapply closeBlock_inRange);
    try (apply fmap_Some in Hrun as (r0 & Hc & ->);
         apply withStack_inRange; by eapply condition_inRange);
    in_range.
Qed.

Lemma realizationLoop_inRange (fuel : nat) :
  ∀ a blockStack a', inRange a →
    realizationLoop fuel a blockStack = Some a' → inRange a'.
Proof.
  induction fuel as [|fuel IH]; intros a blockStack a' Hin Hrun;
    simpl in Hrun; [discriminate|].
  assert (Hc : inRange (checkClosed a blockStack)) by (by destruct blockStack).
  destruct (current a) as [t|] eqn:Hcur; [|by injection Hrun as <-].
  destruct (bool_decide (type t = KEYWORD_END)); [by injection Hrun as <-|].
  destruct (realizationStep fuel t a blockStack) as [[[a1 st1]|a1]|] eqn:Hs;
    [| |discriminate];
    apply realizationStep_inRange in Hs; try done; simpl in Hs.
  - eapply IH; [exact Hs|exact Hrun].
  - by injection Hrun as <-.
Qed.

Lemma parse_inRange (fuel : nat) (a a' : Analyzer) :
  inRange a → parse fuel a = Some a' → inRange a'.
Proof.
  unfold parse, parseRealizationBody. intros Hin Hrun.
  destruct (typeIsNot a KEYWORD_VAR) eqn:Hvar; [by injection Hrun as <-|].
  destruct (parseDefinitionBody fuel (advance a)) as [a1|] eqn:Hd;
    [|discriminate].
  apply parseDefinitionBody_inRange in Hd; [|in_range].
  destruct (noErrors a1 && typeIsNot a1 KEYWORD_BEGIN) eqn:Hb;
    [by injection Hrun as <-|].
  destruct (negb (noErrors a1)) eqn:Hn; [by injection Hrun as <-|].
  assert (Hbegin : typeIsNot a1 KEYWORD_BEGIN = false).
  { apply negb_false_iff in Hn. by rewrite Hn in Hb. }
  destruct (realizationLoop fuel (advance a1) []) as [a2|] eqn:Hr;
    [|discriminate].
  apply realizationLoop_inRange in Hr; [|in_range].
  by repeat case_match; injection Hrun as <-.
Qed.

(** X12.  On every source text the run ends with [tokenPos] at most
    the number of tokens: the cursor is never moved past the position
    just after the last token. *)
Theorem cursor_stays_in_range (source : string) :
  ∃ a, analyze source = Some a ∧ tokenPos a ≤ length (tokens a).
Proof.
  destruct (analyze_total source) as [a Ha]. exists a. split; [exact Ha|].
  unfold analyze in Ha. destruct (tokenize source) as [toks|]; [|discriminate].
  destruct toks as [|t toks]; simpl in Ha.
  - injection Ha as <-. simpl. lia.
  - apply parse_inRange in Ha; [exact Ha|]. unfold inRange. simpl. lia.
Qed.

(** * Further properties of the run as a whole *)

(** ** The outcome depends on the tokens up to the cursor *)

Lemma analyzeTokens_local (toks l2 : list Token) (a : Analyzer) :
  analyzeTokens toks = Some a → tokenPos a < length toks →
  agree (S (tokenPos a)) toks l2 → length l2 ≠ 0 →
  analyzeTokens l2 = Some (retok l2 a).
Proof.
  intros Hrun Hlt Hagree Hl2.
  assert (Hparse : parse (S (length toks)) (initial toks) = Some a).
  { destruct toks; [simpl in Hlt; lia|exact Hrun]. }
  assert (Hlocal : parse (S (length toks)) (initial l2) = Some (retok l2 a)).
  { apply (parse_local (S (tokenPos a)) toks l2 Hagree _ (initial toks) a
             eq_refl Hparse). lia. }
  assert (Hgoal : parse (S (length l2)) (initial l2) = Some (retok l2 a)).
  { destruct (parse_total (S (length l2)) (initial l2)) as [r Hr].
    { unfold remaining; simpl; lia. }
    destruct (decide (length toks ≤ length l2)) as [Hle|Hgt].
    - apply (parse_fuel _ _ _ _ Hlocal). lia.
    - pose proof (parse_fuel _ (S (length toks)) _ _ Hr) as Hr'.
      rewrite Hlocal in Hr'. rewrite Hr. symmetry. apply Hr'. lia. }
  destruct l2; [done|exact Hgoal].
Qed.

(** X13.  Whether the run succeeds or fails, when it ends with
    [tokenPos] on a token, the outcome (diagnostics, symbol table and
    position) is the same on every token list with the same tokens up
    to and including that one: the tokens after the cursor are never
    read. *)
Theorem outcome_is_local (toks trailing : list Token) (a : Analyzer) :
  analyzeTokens toks = Some a → tokenPos a < length toks →
  analyzeTokens (take (S (tokenPos a)) toks ++ trailing)
  = Some (mkAnalyzer (take (S (tokenPos a)) toks ++ trailing)
            (tokenPos a) (symbolTable a) (errors a)).
Proof.
  intros Hrun Hlt.
  apply (analyzeTokens_local toks _ a Hrun Hlt).
  - by apply agree_take.
  - rewrite length_app, length_take. lia.
Qed.

(** On [var begin] followed by [tokensWhile], with nothing declared,
    the run stops on the [i] at index 12 with "undefined variable: i";
    so it does with other tokens after that [i]. *)
Lemma outcome_is_local_witness :
  analyzeTokens
    (take 13 (mkToken KEYWORD_VAR "var" :: mkToken KEYWORD_BEGIN "begin"
              :: tokensWhile) ++ [mkToken KEYWORD_END "end"])
  = Some (mkAnalyzer
            (take 13 (mkToken KEYWORD_VAR "var"
                      :: mkToken KEYWORD_BEGIN "begin" :: tokensWhile)
               ++ [mkToken KEYWORD_END "end"])
            12 ∅ [(msgUndefined ++ "i")%string]).
Proof.
  assert (Hrun : analyzeTokens
                   (mkToken KEYWORD_VAR "var" :: mkToken KEYWORD_BEGIN "begin"
                    :: tokensWhile)
                 = Some (mkAnalyzer
                           (mkToken KEYWORD_VAR "var"
                            :: mkToken KEYWORD_BEGIN "begin" :: tokensWhile)
                           12 ∅ [(msgUndefined ++ "i")%string]))
    by (vm_compute; reflexivity).
  refine (outcome_is_local _ [mkToken KEYWORD_END "end"] _ Hrun _).
  vm_compute. lia.
Defined.

(** ** Two-character operators *)

Lemma tokenize_cons (c : ascii) (rest s' : string) (t : Token)
    (toks : list Token) :
  tokenizeStep c rest = (Some t, s') →
  tokenize s' = Some toks →
  tokenize (String c rest) = Some (t :: toks).
Proof.
  unfold tokenize. intros Hstep Hrun. simpl. rewrite Hstep.
  pose proof (tokenizeStep_length c rest) as Hlen.
  rewrite Hstep in Hlen. simpl in Hlen.
  by rewrite (tokenizeLoop_fuel _ _ _ _ Hrun Hlen).
Qed.

(** X14.  [readOperator] looks one character ahead: a two-character
    operator at the start of a text is one token of its type with that
    lexeme, whatever follows it, and the rest is tokenized as it would
    be alone. *)
Theorem two_char_operator_first (ty : TokenType) (l s : string)
    (toks : list Token) :
  isTwoCharOperator ty = true → fixedLexeme ty = Some l →
  tokenize s = Some toks →
  tokenize (l ++ s) = Some (mkToken ty l :: toks).
Proof.
  intros Hop Hl Hrun. apply bool_decide_eq_true in Hop.
  repeat (apply elem_of_cons in Hop as [->|Hop];
          [injection Hl as <-; by apply (tokenize_cons _ _ s)|]).
  by apply elem_of_nil in Hop.
Qed.

Lemma two_char_operator_witness :
  tokenize ("<=" ++ "=1")
  = Some (mkToken OPERATOR_LE "<=" :: [mkToken ERROR "="; mkToken NUMBER "1"]).
Proof.
  apply two_char_operator_first; vm_compute; reflexivity.
Defined.

(** ** Names that are not declared *)

Lemma realizationLoop_assignment (fuel : nat) (a : Analyzer) (t : Token)
    (rest : list Token) (blockStack : list string) :
  upcoming a = t :: rest → type t = IDENTIFIER →
  realizationLoop (S fuel) a blockStack
  = match assignment t a with
    | Continue a1 => realizationLoop fuel a1 blockStack
    | Return a1 => Some a1
    end.
Proof.
  intros [Hcur _]%upcoming_cons Hty. simpl. rewrite Hcur, Hty. simpl.
  unfold realizationStep. rewrite Hty. simpl.
  by destruct (assignment t a).
Qed.

(** X15.  At any nesting, a statement that assigns to a name that is
    not in the symbol table is reported as "undefined variable: <name>"
    with the cursor left on that name; one that assigns an identifier
    that is not in the table to a declared name is reported as
    "undefined variable in assignment: <name>" with the cursor on the
    offending identifier. *)
Theorem undeclared_names_are_reported (fuel : nat) (a : Analyzer)
    (tx : Token) (rest : list Token) (blockStack : list string) :
  upcoming a = tx :: rest → type tx = IDENTIFIER →
  (symbolTable a !! value tx = None →
   realizationLoop (S fuel) a blockStack
   = Some (push_error (msgUndefined ++ value tx) a))
  ∧ (∀ (op v : Token) (rest' : list Token),
       rest = op :: v :: rest' → is_Some (symbolTable a !! value tx) →
       type op = OPERATOR_ASSIGN → type v = IDENTIFIER →
       symbolTable a !! value v = None →
       realizationLoop (S fuel) a blockStack
       = Some (push_error (msgUndefinedInAssign ++ value v) (jump 2 a))).
Proof.
  intros Hup Hty.
  rewrite (realizationLoop_assignment fuel a tx rest blockStack Hup Hty).
  unfold assignment, defined. split.
  - intros Hnone. rewrite bool_decide_eq_false_2; [done|].
    rewrite Hnone. by intros [? ?].
  - intros op v rest' -> Hx Hop Hv Hnone.
    rewrite bool_decide_eq_true_2 by done. cbn [negb].
    apply upcoming_cons in Hup as [_ Hup].
    unfold typeIsNot. rewrite (typeIs_upcoming _ _ _ _ Hup), Hop.
    rewrite bool_decide_eq_true_2 by done. cbn [negb].
    apply upcoming_cons in Hup as [_ Hup].
    apply upcoming_cons in Hup as [-> _].
    rewrite Hv. simpl. rewrite Hnone.
    rewrite bool_decide_eq_false_2 by (by intros [? ?]). simpl.
    unfold jump, advance, push_error. simpl. do 3 f_equal. lia.
Qed.

(** The body of ["Var i,j:integer;Begin i:=0;j:=1;End"] with only [j]
    declared, and the statement [j := i ;] with only [j] declared. *)
Lemma undeclared_names_witness :
  realizationLoop 18
    (mkAnalyzer tokensA 8 (<["j" := "integer"]> ∅) []) ["begin"]
  = Some (mkAnalyzer tokensA 8 (<["j" := "integer"]> ∅)
            [(msgUndefined ++ "i")%string])
  ∧ realizationLoop 9
      (mkAnalyzer sampleBody 4 (<["j" := "integer"]> ∅) []) []
    = Some (mkAnalyzer sampleBody 6 (<["j" := "integer"]> ∅)
              [(msgUndefinedInAssign ++ "i")%string]).
Proof.
  split.
  - refine (proj1 (undeclared_names_are_reported 17
                     (mkAnalyzer tokensA 8 (<["j" := "integer"]> ∅) [])
                     (mkToken IDENTIFIER "i") _ ["begin"] eq_refl eq_refl) _).
    reflexivity.
  - refine (proj2 (undeclared_names_are_reported 8
                     (mkAnalyzer sampleBody 4 (<["j" := "integer"]> ∅) [])
                     (mkToken IDENTIFIER "j") _ [] eq_refl eq_refl)
              (mkToken OPERATOR_ASSIGN ":=") (mkToken IDENTIFIER "i")
              [mkToken DELIMITER_SEMICOLON ";"] eq_refl _ eq_refl eq_refl _).
    + apply (bool_decide_unpack _). vm_compute. exact I.
    + reflexivity.
Defined.
